(** * KittenNote pairing-and-sync engine: a shallow embedding of
      [src/js/sync.js] (class [SyncManager]), of the part of
      [src/js/database.js] it calls and of the drag and drop of
      [src/js/settings.js] (class [DirectoryTree]), with the properties of
      the specification stated and settled against that embedding.

    Conventions.
    - A JavaScript string is a [string]; [length] and [slice] count its
      characters the way the source counts UTF-16 code units.
    - A value produced by [JSON.parse] is a [json]; an object is a finite
      map from property names to values, so that two objects are equal
      exactly when they are deep-equal up to the order of their fields.
      A property that is absent reads as [undefined], that is [None].
    - Numbers are the integers the payloads carry ([sdpMLineIndex],
      [order], chunk indices, clock readings in milliseconds).
    - Mutable fields of the manager become fields of a record that every
      operation takes and returns. *)

From stdpp Require Import gmap strings list fin_maps sorting.
From Stdlib Require Import ZArith Lia Ascii.
From Stdlib Require DecimalString DecimalNat.

Set Warnings "-register-all".

(* ===================================================================== *)
(** * JSON values                                                          *)
(* ===================================================================== *)

Module Json.

Inductive json : Type :=
  | JNull
  | JBool (b : bool)
  | JNum (n : Z)
  | JStr (s : string)
  | JArr (items : list json)
  | JObj (fields : gmap string json).

(** ToBoolean: [null], [false], [0] and [''] are falsy; every array and
    every object is truthy. *)
Definition truthy (v : json) : bool :=
  match v with
  | JNull => false
  | JBool b => b
  | JNum n => negb (n =? 0)%Z
  | JStr s => negb (String.eqb s "")
  | JArr _ | JObj _ => true
  end.

(** [o.k] for a value [o]: [undefined] when [o] is not an object or has
    no such property. *)
Definition prop (k : string) (v : json) : option json :=
  match v with
  | JObj m => m !! k
  | _ => None
  end.

(** [a || d] where [a] is a property read. *)
Definition or_else (a : option json) (d : json) : json :=
  match a with
  | Some v => if truthy v then v else d
  | None => d
  end.

(** [a ?? d] where [a] is a property read. *)
Definition nullish (a : option json) (d : json) : json :=
  match a with
  | Some JNull | None => d
  | Some v => v
  end.

(** Induction through arrays; the fields of an object are not visited. *)
Lemma json_array_ind (P : json → Prop) :
  P JNull → (∀ b, P (JBool b)) → (∀ n, P (JNum n)) → (∀ s, P (JStr s)) →
  (∀ l, Forall P l → P (JArr l)) → (∀ m, P (JObj m)) →
  ∀ v, P v.
Proof.
  intros Hnull Hbool Hnum Hstr Harr Hobj.
  fix IH 1. intros [ | b | n | s | l | m ].
  - exact Hnull.
  - apply Hbool.
  - apply Hnum.
  - apply Hstr.
  - apply Harr. induction l as [ | x l IHl ]; constructor; [ apply IH | exact IHl ].
  - apply Hobj.
Qed.

End Json.

(* ===================================================================== *)
(** * SignalingCodec: compaction of the session description              *)
(* ===================================================================== *)

Module SignalingCodec.
Import Json.

(** [if (cond(result[from])) { result[to] = f(result[from]); delete result[from]; }]
    on the object [result].  A property that is absent is [undefined],
    which fails both the truthiness test and the [!== undefined] test. *)
Definition moveKey (cond : json → bool) (f : json → json)
    (from to : string) (result : gmap string json) : gmap string json :=
  match result !! from with
  | Some v => if cond v then delete from (<[to := f v]> result) else result
  | None => result
  end.

Definition defined (_ : json) : bool := true.

(** [compactSignaling(data, false)]: the branch every recursive call of
    the source takes, since all of them pass [isRoot = false]. *)
Fixpoint compactSignaling_nested (data : json) : json :=
  match data with
  | JArr items => JArr (map compactSignaling_nested items)
  | JObj result =>
      JObj (moveKey defined id "sdpMLineIndex" "i"
             (moveKey truthy id "sdpMid" "m"
               (moveKey truthy id "candidate" "c" result)))
  | _ => data
  end.

Definition compactSignaling (data : json) (isRoot : bool) : json :=
  if isRoot then
    match data with
    | JArr items => JArr (map compactSignaling_nested items)
    | JObj result =>
        JObj (moveKey truthy compactSignaling_nested "candidates" "c"
               (moveKey truthy id "sdp" "s"
                 (moveKey truthy id "type" "t" result)))
    | _ => data
    end
  else compactSignaling_nested data.

Fixpoint expandSignaling_nested (data : json) : json :=
  match data with
  | JArr items => JArr (map expandSignaling_nested items)
  | JObj result =>
      JObj (moveKey defined id "i" "sdpMLineIndex"
             (moveKey truthy id "m" "sdpMid"
               (moveKey truthy id "c" "candidate" result)))
  | _ => data
  end.

Definition expandSignaling (data : json) (isRoot : bool) : json :=
  if isRoot then
    match data with
    | JArr items => JArr (map expandSignaling_nested items)
    | JObj result =>
        JObj (moveKey truthy expandSignaling_nested "c" "candidates"
               (moveKey truthy id "s" "sdp"
                 (moveKey truthy id "t" "type" result)))
    | _ => data
    end
  else expandSignaling_nested data.

(** The key sets of the two nesting levels: the long names and the
    single-character names they are renamed to. *)
Definition rootKeys : list string := ["type"; "sdp"; "candidates"; "t"; "s"; "c"].
Definition candidateKeys : list string :=
  ["candidate"; "sdpMid"; "sdpMLineIndex"; "c"; "m"; "i"].

Definition lacks (keys : list string) (m : gmap string json) : bool :=
  forallb (λ k, bool_decide (m !! k = None)) keys.

(** A payload in long form: an object that uses none of the
    single-character names at its level, arrays elementwise. *)
Fixpoint wellFormed_nested (data : json) : bool :=
  match data with
  | JArr items => forallb wellFormed_nested items
  | JObj m => lacks ["c"; "m"; "i"] m
  | _ => true
  end.

Definition wellFormed (data : json) : bool :=
  match data with
  | JArr items => forallb wellFormed_nested items
  | JObj m =>
      lacks ["t"; "s"; "c"] m &&
      match m !! "candidates" with
      | Some v => wellFormed_nested v
      | None => true
      end
  | _ => true
  end.

(** A function on payloads leaves the properties outside [keys] of
    every object as they are. *)
Definition passesThrough (f : json → json) (keys : list string) : Prop :=
  ∀ (m : gmap string json) k, k ∉ keys → prop k (f (JObj m)) = m !! k.

(** An offer as [startAsInitiator] packages it, with one candidate in
    the shape of [RTCIceCandidate.toJSON()]. *)
Definition sampleOffer : json :=
  JObj (<["type" := JStr "offer"]> (<["sdp" := JStr "v=0"]>
        (<["candidates" :=
            JArr [JObj (<["candidate" := JStr "candidate:1 1 udp 1 10.0.0.1 9 typ host"]>
                        (<["sdpMid" := JStr "0"]>
                         (<["sdpMLineIndex" := JNum 0]>
                          (<["usernameFragment" := JStr "abcd"]> ∅))))]]> ∅))).

(** ** Properties of the compaction *)

Ltac map_lookups :=
  repeat (rewrite ?lookup_insert, ?lookup_delete; case_decide; simplify_eq; try done).

Lemma moveKey_lookup_other cond f from to (m : gmap string json) k :
  k ≠ from → k ≠ to → moveKey cond f from to m !! k = m !! k.
Proof.
  intros Hfrom Hto. unfold moveKey.
  destruct (m !! from) as [v|] eqn:Hv; [ | done ].
  destruct (cond v); [ | done ].
  rewrite lookup_delete_ne by done. by rewrite lookup_insert_ne.
Qed.

Lemma moveKey_comm cond1 f1 cond2 f2 a b c d (m : gmap string json) :
  a ≠ c → a ≠ d → b ≠ c → b ≠ d →
  moveKey cond1 f1 a b (moveKey cond2 f2 c d m)
  = moveKey cond2 f2 c d (moveKey cond1 f1 a b m).
Proof.
  intros Hac Had Hbc Hbd.
  unfold moveKey at 1 3.
  rewrite !moveKey_lookup_other by done.
  unfold moveKey.
  destruct (m !! a) as [v|] eqn:Ha, (m !! c) as [w|] eqn:Hc; try done.
  destruct (cond1 v), (cond2 w); try done.
  apply map_eq. intros k. map_lookups.
Qed.

Lemma moveKey_inverse cond f g from to (m : gmap string json) :
  from ≠ to → m !! to = None →
  (∀ v, m !! from = Some v → cond v = true → cond (f v) = true ∧ g (f v) = v) →
  moveKey cond g to from (moveKey cond f from to m) = m.
Proof.
  intros Hne Hto Hfg. unfold moveKey at 2.
  destruct (m !! from) as [v|] eqn:Hv.
  - destruct (cond v) eqn:Hc.
    + destruct (Hfg v eq_refl Hc) as [Hc' Hgf].
      unfold moveKey. rewrite lookup_delete_ne by done.
      rewrite lookup_insert_eq, Hc', Hgf.
      apply map_eq. intros k. map_lookups.
    + unfold moveKey. by rewrite Hto.
  - unfold moveKey. by rewrite Hto.
Qed.

Lemma moveKey_inverse_id cond from to (m : gmap string json) :
  from ≠ to → m !! to = None →
  moveKey cond id to from (moveKey cond id from to m) = m.
Proof. intros Hne Hto. apply moveKey_inverse; [ done | done | by intros ]. Qed.

Lemma lacks_lookup keys (m : gmap string json) k :
  lacks keys m = true → k ∈ keys → m !! k = None.
Proof.
  unfold lacks. rewrite forallb_forall. intros H Hk.
  apply list_elem_of_In, H in Hk. by apply bool_decide_eq_true in Hk.
Qed.

Lemma truthy_compactSignaling_nested v :
  truthy (compactSignaling_nested v) = truthy v.
Proof. by destruct v. Qed.

Lemma expand_compact_nested v :
  wellFormed_nested v = true →
  expandSignaling_nested (compactSignaling_nested v) = v.
Proof.
  induction v as [ | b | n | s | l IH | m ] using json_array_ind; try done.
  - cbn [wellFormed_nested compactSignaling_nested expandSignaling_nested].
    intros Hwf. f_equal. rewrite map_map.
    induction IH as [ | x l Hx _ IHl ]; [ done | ].
    cbn in Hwf. apply andb_prop in Hwf as [Hwx Hwl].
    cbn. by rewrite Hx, IHl.
  - cbn [wellFormed_nested compactSignaling_nested expandSignaling_nested].
    intros Hwf. f_equal.
    pose proof (lacks_lookup _ m "c" Hwf ltac:(set_solver)) as Hc.
    pose proof (lacks_lookup _ m "m" Hwf ltac:(set_solver)) as Hm.
    pose proof (lacks_lookup _ m "i" Hwf ltac:(set_solver)) as Hi.
    rewrite (moveKey_comm _ _ _ _ "c" "candidate" "sdpMLineIndex" "i") by done.
    rewrite (moveKey_comm _ _ _ _ "c" "candidate" "sdpMid" "m") by done.
    rewrite (moveKey_inverse_id truthy "candidate" "c") by done.
    rewrite (moveKey_comm _ _ _ _ "m" "sdpMid" "sdpMLineIndex" "i") by done.
    rewrite (moveKey_inverse_id truthy "sdpMid" "m") by done.
    by rewrite (moveKey_inverse_id defined "sdpMLineIndex" "i") by done.
Qed.

Lemma expand_compact_root v :
  wellFormed v = true → expandSignaling (compactSignaling v true) true = v.
Proof.
  destruct v as [ | b | n | s | l | m ]; try done.
  - cbn. intros Hwf. f_equal. rewrite map_map.
    induction l as [ | x l IHl ]; [ done | ].
    cbn in Hwf. apply andb_prop in Hwf as [Hwx Hwl].
    cbn. by rewrite expand_compact_nested, IHl.
  - cbn [wellFormed compactSignaling expandSignaling].
    intros [Hwf Hcands]%andb_prop. f_equal.
    pose proof (lacks_lookup _ m "t" Hwf ltac:(set_solver)) as Ht.
    pose proof (lacks_lookup _ m "s" Hwf ltac:(set_solver)) as Hs.
    pose proof (lacks_lookup _ m "c" Hwf ltac:(set_solver)) as Hc.
    rewrite (moveKey_comm _ _ _ _ "t" "type" "candidates" "c") by done.
    rewrite (moveKey_comm _ _ _ _ "t" "type" "sdp" "s") by done.
    rewrite (moveKey_inverse_id truthy "type" "t") by done.
    rewrite (moveKey_comm _ _ _ _ "s" "sdp" "candidates" "c") by done.
    rewrite (moveKey_inverse_id truthy "sdp" "s") by done.
    rewrite moveKey_inverse; [ done .. | ].
    intros v Hv Htrue. rewrite Hv in Hcands.
    by rewrite truthy_compactSignaling_nested, expand_compact_nested.
Qed.

Lemma passesThrough_root :
  passesThrough (λ x, compactSignaling x true) rootKeys ∧
  passesThrough (λ x, expandSignaling x true) rootKeys.
Proof.
  split; intros m k Hk; cbn;
    rewrite !moveKey_lookup_other; try done;
    intros ->; apply Hk; unfold rootKeys; set_solver.
Qed.

Lemma passesThrough_nested :
  passesThrough (λ x, compactSignaling x false) candidateKeys ∧
  passesThrough (λ x, expandSignaling x false) candidateKeys.
Proof.
  split; intros m k Hk; cbn;
    rewrite !moveKey_lookup_other; try done;
    intros ->; apply Hk; unfold candidateKeys; set_solver.
Qed.

(** C5. For every payload in long form (an object that carries none of
    the single-character names [t], [s], [c] at top level, and whose
    candidates, through arrays, carry none of [c], [m], [i]),
    [expandSignaling (compactSignaling x)] is [x]: equal as finite maps,
    so deep-equal whatever the order of the fields.  At both nesting levels
    and in both directions, a property whose name is neither a long name
    nor a single-character name of that level is left as it is. *)
Theorem expand_compact_roundtrip (x : json) :
  wellFormed x = true →
  expandSignaling (compactSignaling x true) true = x ∧
  passesThrough (λ d, compactSignaling d true) rootKeys ∧
  passesThrough (λ d, expandSignaling d true) rootKeys ∧
  passesThrough (λ d, compactSignaling d false) candidateKeys ∧
  passesThrough (λ d, expandSignaling d false) candidateKeys.
Proof.
  intros Hwf. split; [ by apply expand_compact_root | ].
  pose proof passesThrough_root as [? ?].
  pose proof passesThrough_nested as [? ?]. done.
Qed.

Lemma expand_compact_roundtrip_witness :
  wellFormed sampleOffer = true ∧
  expandSignaling (compactSignaling sampleOffer true) true = sampleOffer.
Proof.
  split; [ vm_compute; reflexivity | ].
  apply (expand_compact_roundtrip sampleOffer). vm_compute; reflexivity.
Defined.

End SignalingCodec.

(* ===================================================================== *)
(** * SignalingCodec: fragments for visual transfer                       *)
(* ===================================================================== *)

Module Fragments.

(** [text.slice(i, j)] for indices [0 ≤ i] and [0 ≤ j]: the characters
    from position [i] up to, not including, position [j], cut at the end
    of the text. *)
Definition slice (text : string) (i j : nat) : string := String.substring i (j - i) text.

(** [chunks.join('')]. *)
Definition join (chunks : list string) : string := String.concat "" chunks.

(** The loop of [splitIntoChunks],
    [for (let i = 0; i < text.length; i += chunkSize) chunks.push(text.slice(i, i + chunkSize))],
    run for at most [fuel] tests of its condition; [None] when the fuel
    runs out before the loop ends. *)
Fixpoint splitLoop (fuel : nat) (text : string) (chunkSize i : nat)
    (chunks : list string) : option (list string) :=
  match fuel with
  | 0 => None
  | S fuel' =>
      if bool_decide (i < String.length text)
      then splitLoop fuel' text chunkSize (i + chunkSize)
             (chunks ++ [slice text i (i + chunkSize)])
      else Some chunks
  end.

Definition splitIntoChunks (fuel : nat) (text : string) (chunkSize : nat)
    : option (list string) :=
  splitLoop fuel text chunkSize 0 [].

(** The default of the parameter [chunkSize]. *)
Definition defaultChunkSize : nat := 1500.

(** Template interpolation of a non-negative integer: its decimal digits. *)
Definition decimal (n : nat) : string := DecimalString.NilEmpty.string_of_uint (Nat.to_uint n).

Definition wrapChunk (index total : nat) (payload : string) : string :=
  "KTN1:" +:+ decimal index +:+ "/" +:+ decimal total +:+ ":" +:+ payload.

Record Chunk := { index : nat; total : nat; payload : string }.

Definition isDigit (c : ascii) : bool :=
  match c with
  | "0" | "1" | "2" | "3" | "4" | "5" | "6" | "7" | "8" | "9" => true
  | _ => false
  end%char.

(** The longest run of digits at the head of a string, and what follows:
    how the greedy [\d+] of the pattern matches when a non-digit must
    come next. *)
Fixpoint spanDigits (s : string) : string * string :=
  match s with
  | String c rest =>
      if isDigit c
      then let '(digits, tail) := spanDigits rest in (String c digits, tail)
      else ("", s)
  | EmptyString => ("", "")
  end.

Fixpoint stripPrefix (p s : string) : option string :=
  match p, s with
  | EmptyString, _ => Some s
  | String a p', String b s' => if Ascii.eqb a b then stripPrefix p' s' else None
  | String _ _, EmptyString => None
  end.

(** [parseInt(digits, 10)] on a non-empty run of digits. *)
Definition parseInt10 (digits : string) : nat :=
  match DecimalString.NilEmpty.uint_of_string digits with
  | Some d => Nat.of_uint d
  | None => 0
  end.

(** [raw.match(/^KTN1:(\d+)\/(\d+):([\s\S]+)$/)]. *)
Definition parseChunk (raw : string) : option Chunk :=
  match stripPrefix "KTN1:" raw with
  | None => None
  | Some afterTag =>
      match spanDigits afterTag with
      | (EmptyString, _) => None
      | (indexDigits, String "/" afterSlash) =>
          match spanDigits afterSlash with
          | (EmptyString, _) => None
          | (totalDigits, String ":" (String c rest)) =>
              Some {| index := parseInt10 indexDigits;
                      total := parseInt10 totalDigits;
                      payload := String c rest |}
          | _ => None
          end
      | _ => None
      end
  end.

(** The fields of the manager that the scanner uses. *)
Record ScanState := {
  scanChunks : gmap nat string;
  scanChunkTotal : nat;
  lastScanTime : Z;
  lastScanData : string
}.

Definition resetScanChunks (st : ScanState) : ScanState :=
  {| scanChunks := ∅; scanChunkTotal := 0; lastScanTime := 0; lastScanData := "" |}.

Inductive ScanResult : Type :=
  | Complete (data : string)      (* { complete: true, data } *)
  | Incomplete.                   (* { complete: false } *)

(** [handleScannedPayload(raw, target)]; [target] only selects the
    element that shows the progress text. *)
Definition handleScannedPayload (raw : string) (st : ScanState)
    : ScanState * ScanResult :=
  match parseChunk raw with
  | None => (st, Complete raw)
  | Some chunk =>
      let newTotal :=
        if (scanChunkTotal st =? 0) || negb (scanChunkTotal st =? total chunk)
        then total chunk else scanChunkTotal st in
      let chunks := <[index chunk := payload chunk]> (scanChunks st) in
      let st' := {| scanChunks := chunks; scanChunkTotal := newTotal;
                    lastScanTime := lastScanTime st;
                    lastScanData := lastScanData st |} in
      if size chunks <? newTotal then (st', Incomplete)
      else
        let ordered :=
          map (λ i, match chunks !! i with
                    | Some s => if String.eqb s "" then "" else s
                    | None => ""
                    end) (seq 1 newTotal) in
        (st', Complete (join ordered))
  end.

(** Scanning a sequence of codes, one after the other. *)
Fixpoint scanAll (raws : list string) (st : ScanState)
    : ScanState * list ScanResult :=
  match raws with
  | [] => (st, [])
  | raw :: raws' =>
      let '(st1, r) := handleScannedPayload raw st in
      let '(st2, rs) := scanAll raws' st1 in
      (st2, r :: rs)
  end.

(** What the carousel of [renderQRCodes] shows: code [index + 1] of
    [chunks.length] for every chunk. *)
Definition wrapAll (chunks : list string) : list string :=
  imap (λ i c, wrapChunk (S i) (length chunks) c) chunks.

(** The text that a complete scan returns: the slices at [1..total],
    an index that was never scanned contributing nothing. *)
Definition assemble (chunks : gmap nat string) (total : nat) : string :=
  join (map (λ i, default "" (chunks !! i)) (seq 1 total)).

(** The fragments of a payload as (index, slice) pairs. *)
Definition fragmentPairs (chunks : list string) : list (nat * string) :=
  imap (λ i c, (S i, c)) chunks.

Definition freshScan : ScanState :=
  {| scanChunks := ∅; scanChunkTotal := 0; lastScanTime := 0; lastScanData := "" |}.

(** The claim of C2 as a property of the scanner: a fragment whose total
    differs from the one observed so far leaves only itself collected. *)
Definition RestartsOnConflict : Prop :=
  ∀ st raw chunk,
    parseChunk raw = Some chunk →
    scanChunkTotal st ≠ 0 → scanChunkTotal st ≠ total chunk →
    scanChunks (handleScannedPayload raw st).1
    = {[ index chunk := payload chunk ]}.

(** ** Slices of a string *)

Lemma substring_empty i m : String.substring i m "" = "".
Proof. by destruct i, m. Qed.

Lemma substring_zero s i : String.substring i 0 s = "".
Proof.
  revert i. induction s as [ | c s IH ]; intros [ | i ]; try done. apply IH.
Qed.

Lemma append_cons c (x y : string) : String c x +:+ y = String c (x +:+ y).
Proof. reflexivity. Qed.

Lemma append_empty_r (x : string) : x +:+ "" = x.
Proof. induction x as [ | c x IH ]; [ done | ]. by rewrite append_cons, IH. Qed.

Lemma substring_app s : ∀ i a b,
  String.substring i a s +:+ String.substring (i + a) b s
  = String.substring i (a + b) s.
Proof.
  induction s as [ | c s IH ]; intros i a b.
  - by rewrite !substring_empty.
  - destruct i as [ | i ]; [ | apply IH ].
    destruct a as [ | a ]; [ done | ].
    cbn. rewrite append_cons. f_equal. apply (IH 0).
Qed.

Lemma substring_overshoot s : ∀ i m,
  String.length s - i ≤ m →
  String.substring i m s = String.substring i (String.length s - i) s.
Proof.
  induction s as [ | c s IH ]; intros i m Hm.
  - by rewrite !substring_empty.
  - destruct i as [ | i ]; [ | by apply IH ].
    cbn in Hm. destruct m as [ | m ]; [ lia | ].
    cbn. f_equal. rewrite (IH 0 m) by lia. by rewrite Nat.sub_0_r.
Qed.

Lemma substring_all s : String.substring 0 (String.length s) s = s.
Proof. induction s as [ | c s IH ]; [ done | ]. cbn. by rewrite IH. Qed.

Lemma substring_nonempty s : ∀ i m,
  i < String.length s → 0 < m → String.substring i m s ≠ "".
Proof.
  induction s as [ | c s IH ]; intros i m Hi Hm; [ cbn in Hi; lia | ].
  destruct i as [ | i ].
  - destruct m; [ lia | done ].
  - cbn in Hi. apply IH; lia.
Qed.

Lemma length_substring s : ∀ i m,
  String.length (String.substring i m s) = m `min` (String.length s - i).
Proof.
  induction s as [ | c s IH ]; intros i m.
  - rewrite substring_empty. cbn. lia.
  - destruct i as [ | i ]; [ | apply IH ].
    destruct m as [ | m ]; [ done | ].
    cbn. rewrite IH. lia.
Qed.

Lemma join_cons x l : join (x :: l) = x +:+ join l.
Proof.
  unfold join. destruct l as [ | y l ]; [ | done ].
  cbn. by rewrite append_empty_r.
Qed.

(** ** The splitting loop *)

Lemma splitLoop_spec text chunkSize :
  0 < chunkSize →
  ∀ fuel i chunks,
    String.length text - i < fuel →
    ∃ rest,
      splitLoop fuel text chunkSize i chunks = Some (chunks ++ rest) ∧
      join rest = String.substring i (String.length text - i) text ∧
      Forall (λ c, c ≠ "") rest.
Proof.
  intros Hsize. induction fuel as [ | fuel IH ]; intros i chunks Hfuel; [ lia | ].
  cbn [splitLoop]. case_bool_decide as Hi.
  - destruct (IH (i + chunkSize) (chunks ++ [slice text i (i + chunkSize)]))
      as (rest & Hrun & Hjoin & Hne); [ lia | ].
    exists (slice text i (i + chunkSize) :: rest). split; [ | split ].
    + by rewrite Hrun, <- app_assoc.
    + rewrite join_cons, Hjoin. unfold slice.
      replace (i + chunkSize - i) with chunkSize by lia.
      rewrite substring_app. apply substring_overshoot. lia.
    + constructor; [ | done ]. unfold slice. apply substring_nonempty; lia.
  - exists []. rewrite app_nil_r. split; [ done | split; [ | done ] ].
    replace (String.length text - i) with 0 by lia. by rewrite substring_zero.
Qed.

Lemma splitIntoChunks_spec text chunkSize fuel :
  0 < chunkSize → String.length text < fuel →
  ∃ chunks,
    splitIntoChunks fuel text chunkSize = Some chunks ∧
    join chunks = text ∧ Forall (λ c, c ≠ "") chunks.
Proof.
  intros Hsize Hfuel.
  destruct (splitLoop_spec text chunkSize Hsize fuel 0 []) as (rest & Hrun & Hjoin & Hne);
    [ lia | ].
  exists rest. split; [ done | split; [ | done ] ].
  by rewrite Hjoin, Nat.sub_0_r, substring_all.
Qed.

(** With a chunk size of zero the index never advances. *)
Lemma splitLoop_zero_diverges text fuel : ∀ chunks,
  0 < String.length text → splitLoop fuel text 0 0 chunks = None.
Proof.
  induction fuel as [ | fuel IH ]; intros chunks Hlen; [ done | ].
  cbn [splitLoop]. rewrite bool_decide_eq_true_2 by done. by apply IH.
Qed.

(** ** Wrapping and parsing a fragment *)

Lemma spanDigits_uint d c rest :
  isDigit c = false →
  spanDigits (DecimalString.NilEmpty.string_of_uint d +:+ String c rest)
  = (DecimalString.NilEmpty.string_of_uint d, String c rest).
Proof.
  intros Hc.
  induction d as [ | d IH | d IH | d IH | d IH | d IH | d IH | d IH | d IH | d IH | d IH ];
    cbn [DecimalString.NilEmpty.string_of_uint]; rewrite ?append_cons;
    cbn [spanDigits isDigit]; rewrite ?IH; try done.
  change ("" +:+ String c rest) with (String c rest).
  cbn [spanDigits]. by rewrite Hc.
Qed.

Lemma stripPrefix_app p s : stripPrefix p (p +:+ s) = Some s.
Proof.
  induction p as [ | a p IH ]; [ by destruct s | ].
  rewrite append_cons. cbn [stripPrefix]. by rewrite Ascii.eqb_refl.
Qed.

Lemma decimal_nonempty n : decimal n ≠ "".
Proof.
  unfold decimal. intros Hempty.
  assert (Nat.to_uint n = Decimal.Nil) as Hnil.
  { destruct (Nat.to_uint n); try done. }
  pose proof (DecimalNat.Unsigned.to_of (Nat.to_uint n)) as Hnorm.
  rewrite DecimalNat.Unsigned.of_to, Hnil in Hnorm. by cbn in Hnorm.
Qed.

Lemma parseInt10_decimal n : parseInt10 (decimal n) = n.
Proof.
  unfold parseInt10, decimal. rewrite DecimalString.NilEmpty.usu. apply DecimalNat.Unsigned.of_to.
Qed.

Lemma parseChunk_wrapChunk i t p :
  p ≠ "" →
  parseChunk (wrapChunk i t p) = Some {| index := i; total := t; payload := p |}.
Proof.
  intros Hp. unfold parseChunk, wrapChunk. rewrite stripPrefix_app.
  change ("/" +:+ ?x) with (String "/"%char x).
  change (":" +:+ ?x) with (String ":"%char x).
  unfold decimal at 1. rewrite spanDigits_uint by done. fold (decimal i).
  destruct (decimal i) as [ | a digits ] eqn:Hi; [ by apply decimal_nonempty in Hi | ].
  unfold decimal at 1. rewrite spanDigits_uint by done. fold (decimal t).
  destruct (decimal t) as [ | b digits' ] eqn:Ht; [ by apply decimal_nonempty in Ht | ].
  destruct p as [ | c rest ]; [ done | ].
  by rewrite <- Hi, <- Ht, !parseInt10_decimal.
Qed.

Lemma splitLoop_fuel_mono text chunkSize result : ∀ fuel fuel' i chunks,
  fuel ≤ fuel' →
  splitLoop fuel text chunkSize i chunks = Some result →
  splitLoop fuel' text chunkSize i chunks = Some result.
Proof.
  induction fuel as [ | fuel IH ]; intros fuel' i chunks Hle Hrun; [ done | ].
  destruct fuel' as [ | fuel' ]; [ lia | ].
  cbn [splitLoop] in *. case_bool_decide; [ | done ].
  apply IH; [ lia | done ].
Qed.

(** ** Reassembly *)

Lemma newTotal_latest (current latest : nat) :
  (if (current =? 0) || negb (current =? latest) then latest else current) = latest.
Proof.
  destruct (current =? latest) eqn:Heq.
  - apply Nat.eqb_eq in Heq as ->. by destruct (latest =? 0).
  - by rewrite orb_true_r.
Qed.

Lemma handleScannedPayload_chunk raw chunk st :
  parseChunk raw = Some chunk →
  handleScannedPayload raw st =
    let chunks := <[index chunk := payload chunk]> (scanChunks st) in
    ({| scanChunks := chunks; scanChunkTotal := total chunk;
        lastScanTime := lastScanTime st; lastScanData := lastScanData st |},
     if size chunks <? total chunk then Incomplete
     else Complete (assemble chunks (total chunk))).
Proof.
  intros Hparse. unfold handleScannedPayload. rewrite Hparse, newTotal_latest.
  cbn zeta. destruct (size _ <? total chunk); [ done | ].
  unfold assemble. do 3 f_equal. apply map_ext. intros i.
  destruct (_ !! i) as [ x | ]; [ | done ].
  cbn. by destruct (String.eqb_spec x "") as [ -> | ].
Qed.

Lemma wrapAll_pairs chunks :
  wrapAll chunks
  = (λ p, wrapChunk p.1 (length chunks) p.2) <$> fragmentPairs chunks.
Proof. unfold wrapAll, fragmentPairs. by rewrite fmap_imap. Qed.

Lemma fragmentPairs_indices chunks :
  (fragmentPairs chunks).*1 = seq 1 (length chunks).
Proof.
  unfold fragmentPairs. rewrite fmap_imap.
  rewrite (imap_ext _ (λ j _, S j)) by done.
  by rewrite imap_seq_0, fmap_S_seq.
Qed.

Lemma assemble_fragments chunks (seen : list (nat * string)) :
  seen ≡ₚ fragmentPairs chunks →
  assemble (list_to_map seen) (length chunks) = join chunks.
Proof.
  intros Hperm. unfold assemble. f_equal.
  assert (NoDup seen.*1) as Hnodup.
  { rewrite Hperm, fragmentPairs_indices. apply NoDup_seq. }
  apply list_eq. intros j. rewrite list_lookup_fmap.
  destruct (chunks !! j) as [ c | ] eqn:Hj.
  - rewrite lookup_seq_lt by (by eapply lookup_lt_Some). cbn.
    rewrite (elem_of_list_to_map_1 seen (S j) c Hnodup); [ done | ].
    rewrite Hperm. by apply (elem_of_lookup_imap_2 (λ i c, (S i, c))).
  - apply lookup_ge_None in Hj.
    assert (seq 1 (length chunks) !! j = None) as ->; [ | done ].
    apply lookup_ge_None. by rewrite length_seq.
Qed.

Lemma scanAll_fragments k (ps : list (nat * string)) :
  ∀ (seen : list (nat * string)) st,
    ps ≠ [] →
    scanChunks st = list_to_map seen →
    NoDup (seen ++ ps).*1 →
    Forall (λ p, p.2 ≠ "") ps →
    length seen + length ps = k →
    (scanAll ((λ p, wrapChunk p.1 k p.2) <$> ps) st).2
    = replicate (length ps - 1) Incomplete
      ++ [Complete (assemble (list_to_map (rev ps ++ seen)) k)].
Proof.
  induction ps as [ | [i c] ps IH ]; intros seen st Hne Hst Hnodup Hpay Hlen; [ done | ].
  apply Forall_cons in Hpay as [Hc Hpay]. cbn in Hc.
  cbn [fmap list_fmap scanAll fst snd].
  rewrite (handleScannedPayload_chunk _ {| index := i; total := k; payload := c |})
    by (by apply parseChunk_wrapChunk).
  cbn [index total payload]. cbn zeta. rewrite Hst.
  assert (NoDup ((i, c) :: seen).*1) as Hnodup'.
  { rewrite fmap_app in Hnodup. rewrite fmap_cons in *.
    apply NoDup_app in Hnodup as (Hseen & Hdisj & Hps).
    apply NoDup_cons. split; [ | done ].
    intros Hin. apply (Hdisj i Hin). cbn. left. }
  assert (size (<[i := c]> (list_to_map seen : gmap nat string)) = S (length seen)) as Hsize.
  { change (<[i := c]> (list_to_map seen)) with (list_to_map ((i, c) :: seen) : gmap nat string).
    by rewrite map_size_list_to_map. }
  rewrite Hsize.
  destruct ps as [ | q ps ].
  - cbn in Hlen. cbn [fmap list_fmap scanAll].
    replace (S (length seen) <? k) with false by (symmetry; apply Nat.ltb_ge; lia).
    done.
  - cbn [length] in Hlen.
    replace (S (length seen) <? k) with true by (symmetry; apply Nat.ltb_lt; lia).
    match goal with
    | |- context [ scanAll ?raws ?st1 ] =>
        specialize (IH ((i, c) :: seen) st1);
        destruct (scanAll raws st1) as [st2 rs] eqn:Hrun
    end.
    cbn [snd] in *. rewrite IH; try done.
    + cbn [length rev]. replace (S (S (length ps)) - 1) with (S (S (length ps) - 1)) by lia.
      cbn [replicate]. by rewrite <- !app_assoc.
    + rewrite !fmap_app, !fmap_cons in *.
      eapply NoDup_Permutation_proper; [ | exact Hnodup ].
      apply Permutation_middle.
    + cbn [length] in *. lia.
Qed.

(** C2, as stated, fails: after fragment 1 of 3 with slice [a], fragment
    2 of 2 with slice [b] makes the total 2 and keeps slice [a], so that
    the scan completes at once with the text [ab]. *)
Lemma conflicting_total_keeps_collected :
  let st1 := (handleScannedPayload "KTN1:1/3:a" freshScan).1 in
  let st2 := (handleScannedPayload "KTN1:2/2:b" st1).1 in
  scanChunkTotal st1 = 3 ∧
  scanChunkTotal st2 = 2 ∧
  scanChunks st2 !! 1 = Some "a" ∧
  (handleScannedPayload "KTN1:2/2:b" st1).2 = Complete "ab" ∧
  ¬ RestartsOnConflict.
Proof.
  repeat split; try (vm_compute; reflexivity).
  intros Hrestart.
  specialize (Hrestart (handleScannedPayload "KTN1:1/3:a" freshScan).1
                "KTN1:2/2:b" {| index := 2; total := 2; payload := "b" |}).
  apply (f_equal (lookup 1)) in Hrestart; [ | vm_compute; reflexivity | done | done ].
  vm_compute in Hrestart. discriminate.
Qed.

(** C2, amended.  Whatever total was observed before, a scanned fragment
    makes its own total the current one and is stored under its index;
    every slice collected before stays collected; the scan is complete
    when the number of collected indices reaches the new total, and the
    text is then assembled from the indices [1..total]. *)
Theorem latest_total_wins_fragments_kept st raw chunk :
  parseChunk raw = Some chunk →
  let st' := (handleScannedPayload raw st).1 in
  scanChunkTotal st' = total chunk ∧
  scanChunks st' = <[index chunk := payload chunk]> (scanChunks st) ∧
  (∀ i, i ≠ index chunk → scanChunks st' !! i = scanChunks st !! i) ∧
  (handleScannedPayload raw st).2
  = if size (scanChunks st') <? total chunk then Incomplete
    else Complete (assemble (scanChunks st') (total chunk)).
Proof.
  intros Hparse. rewrite (handleScannedPayload_chunk raw chunk st Hparse).
  cbn. repeat split. intros i Hi. by rewrite lookup_insert_ne.
Qed.

Lemma latest_total_wins_fragments_kept_witness :
  let st1 := (handleScannedPayload "KTN1:1/3:a" freshScan).1 in
  let st' := (handleScannedPayload "KTN1:2/2:b" st1).1 in
  scanChunkTotal st' = 2 ∧
  scanChunks st' = <[2 := "b"]> (scanChunks st1) ∧
  (∀ i, i ≠ 2 → scanChunks st' !! i = scanChunks st1 !! i) ∧
  (handleScannedPayload "KTN1:2/2:b" st1).2
  = if size (scanChunks st') <? 2 then Incomplete
    else Complete (assemble (scanChunks st') 2).
Proof.
  exact (latest_total_wins_fragments_kept
           (handleScannedPayload "KTN1:1/3:a" freshScan).1 "KTN1:2/2:b"
           {| index := 2; total := 2; payload := "b" |} eq_refl).
Defined.

(** C6, as stated, fails at chunk size 0: the loop never ends on a
    non-empty text, so [splitIntoChunks] has no result to join. *)
Lemma split_size_zero_no_result :
  ¬ ∃ fuel chunks, splitIntoChunks fuel "a" 0 = Some chunks.
Proof.
  intros (fuel & chunks & Hrun). unfold splitIntoChunks in Hrun.
  rewrite splitLoop_zero_diverges in Hrun; [ done | cbn; lia ].
Qed.

(** C6, amended.  For every string [s] and every chunk size [n ≥ 1] the
    split ends (with any fuel above the length of [s]) and joining its
    slices in order gives [s]; and when the wrapped fragments are scanned
    in any order from a reset scanner, every scan but the last reports an
    incomplete payload and the last one returns [s]. *)
Theorem split_join_reassemble (s : string) (n : nat) :
  0 < n →
  ∃ chunks,
    (∀ fuel, String.length s < fuel → splitIntoChunks fuel s n = Some chunks) ∧
    join chunks = s ∧
    ∀ raws st,
      raws ≡ₚ wrapAll chunks → raws ≠ [] →
      (scanAll raws (resetScanChunks st)).2
      = replicate (length raws - 1) Incomplete ++ [Complete s].
Proof.
  intros Hn.
  destruct (splitIntoChunks_spec s n (S (String.length s)) Hn) as (chunks & Hrun & Hjoin & Hne);
    [ lia | ].
  exists chunks. split; [ | split; [ done | ] ].
  - intros fuel Hfuel. eapply splitLoop_fuel_mono; [ | exact Hrun ]. lia.
  - intros raws st Hperm Hraws. rewrite wrapAll_pairs in Hperm.
    apply Permutation_map_inv in Hperm as (ps & -> & Hps).
    change (map ?f ps) with (f <$> ps) in *.
    assert (ps ≠ []) as Hps' by (by intros ->).
    assert (length ps = length chunks) as Hlen.
    { rewrite <- Hps. unfold fragmentPairs. by rewrite length_imap. }
    rewrite (scanAll_fragments (length chunks) ps []); try done.
    + rewrite length_fmap, app_nil_r, <- Hjoin. do 3 f_equal.
      apply assemble_fragments. by rewrite <- Permutation_rev, <- Hps.
    + cbn. rewrite <- Hps, fragmentPairs_indices. apply NoDup_seq.
    + rewrite <- Hps. unfold fragmentPairs.
      apply Forall_forall. intros [i c] [j [c' [[= -> ->] Hj]]]%elem_of_lookup_imap.
      cbn. rewrite Forall_forall in Hne. apply Hne. by eapply list_elem_of_lookup_2.
Qed.

Lemma split_join_reassemble_witness :
  0 < 3 ∧
  ∃ chunks,
    (∀ fuel, String.length "abcdefg" < fuel →
             splitIntoChunks fuel "abcdefg" 3 = Some chunks) ∧
    join chunks = "abcdefg" ∧
    ∀ raws st,
      raws ≡ₚ wrapAll chunks → raws ≠ [] →
      (scanAll raws (resetScanChunks st)).2
      = replicate (length raws - 1) Incomplete ++ [Complete "abcdefg"].
Proof.
  split; [ lia | ]. apply (split_join_reassemble "abcdefg" 3). lia.
Defined.

(** ** The sizes of the slices *)

Lemma ceil_bounds len n k :
  0 < n → (k * n < len ↔ k < (len + n - 1) / n).
Proof.
  intros Hn.
  pose proof (Nat.div_mod_eq (len + n - 1) n) as Hdiv.
  pose proof (Nat.mod_upper_bound (len + n - 1) n ltac:(lia)) as Hmod.
  split; intros Hk; nia.
Qed.

Lemma splitLoop_blocks text n :
  0 < n →
  ∀ fuel k acc,
    String.length text - k * n < fuel →
    splitLoop fuel text n (k * n) acc
    = Some (acc ++ map (λ j, slice text (j * n) (j * n + n))
                       (seq k ((String.length text + n - 1) / n - k))).
Proof.
  intros Hn. induction fuel as [ | fuel IH ]; intros k acc Hfuel; [ lia | ].
  cbn [splitLoop]. case_bool_decide as Hk.
  - set (c := slice text (k * n) (k * n + n)).
    replace (k * n + n) with (S k * n) by lia.
    rewrite IH by lia. apply ceil_bounds in Hk; [ | done ].
    replace ((String.length text + n - 1) / n - k)
      with (S ((String.length text + n - 1) / n - S k)) by lia.
    cbn [seq map]. by rewrite <- app_assoc.
  - assert (¬ k < (String.length text + n - 1) / n) as Hk'.
    { intros Hlt. apply Hk. by apply ceil_bounds. }
    replace ((String.length text + n - 1) / n - k) with 0 by lia.
    by rewrite app_nil_r.
Qed.

(** X1.  [splitIntoChunks(text, n)] with [n ≥ 1] cuts the text at the
    multiples of [n]: it returns ceil(length / n) slices (none for the
    empty text), slice [i] being [text.slice(i * n, i * n + n)]; every
    slice is non-empty and at most [n] characters long, and every slice
    but the last has exactly [n] characters. *)
Theorem split_chunk_sizes (text : string) (n fuel : nat) :
  0 < n → String.length text < fuel →
  ∃ chunks,
    splitIntoChunks fuel text n = Some chunks ∧
    String.length text ≤ length chunks * n < String.length text + n ∧
    ∀ i c, chunks !! i = Some c →
      c = slice text (i * n) (i * n + n) ∧
      0 < String.length c ≤ n ∧
      (S i < length chunks → String.length c = n).
Proof.
  intros Hn Hfuel. unfold splitIntoChunks.
  change (splitLoop fuel text n 0 []) with (splitLoop fuel text n (0 * n) []).
  rewrite (splitLoop_blocks text n Hn fuel 0 []) by lia.
  eexists. split; [ reflexivity | ].
  rewrite app_nil_l, Nat.sub_0_r, length_map, length_seq.
  set (m := (String.length text + n - 1) / n).
  assert (String.length text ≤ m * n < String.length text + n) as Hm.
  { pose proof (ceil_bounds (String.length text) n m Hn) as Hup.
    destruct m as [ | m' ] eqn:Em; [ lia | ].
    pose proof (ceil_bounds (String.length text) n m' Hn) as Hlow. lia. }
  split; [ exact Hm | ].
  intros i c Hi. rewrite list_lookup_fmap in Hi.
  destruct (seq 0 m !! i) as [ j | ] eqn:Hj; [ | done ].
  apply lookup_seq in Hj as [-> Hlt]. cbn in Hi. injection Hi as <-.
  split; [ done | ]. unfold slice. rewrite length_substring.
  apply (ceil_bounds (String.length text) n i Hn) in Hlt.
  split; [ lia | ]. intros Hnext.
  assert (S i * n < String.length text) by (apply ceil_bounds; [ done | lia ]).
  lia.
Qed.

Lemma split_chunk_sizes_witness :
  0 < 3 ∧ String.length "abcdefg" < 8 ∧
  ∃ chunks,
    splitIntoChunks 8 "abcdefg" 3 = Some chunks ∧
    String.length "abcdefg" ≤ length chunks * 3 < String.length "abcdefg" + 3 ∧
    ∀ i c, chunks !! i = Some c →
      c = slice "abcdefg" (i * 3) (i * 3 + 3) ∧
      0 < String.length c ≤ 3 ∧
      (S i < length chunks → String.length c = 3).
Proof.
  split; [ lia | ]. split; [ cbn; lia | ].
  apply (split_chunk_sizes "abcdefg" 3 8); cbn; lia.
Defined.

(** ** A fragment and its wrapping *)

(** X2.  [parseChunk] reads back what [wrapChunk] wrote: the index,
    the total and the payload of a wrapped fragment are recovered as they
    were, whatever characters the payload holds.  The one exception is
    the empty payload: the pattern asks for at least one character after
    the second colon, so that the wrapping of an empty payload is not
    recognised as a fragment. *)
Theorem parseChunk_inverts_wrapChunk i t p :
  parseChunk (wrapChunk i t p)
  = if String.eqb p "" then None
    else Some {| index := i; total := t; payload := p |}.
Proof.
  destruct (String.eqb_spec p "") as [ -> | Hp ]; [ | by apply parseChunk_wrapChunk ].
  unfold parseChunk, wrapChunk. rewrite stripPrefix_app.
  change ("/" +:+ ?x) with (String "/"%char x).
  change (":" +:+ ?x) with (String ":"%char x).
  unfold decimal at 1. rewrite spanDigits_uint by done. fold (decimal i).
  destruct (decimal i) as [ | a digits ] eqn:Hi; [ done | ].
  unfold decimal at 1. rewrite spanDigits_uint by done. fold (decimal t).
  by destruct (decimal t).
Qed.

Lemma stripPrefix_Some p : ∀ s rest, stripPrefix p s = Some rest → s = p +:+ rest.
Proof.
  induction p as [ | a p IH ]; intros s rest Hs.
  - cbn in Hs. by injection Hs as ->.
  - destruct s as [ | b s ]; [ done | ]. cbn in Hs.
    destruct (Ascii.eqb_spec a b) as [ -> | ]; [ | done ].
    rewrite append_cons. f_equal. by apply IH.
Qed.

Lemma handleScannedPayload_plain raw st :
  (∀ rest, raw ≠ "KTN1:" +:+ rest) →
  handleScannedPayload raw st = (st, Complete raw).
Proof.
  intros Hraw. unfold handleScannedPayload, parseChunk.
  destruct (stripPrefix "KTN1:" raw) as [ rest | ] eqn:Hstrip; [ | done ].
  apply stripPrefix_Some in Hstrip. by destruct (Hraw rest).
Qed.

(** X3.  A scanned text that does not begin with the tag [KTN1:] (a
    code that was not split, a pasted JSON text) is returned at once as
    the complete payload, character for character, and the scanner is
    left as it was: the fragments collected so far and the total stay. *)
Theorem unfragmented_text_passes_through raw st :
  (∀ rest, raw ≠ "KTN1:" +:+ rest) →
  handleScannedPayload raw st = (st, Complete raw).
Proof. apply handleScannedPayload_plain. Qed.

Lemma unfragmented_text_passes_through_witness :
  (∀ rest, "{}" ≠ "KTN1:" +:+ rest) ∧
  handleScannedPayload "{}" freshScan = (freshScan, Complete "{}").
Proof.
  assert (∀ rest, "{}" ≠ "KTN1:" +:+ rest) as Hraw by (by intros rest).
  split; [ exact Hraw | ].
  exact (unfragmented_text_passes_through "{}" freshScan Hraw).
Defined.

(** X4.  Scanning the same code a second time changes nothing: the
    scanner is in the same state after the second scan as after the
    first, and the second scan reports what the first one reported. *)
Theorem rescanning_changes_nothing raw st :
  handleScannedPayload raw (handleScannedPayload raw st).1
  = handleScannedPayload raw st.
Proof.
  destruct (parseChunk raw) as [ chunk | ] eqn:Hparse.
  - rewrite !(handleScannedPayload_chunk raw chunk) by done.
    cbn. by rewrite insert_insert_eq.
  - unfold handleScannedPayload. by rewrite Hparse.
Qed.




(** ** Scanning all the codes of a payload *)

Lemma scanAll_app raws1 raws2 st :
  scanAll (raws1 ++ raws2) st
  = ((scanAll raws2 (scanAll raws1 st).1).1,
     (scanAll raws1 st).2 ++ (scanAll raws2 (scanAll raws1 st).1).2).
Proof.
  revert st. induction raws1 as [ | raw raws1 IH ]; intros st.
  - cbn. by destruct (scanAll raws2 st).
  - cbn [app scanAll]. destruct (handleScannedPayload raw st) as [st1 r].
    rewrite IH. by destruct (scanAll raws1 st1).
Qed.

Lemma length_scanAll raws : ∀ st, length (scanAll raws st).2 = length raws.
Proof.
  induction raws as [ | raw raws IH ]; intros st; [ done | ].
  cbn [scanAll]. destruct (handleScannedPayload raw st) as [st1 r].
  specialize (IH st1). destruct (scanAll raws st1). cbn in *. by rewrite IH.
Qed.

Lemma scanAll_wrapAll chunks raws st :
  Forall (λ c, c ≠ "") chunks →
  raws ≡ₚ wrapAll chunks → raws ≠ [] →
  scanChunks st = ∅ →
  (scanAll raws st).2
  = replicate (length raws - 1) Incomplete ++ [Complete (join chunks)].
Proof.
  intros Hne Hperm Hraws Hst. rewrite wrapAll_pairs in Hperm.
  apply Permutation_map_inv in Hperm as (ps & -> & Hps).
  change (map ?f ps) with (f <$> ps) in *.
  assert (ps ≠ []) as Hps' by (by intros ->).
  assert (length ps = length chunks) as Hlen.
  { rewrite <- Hps. unfold fragmentPairs. by rewrite length_imap. }
  rewrite (scanAll_fragments (length chunks) ps []); try done.
  + rewrite length_fmap, app_nil_r. do 3 f_equal.
    apply assemble_fragments. by rewrite <- Permutation_rev, <- Hps.
  + cbn. rewrite <- Hps, fragmentPairs_indices. apply NoDup_seq.
  + rewrite <- Hps. unfold fragmentPairs.
    apply Forall_forall. intros [i c] [j [c' [[= -> ->] Hj]]]%elem_of_lookup_imap.
    cbn. rewrite Forall_forall in Hne. apply Hne. by eapply list_elem_of_lookup_2.
Qed.

(** The last code of a scan that runs to completion. *)
Lemma scanAll_last raws st data :
  raws ≠ [] →
  (scanAll raws st).2 = replicate (length raws - 1) Incomplete ++ [Complete data] →
  ∃ init final,
    raws = init ++ [final] ∧
    (scanAll init st).2 = replicate (length init) Incomplete ∧
    (handleScannedPayload final (scanAll init st).1).2 = Complete data.
Proof.
  intros Hraws Hrun.
  destruct (exists_last Hraws) as (init & final & ->).
  exists init, final. split; [ done | ].
  rewrite scanAll_app in Hrun. cbn [snd] in Hrun.
  rewrite length_app in Hrun. cbn [length] in Hrun.
  replace (length init + 1 - 1) with (length init) in Hrun by lia.
  apply app_inj_1 in Hrun as [Hinit Hfinal];
    [ | by rewrite length_scanAll, length_replicate ].
  split; [ done | ]. cbn [scanAll] in Hfinal.
  destruct (handleScannedPayload final _) as [st1 r]. cbn in *. congruence.
Qed.

Lemma splitIntoChunks_result text chunkSize fuel chunks :
  0 < chunkSize → splitIntoChunks fuel text chunkSize = Some chunks →
  join chunks = text ∧ Forall (λ c, c ≠ "") chunks.
Proof.
  intros Hsize Hrun.
  destruct (splitIntoChunks_spec text chunkSize (fuel `max` S (String.length text)) Hsize)
    as (chunks' & Hrun' & Hjoin & Hne); [ lia | ].
  unfold splitIntoChunks in *.
  rewrite (splitLoop_fuel_mono text chunkSize chunks fuel (fuel `max` S (String.length text)))
    in Hrun' by (lia || done).
  by injection Hrun' as <-.
Qed.

End Fragments.

(* ===================================================================== *)
(** * The external store: [database.js]                                   *)
(* ===================================================================== *)

Module Store.
Import Json.

(** A record of one of the object stores [folders], [notebooks],
    [notes]: a JavaScript object. *)
Abbreviation Entity := (gmap string json).

(** Keys of an object store.  The stores are created with
    [keyPath: 'id']; of the values JSON can carry, numbers and strings are
    taken as keys here (an array of keys, which IndexedDB also accepts, is
    read as an invalid key). *)
Inductive Key : Type :=
  | KNum (n : Z)
  | KStr (s : string).

#[global] Instance Key_eq_dec : EqDecision Key.
Proof. solve_decision. Defined.

#[global] Instance Key_countable : Countable Key.
Proof.
  refine (inj_countable'
            (λ k, match k with KNum n => inl n | KStr s => inr s end)
            (λ x, match x with inl n => KNum n | inr s => KStr s end) _).
  by intros [ n | s ].
Defined.

(** The key a value converts to; [None] when [store.get] and [store.put]
    throw a [DataError] ([undefined], [null], booleans, objects). *)
Definition toKey (v : option json) : option Key :=
  match v with
  | Some (JNum n) => Some (KNum n)
  | Some (JStr s) => Some (KStr s)
  | _ => None
  end.

(** One reading of the clock: [Date.now()] and
    [new Date().toISOString()]. *)
Record Now := { nowMs : Z; nowISO : string }.

(** [{ ..., k: v }] where [v] is a property read: a property set to
    [undefined] is not stored. *)
Definition withProp (k : string) (v : option json) (o : Entity) : Entity :=
  match v with
  | Some x => <[k := x]> o
  | None => o
  end.

(** The object literals of the [else] branches of [upsertFolder],
    [upsertNotebook] and [upsertNote], before the final [...data]. *)
Definition folderDefaults (now : Now) (data : Entity) : Entity :=
  withProp "id" (data !! "id")
    (<["name" := or_else (data !! "name") (JStr "新建文件夹")]>
    (<["parentId" := nullish (data !! "parentId") JNull]>
    (<["order" := or_else (data !! "order") (JNum (nowMs now))]>
    (<["createdAt" := or_else (data !! "createdAt") (JStr (nowISO now))]>
    (<["updatedAt" := or_else (data !! "updatedAt") (JStr (nowISO now))]> ∅))))).

Definition blankPageStyle : json :=
  JObj (<["pattern" := JStr "blank"]> (<["color" := JStr "#ffffff"]> ∅)).

Definition notebookDefaults (now : Now) (data : Entity) : Entity :=
  withProp "id" (data !! "id")
    (<["name" := or_else (data !! "name") (JStr "新建笔记本")]>
    (<["folderId" := nullish (data !! "folderId") JNull]>
    (<["order" := or_else (data !! "order") (JNum (nowMs now))]>
    (<["pageStyle" := or_else (data !! "pageStyle") blankPageStyle]>
    (<["createdAt" := or_else (data !! "createdAt") (JStr (nowISO now))]>
    (<["updatedAt" := or_else (data !! "updatedAt") (JStr (nowISO now))]> ∅)))))).

Definition noteDefaults (now : Now) (data : Entity) : Entity :=
  withProp "id" (data !! "id")
    (<["title" := or_else (data !! "title") (JStr "新建笔记")]>
    (<["type" := or_else (data !! "type") (JStr "text")]>
    (<["content" := or_else (data !! "content") (JStr "")]>
    (withProp "notebookId" (data !! "notebookId")
    (<["order" := or_else (data !! "order") (JNum (nowMs now))]>
    (<["createdAt" := or_else (data !! "createdAt") (JStr (nowISO now))]>
    (<["updatedAt" := or_else (data !! "updatedAt") (JStr (nowISO now))]> ∅))))))).

(** The common shape of the three upserts.  [getX(data.id)] throws on an
    invalid key ([None]).  On an existing record the stored object is
    [{ ...existing, ...data, updatedAt: data.updatedAt || now }]; otherwise
    it is [{ defaults, ...data }].  In a spread the later source wins, so
    [data ∪ existing] (the union prefers its left operand).  [store.put]
    files the object under its [id], which is [data.id]. *)
Definition upsertWith (defaults : Now → Entity → Entity)
    (now : Now) (data : Entity) (store : gmap Key Entity)
    : option (gmap Key Entity) :=
  match toKey (data !! "id") with
  | None => None
  | Some k =>
      match store !! k with
      | Some existing =>
          Some (<[k := <["updatedAt" := or_else (data !! "updatedAt") (JStr (nowISO now))]>
                         (data ∪ existing)]> store)
      | None => Some (<[k := data ∪ defaults now data]> store)
      end
  end.

Definition upsertFolder := upsertWith folderDefaults.
Definition upsertNotebook := upsertWith notebookDefaults.
Definition upsertNote := upsertWith noteDefaults.

Record DB := {
  folders : gmap Key Entity;
  notebooks : gmap Key Entity;
  notes : gmap Key Entity
}.

(** [getAllFolders()] and its siblings: every record of the store. *)
Definition getAll (store : gmap Key Entity) : list Entity := (map_to_list store).*2.

(** Every record of an object store is filed under its own [id]: what
    [keyPath: 'id'] makes IndexedDB guarantee of a store. *)
Definition wellKeyed (store : gmap Key Entity) : Prop :=
  ∀ k e, store !! k = Some e → toKey (e !! "id") = Some k.

End Store.

(* ===================================================================== *)
(** * ReconciliationEngine: [mergeRemoteData]                             *)
(* ===================================================================== *)

Module Merge.
Import Json Store.

(** The three collections, in the order in which they are merged. *)
Inductive Collection : Type := Folders | Notebooks | Notes.

Definition defaultsOf (c : Collection) : Now → Entity → Entity :=
  match c with
  | Folders => folderDefaults
  | Notebooks => notebookDefaults
  | Notes => noteDefaults
  end.

Definition upsertOf (c : Collection)
    : Now → Entity → gmap Key Entity → option (gmap Key Entity) :=
  match c with
  | Folders => upsertFolder
  | Notebooks => upsertNotebook
  | Notes => upsertNote
  end.

(** The payload of [sync_data] and [sync_ack]: three arrays of records,
    each possibly absent. *)
Record SyncData := {
  msg_notes : option (list Entity);
  msg_notebooks : option (list Entity);
  msg_folders : option (list Entity)
}.

Record MergedCount := { count_notes : nat; count_notebooks : nat; count_folders : nat }.

(** The state of one merge loop: the object store, the number of clock
    readings taken so far, and the running count. *)
Record Loop := { store : gmap Key Entity; tick : nat; merged : nat }.

(** The store of a collection. *)
Definition storeOf (c : Collection) (db : DB) : gmap Key Entity :=
  match c with
  | Folders => folders db
  | Notebooks => notebooks db
  | Notes => notes db
  end.

(** What [handleSyncRequest] and [handleSyncData] send of a database, as
    the peer reads it: the three arrays of all its records. *)
Definition snapshot (db : DB) : SyncData :=
  {| msg_notes := Some (getAll (notes db));
     msg_notebooks := Some (getAll (notebooks db));
     msg_folders := Some (getAll (folders db)) |}.

(** The later of two instants, either of which may be missing. *)
Definition latest (x y : option Z) : option Z :=
  match x, y with
  | Some a, Some b => Some (a `max` b)%Z
  | Some a, None => Some a
  | None, _ => y
  end.

Section WithDates.

(** [new Date(v).getTime()] for a value [v] that is a non-empty string,
    an array or an object, as the date parser of the engine decides;
    [None] stands for [NaN], the time value of an invalid date. *)
Variable Date_time : json → option Z.

(** The successive readings of the clock; every upsert takes one. *)
Variable clock : nat → Now.

Definition maxTime : Z := 8640000000000000.

(** The time value of [new Date(v)] where [v] is a property read. *)
Definition timeValue (v : option json) : option Z :=
  match v with
  | None => None
  | Some JNull => Some 0%Z
  | Some (JBool b) => Some (if b then 1 else 0)%Z
  | Some (JNum n) => if bool_decide (- maxTime ≤ n ≤ maxTime)%Z then Some n else None
  | Some (JStr "") => None
  | Some w => Date_time w
  end.

(** [new Date(a) > new Date(b)]: false as soon as one side is invalid. *)
Definition laterThan (a b : option json) : bool :=
  match timeValue a, timeValue b with
  | Some x, Some y => bool_decide (y < x)%Z
  | _, _ => false
  end.

(** The body of each of the three loops of [mergeRemoteData]:
    [[
      try {
        const local = await this.db.getX(remote.id);
        if (!local || new Date(remote.updatedAt) > new Date(local.updatedAt)) {
          await this.db.upsertX(remote);
          mergedCount.x++;
        }
      } catch (e) { console.warn(...) }
    ]]
    An exception leaves the store and the count as they were. *)
Definition mergeEntity (c : Collection) (st : Loop) (remote : Entity) : Loop :=
  match toKey (remote !! "id") with
  | None => st
  | Some k =>
      let wins :=
        match store st !! k with
        | None => true
        | Some local => laterThan (remote !! "updatedAt") (local !! "updatedAt")
        end in
      if wins then
        match upsertOf c (clock (tick st)) remote (store st) with
        | Some store' =>
            {| store := store'; tick := S (tick st); merged := S (merged st) |}
        | None => st
        end
      else st
  end.

(** [if (xs && xs.length > 0) { for (const x of xs) { ... } }]. *)
Definition mergeCollection (c : Collection) (remote : option (list Entity))
    (st : Loop) : Loop :=
  match remote with
  | Some xs => foldl (mergeEntity c) st xs
  | None => st
  end.

(** [mergeRemoteData(message)]: folders, then notebooks, then notes.
    The result is the database, the number of clock readings taken, and
    the counts returned to the caller. *)
Definition mergeRemoteData (message : SyncData) (db : DB) (ticks : nat)
    : DB * nat * MergedCount :=
  let f := mergeCollection Folders (msg_folders message)
             {| store := folders db; tick := ticks; merged := 0 |} in
  let nb := mergeCollection Notebooks (msg_notebooks message)
              {| store := notebooks db; tick := tick f; merged := 0 |} in
  let n := mergeCollection Notes (msg_notes message)
             {| store := notes db; tick := tick nb; merged := 0 |} in
  ({| folders := store f; notebooks := store nb; notes := store n |},
   tick n,
   {| count_notes := merged n; count_notebooks := merged nb; count_folders := merged f |}).

(** ** What one step of a merge loop does *)

(** Whether the remote record is written, given what the store holds
    under its key. *)
Definition wins (local : option Entity) (remote : Entity) : bool :=
  match local with
  | None => true
  | Some l => laterThan (remote !! "updatedAt") (l !! "updatedAt")
  end.

(** The record that the upsert files under the key. *)
Definition written (c : Collection) (now : Now) (local : option Entity)
    (remote : Entity) : Entity :=
  match local with
  | None => remote ∪ defaultsOf c now remote
  | Some l =>
      <["updatedAt" := or_else (remote !! "updatedAt") (JStr (nowISO now))]>
        (remote ∪ l)
  end.

(** The keys of the records of an array that have one. *)
Definition keysOf (remote : list Entity) : list Key :=
  omap (λ r, toKey (r !! "id")) remote.

(** A remote record is settled in a store when merging it would write
    nothing: it has no key, or the store holds a record under its key
    that it is not later than. *)
Definition settled (s : gmap Key Entity) (remote : Entity) : Prop :=
  match toKey (remote !! "id") with
  | None => True
  | Some k => ∃ l, s !! k = Some l ∧
                   laterThan (remote !! "updatedAt") (l !! "updatedAt") = false
  end.

(** The clock does not read a date before 1970. *)
Definition clockAfterEpoch : Prop :=
  ∀ i t, timeValue (Some (JStr (nowISO (clock i)))) = Some t → (0 ≤ t)%Z.

(** The remote record carries every field that the written record could
    otherwise take from elsewhere: from the defaults of the store when
    there is no local record, from the local record when there is one
    (and then its [updatedAt] must be truthy, or the clock is written
    instead). *)
Definition carriesAll (c : Collection) (now : Now) (local : option Entity)
    (remote : Entity) : Prop :=
  match local with
  | None => dom (defaultsOf c now remote) ⊆ dom remote
  | Some l =>
      dom l ⊆ dom remote ∧
      ∃ v, remote !! "updatedAt" = Some v ∧ truthy v = true
  end.

(** The instant at which the record under a key was last updated. *)
Definition instant (s : gmap Key Entity) (k : Key) : option Z :=
  e ← s !! k; timeValue (e !! "updatedAt").

(** Every record carries a truthy [updatedAt] that is a valid date. *)
Definition dated (s : gmap Key Entity) : Prop :=
  ∀ k e, s !! k = Some e →
    ∃ v t, e !! "updatedAt" = Some v ∧ truthy v = true ∧
           timeValue (Some v) = Some t.

Lemma upsertOf_upsertWith c : upsertOf c = upsertWith (defaultsOf c).
Proof. by destruct c. Qed.

Lemma mergeEntity_no_key c st remote :
  toKey (remote !! "id") = None → mergeEntity c st remote = st.
Proof. intros Hk. unfold mergeEntity. by rewrite Hk. Qed.

Lemma mergeEntity_key c st remote k :
  toKey (remote !! "id") = Some k →
  mergeEntity c st remote =
    if wins (store st !! k) remote
    then {| store := <[k := written c (clock (tick st)) (store st !! k) remote]> (store st);
            tick := S (tick st); merged := S (merged st) |}
    else st.
Proof.
  intros Hk. unfold mergeEntity, wins, written.
  rewrite Hk, upsertOf_upsertWith. unfold upsertWith. rewrite Hk.
  destruct (store st !! k) as [ l | ]; [ | done ].
  by destruct (laterThan _ _).
Qed.

Lemma mergeEntity_other c st remote k :
  toKey (remote !! "id") ≠ Some k →
  store (mergeEntity c st remote) !! k = store st !! k.
Proof.
  intros Hk. destruct (toKey (remote !! "id")) as [ k' | ] eqn:Hk'.
  - rewrite (mergeEntity_key _ _ _ k' Hk').
    destruct (wins _ _); [ | done ]. cbn. rewrite lookup_insert_ne; [ done | congruence ].
  - by rewrite mergeEntity_no_key.
Qed.

Lemma keysOf_cons r remote :
  keysOf (r :: remote) =
    match toKey (r !! "id") with
    | Some k => k :: keysOf remote
    | None => keysOf remote
    end.
Proof. reflexivity. Qed.

Lemma keysOf_app xs ys : keysOf (xs ++ ys) = keysOf xs ++ keysOf ys.
Proof.
  induction xs as [ | x xs IH ]; [ done | ].
  cbn [app]. rewrite !keysOf_cons, IH. by destruct (toKey _).
Qed.

Lemma foldl_mergeEntity_other c k : ∀ remote st,
  k ∉ keysOf remote →
  store (foldl (mergeEntity c) st remote) !! k = store st !! k.
Proof.
  induction remote as [ | r remote IH ]; intros st Hk; [ done | ].
  cbn [foldl]. rewrite keysOf_cons in Hk.
  destruct (toKey (r !! "id")) as [ k' | ] eqn:Hr.
  - apply not_elem_of_cons in Hk as [Hne Hk].
    rewrite IH by done. apply mergeEntity_other. congruence.
  - rewrite IH by done. apply mergeEntity_other. congruence.
Qed.

Lemma union_covered (r d : Entity) : dom d ⊆ dom r → r ∪ d = r.
Proof.
  intros Hdom. apply map_eq. intros f. rewrite lookup_union.
  destruct (r !! f) as [ v | ] eqn:Hr; [ by destruct (d !! f) | ].
  destruct (d !! f) as [ w | ] eqn:Hd; [ | done ].
  apply not_elem_of_dom in Hr. exfalso. apply Hr, Hdom. by apply elem_of_dom.
Qed.

(** When the written record is the remote one, field for field. *)
Lemma written_as_is c now local remote :
  match local with
  | None => dom (defaultsOf c now remote) ⊆ dom remote
  | Some l =>
      dom l ⊆ dom remote ∧
      ∃ v, remote !! "updatedAt" = Some v ∧ truthy v = true
  end →
  written c now local remote = remote.
Proof.
  destruct local as [ l | ]; cbn.
  - intros (Hdom & v & Hv & Htrue). rewrite union_covered by done.
    unfold or_else. rewrite Hv, Htrue. by apply insert_id.
  - apply union_covered.
Qed.

(** Every field of the remote record, [updatedAt] apart, is written with
    the remote value. *)
Lemma written_fields c now local remote f v :
  f ≠ "updatedAt" → remote !! f = Some v →
  written c now local remote !! f = Some v.
Proof.
  intros Hf Hv. destruct local as [ l | ]; cbn.
  - rewrite lookup_insert_ne by done. by apply lookup_union_Some_l.
  - by apply lookup_union_Some_l.
Qed.

Lemma laterThan_irrefl a : laterThan a a = false.
Proof.
  unfold laterThan. destruct (timeValue a); [ | done ].
  apply bool_decide_eq_false. lia.
Qed.

Lemma timeValue_falsy v t :
  truthy v = false → timeValue (Some v) = Some t → t = 0%Z.
Proof.
  destruct v as [ | [] | n | s | l | m ]; cbn; try done; try congruence.
  - intros Hn%negb_false_iff%Z.eqb_eq. subst n.
    case_bool_decide; congruence.
  - intros Hs%negb_false_iff%String.eqb_eq. by subst s.
Qed.

Lemma lookup_withProp_ne k v (o : Entity) f :
  k ≠ f → withProp k v o !! f = o !! f.
Proof. intros Hne. destruct v; [ by apply lookup_insert_ne | done ]. Qed.

Lemma defaultsOf_updatedAt c now remote :
  defaultsOf c now remote !! "updatedAt"
  = Some (or_else (remote !! "updatedAt") (JStr (nowISO now))).
Proof.
  destruct c; unfold defaultsOf, folderDefaults, notebookDefaults, noteDefaults;
    repeat first [ rewrite lookup_withProp_ne by done
                 | rewrite lookup_insert_ne by done ];
    apply lookup_insert_eq.
Qed.

Lemma written_updatedAt c now local remote :
  written c now local remote !! "updatedAt" =
    Some (match local, remote !! "updatedAt" with
          | None, Some v => v
          | _, _ => or_else (remote !! "updatedAt") (JStr (nowISO now))
          end).
Proof.
  destruct local as [ l | ]; cbn; [ by rewrite lookup_insert_eq | ].
  rewrite lookup_union.
  destruct (remote !! "updatedAt") as [ v | ] eqn:Hv.
  - by destruct (defaultsOf c now remote !! "updatedAt").
  - by rewrite defaultsOf_updatedAt, Hv.
Qed.

(** A record written over [local] because [incoming] was later is not
    earlier than anything [local] was not earlier than. *)
Lemma laterThan_written (Hclock : clockAfterEpoch) c i local incoming a :
  wins local incoming = true →
  match local with
  | None => a = incoming !! "updatedAt"
  | Some l => laterThan a (l !! "updatedAt") = false ∨ a = incoming !! "updatedAt"
  end →
  laterThan a (written c (clock i) local incoming !! "updatedAt") = false.
Proof.
  intros Hwins Ha. rewrite written_updatedAt.
  destruct local as [ l | ].
  - cbn in Hwins. unfold laterThan in *.
    destruct (timeValue (incoming !! "updatedAt")) as [ x' | ] eqn:Hx'; [ | done ].
    destruct (timeValue (l !! "updatedAt")) as [ y | ] eqn:Hy; [ | done ].
    apply bool_decide_eq_true in Hwins.
    destruct (incoming !! "updatedAt") as [ v | ] eqn:Hv; [ | done ].
    assert (match timeValue a with Some x => (x ≤ x')%Z | None => True end) as Hax.
    { destruct Ha as [ Ha | -> ].
      - destruct (timeValue a); [ | done ]. apply bool_decide_eq_false in Ha. lia.
      - rewrite Hx'. lia. }
    unfold or_else. destruct (truthy v) eqn:Htruthy.
    + rewrite Hx'. destruct (timeValue a); [ | done ].
      apply bool_decide_eq_false. lia.
    + pose proof (timeValue_falsy v x' Htruthy Hx') as ->.
      destruct (timeValue a) as [ x | ]; [ | done ].
      destruct (timeValue (Some (JStr (nowISO (clock i))))) as [ t | ] eqn:Ht; [ | done ].
      apply Hclock in Ht. apply bool_decide_eq_false. lia.
  - subst a. destruct (incoming !! "updatedAt") as [ v | ]; [ | done ].
    apply laterThan_irrefl.
Qed.

Lemma settled_after_merge (Hclock : clockAfterEpoch) c st remote :
  settled (store (mergeEntity c st remote)) remote.
Proof.
  unfold settled. destruct (toKey (remote !! "id")) as [ k | ] eqn:Hk; [ | done ].
  rewrite (mergeEntity_key _ _ _ k Hk).
  destruct (wins (store st !! k) remote) eqn:Hwins.
  - eexists. split; [ apply lookup_insert_eq | ].
    apply laterThan_written; [ done .. | ].
    destruct (store st !! k); [ by right | done ].
  - destruct (store st !! k) as [ l | ]; [ | done ]. by exists l.
Qed.

Lemma settled_preserved (Hclock : clockAfterEpoch) c st remote other :
  settled (store st) remote → settled (store (mergeEntity c st other)) remote.
Proof.
  unfold settled. destruct (toKey (remote !! "id")) as [ k | ] eqn:Hk; [ | done ].
  intros (l & Hl & Hnot).
  destruct (decide (toKey (other !! "id") = Some k)) as [ Hsame | Hother ].
  - rewrite (mergeEntity_key _ _ _ k Hsame), Hl.
    destruct (wins (Some l) other) eqn:Hwins; [ | by exists l ].
    eexists. split; [ apply lookup_insert_eq | ].
    apply laterThan_written; [ done .. | by left ].
  - exists l. by rewrite mergeEntity_other.
Qed.

Lemma mergeEntity_settled c st remote :
  settled (store st) remote → mergeEntity c st remote = st.
Proof.
  unfold settled. destruct (toKey (remote !! "id")) as [ k | ] eqn:Hk.
  - intros (l & Hl & Hnot). rewrite (mergeEntity_key _ _ _ k Hk), Hl. cbn. by rewrite Hnot.
  - intros _. by apply mergeEntity_no_key.
Qed.

Lemma foldl_settled_preserved (Hclock : clockAfterEpoch) c remote : ∀ others st,
  settled (store st) remote →
  settled (store (foldl (mergeEntity c) st others)) remote.
Proof.
  induction others as [ | o others IH ]; intros st Hst; [ done | ].
  cbn [foldl]. by apply IH, settled_preserved.
Qed.

Lemma foldl_settles (Hclock : clockAfterEpoch) c : ∀ remote st,
  Forall (settled (store (foldl (mergeEntity c) st remote))) remote.
Proof.
  induction remote as [ | r remote IH ]; intros st; [ done | ].
  cbn [foldl]. constructor; [ | apply IH ].
  by apply foldl_settled_preserved, settled_after_merge.
Qed.

Lemma foldl_settled_noop c : ∀ remote st,
  Forall (settled (store st)) remote → foldl (mergeEntity c) st remote = st.
Proof.
  induction remote as [ | r remote IH ]; intros st Hall; [ done | ].
  apply Forall_cons in Hall as [Hr Hall].
  cbn [foldl]. rewrite mergeEntity_settled by done. by apply IH.
Qed.

Lemma mergeCollection_again (Hclock : clockAfterEpoch) c remote st t :
  mergeCollection c remote
    {| store := store (mergeCollection c remote st); tick := t; merged := 0 |}
  = {| store := store (mergeCollection c remote st); tick := t; merged := 0 |}.
Proof.
  destruct remote as [ xs | ]; [ | done ]. cbn [mergeCollection].
  apply foldl_settled_noop. cbn [store]. by apply foldl_settles.
Qed.

(** ** The merge rule *)

(** C3, amended.  Merge an array of remote records with distinct ids
    into a collection, and let [r] be one of them, [local] what the store
    held under its id before.
    - If there is a local record and the remote timestamp is not strictly
      later (or one of the two is not a valid date), the local record is
      still there, unchanged.
    - Otherwise (no local record, or a strictly later remote timestamp)
      the store holds the remote record laid over the local one, or over
      the defaults of the store when there was none: every field of [r]
      but [updatedAt] has the remote value, and the stored record is [r]
      itself when [r] carries every field of what it is laid over. *)
Theorem merge_timestamp_rule c remote st r k :
  NoDup (keysOf remote) → r ∈ remote → toKey (r !! "id") = Some k →
  let st' := mergeCollection c (Some remote) st in
  let local := store st !! k in
  (wins local r = false → store st' !! k = local) ∧
  (wins local r = true →
     ∃ now stored,
       store st' !! k = Some stored ∧
       stored = written c now local r ∧
       (∀ f v, f ≠ "updatedAt" → r !! f = Some v → stored !! f = Some v) ∧
       (carriesAll c now local r → stored = r)).
Proof.
  intros Hnodup Hin Hk. cbn zeta. cbn [mergeCollection].
  apply list_elem_of_split in Hin as (pre & post & ->).
  rewrite keysOf_app, keysOf_cons, Hk in Hnodup.
  apply NoDup_app in Hnodup as (_ & Hpre & [Hpost _]%NoDup_cons).
  assert (k ∉ keysOf pre) as Hpre'.
  { intros Hin. apply (Hpre k Hin). left. }
  rewrite foldl_app. cbn [foldl].
  rewrite foldl_mergeEntity_other by done.
  rewrite (mergeEntity_key _ _ _ k Hk).
  rewrite (foldl_mergeEntity_other c k pre st Hpre').
  destruct (wins (store st !! k) r) eqn:Hwins.
  - split; [ done | ]. intros _. cbn [store].
    eexists _, _. split; [ apply lookup_insert_eq | ].
    split; [ done | split ].
    + intros f v. apply written_fields.
    + apply written_as_is.
  - split; [ | done ]. intros _. by apply foldl_mergeEntity_other.
Qed.

(** C4.  With a clock that does not read a date before 1970, merging the
    same snapshot a second time leaves the three object stores as the
    first merge left them, takes no clock reading, and returns the counts
    0, 0, 0. *)
Theorem merge_idempotent message db ticks :
  clockAfterEpoch →
  let '(db1, ticks1, _) := mergeRemoteData message db ticks in
  mergeRemoteData message db1 ticks1
  = (db1, ticks1, {| count_notes := 0; count_notebooks := 0; count_folders := 0 |}).
Proof.
  intros Hclock. unfold mergeRemoteData. cbn [folders notebooks notes].
  by rewrite !mergeCollection_again.
Qed.

(** C10.  A remote record whose [updatedAt] is a string that is not a
    valid date, merged into any of the three collections: when the store
    holds a record under its id, nothing changes (store, count); when it
    holds none, the record is filed under its id, every one of its fields
    as it is, and counted. *)
Theorem invalid_date_never_overwrites c st r k s :
  toKey (r !! "id") = Some k →
  r !! "updatedAt" = Some (JStr s) →
  timeValue (Some (JStr s)) = None →
  (is_Some (store st !! k) → mergeEntity c st r = st) ∧
  (store st !! k = None →
     ∃ stored,
       store (mergeEntity c st r) = <[k := stored]> (store st) ∧
       r ⊆ stored ∧
       merged (mergeEntity c st r) = S (merged st)).
Proof.
  intros Hk Hupdated Hinvalid. rewrite (mergeEntity_key _ _ _ k Hk). split.
  - intros [l Hl]. rewrite Hl. cbn [wins]. unfold laterThan.
    by rewrite Hupdated, Hinvalid.
  - intros Hnone. rewrite Hnone. cbn [wins written store merged].
    eexists. split; [ done | ]. split; [ | done ].
    apply map_union_subseteq_l.
Qed.

(** ** What a merge never does *)

Lemma written_dom c now local remote :
  dom remote ⊆ dom (written c now local remote) ∧
  match local with
  | Some l => dom l ⊆ dom (written c now local remote)
  | None => True
  end.
Proof.
  destruct local as [ l | ]; cbn [written].
  - rewrite dom_insert, dom_union. set_solver.
  - rewrite dom_union. set_solver.
Qed.

Lemma written_id c now local remote k :
  toKey (remote !! "id") = Some k →
  toKey (written c now local remote !! "id") = Some k.
Proof.
  intros Hk.
  destruct (remote !! "id") as [ v | ] eqn:Hv; [ | done ].
  by rewrite (written_fields c now local remote "id" v).
Qed.

Lemma mergeEntity_grows c st remote k l :
  store st !! k = Some l →
  ∃ l', store (mergeEntity c st remote) !! k = Some l' ∧ dom l ⊆ dom l'.
Proof.
  intros Hl. destruct (toKey (remote !! "id")) as [ k' | ] eqn:Hk.
  - rewrite (mergeEntity_key _ _ _ k' Hk).
    destruct (wins _ _); [ | by exists l ]. cbn [store].
    destruct (decide (k' = k)) as [ -> | Hne ].
    + rewrite lookup_insert_eq, Hl. eexists. split; [ done | ].
      apply (written_dom c _ (Some l) remote).
    + rewrite lookup_insert_ne by done. by exists l.
  - rewrite mergeEntity_no_key by done. by exists l.
Qed.

Lemma foldl_mergeEntity_grows c : ∀ remote st k l,
  store st !! k = Some l →
  ∃ l', store (foldl (mergeEntity c) st remote) !! k = Some l' ∧ dom l ⊆ dom l'.
Proof.
  induction remote as [ | r remote IH ]; intros st k l Hl; [ by exists l | ].
  cbn [foldl].
  destruct (mergeEntity_grows c st r k l Hl) as (l1 & Hl1 & Hdom1).
  destruct (IH _ k l1 Hl1) as (l' & Hl' & Hdom').
  exists l'. split; [ done | set_solver ].
Qed.

Lemma mergeEntity_present c st remote k :
  toKey (remote !! "id") = Some k →
  is_Some (store (mergeEntity c st remote) !! k).
Proof.
  intros Hk. rewrite (mergeEntity_key _ _ _ k Hk).
  destruct (wins _ _) eqn:Hwins; cbn [store].
  - rewrite lookup_insert_eq. by eexists.
  - unfold wins in Hwins. by destruct (store st !! k).
Qed.

Lemma mergeEntity_wellKeyed c st remote :
  wellKeyed (store st) → wellKeyed (store (mergeEntity c st remote)).
Proof.
  intros Hwk. destruct (toKey (remote !! "id")) as [ k' | ] eqn:Hk.
  - rewrite (mergeEntity_key _ _ _ k' Hk).
    destruct (wins _ _); [ | done ]. cbn [store].
    intros k e. destruct (decide (k' = k)) as [ -> | Hne ].
    + rewrite lookup_insert_eq. intros [= <-]. by apply written_id.
    + rewrite lookup_insert_ne by done. apply Hwk.
  - by rewrite mergeEntity_no_key.
Qed.

Lemma foldl_mergeEntity_wellKeyed c : ∀ remote st,
  wellKeyed (store st) → wellKeyed (store (foldl (mergeEntity c) st remote)).
Proof.
  induction remote as [ | r remote IH ]; intros st Hwk; [ done | ].
  cbn [foldl]. by apply IH, mergeEntity_wellKeyed.
Qed.

(** X6.  Merging an array of remote records into a collection never
    deletes anything.  A record that was in the store is still there, with
    at least the fields it had (a remote record that wins is laid over it,
    field by field); a record whose id no remote record carries is left
    exactly as it was; every remote record with a valid id is in the store
    afterwards; and every record is still filed under its own id. *)
Theorem merge_never_deletes c remote st :
  let st' := mergeCollection c (Some remote) st in
  (∀ k l, store st !! k = Some l →
          ∃ l', store st' !! k = Some l' ∧ dom l ⊆ dom l') ∧
  (∀ k, k ∉ keysOf remote → store st' !! k = store st !! k) ∧
  (∀ r k, r ∈ remote → toKey (r !! "id") = Some k → is_Some (store st' !! k)) ∧
  (wellKeyed (store st) → wellKeyed (store st')).
Proof.
  cbn zeta. cbn [mergeCollection]. split; [ | split; [ | split ] ].
  - intros k l. apply foldl_mergeEntity_grows.
  - intros k. apply foldl_mergeEntity_other.
  - intros r k Hin Hk. apply list_elem_of_split in Hin as (pre & post & ->).
    rewrite foldl_app. cbn [foldl].
    destruct (mergeEntity_present c (foldl (mergeEntity c) st pre) r k Hk)
      as [l Hl].
    destruct (foldl_mergeEntity_grows c post _ k l Hl) as (l' & Hl' & _). by exists l'.
  - apply foldl_mergeEntity_wellKeyed.
Qed.

(** ** The counts *)





(** ** A complete exchange between two peers *)

Lemma keysOf_pairs (l : list (Key * Entity)) :
  Forall (λ p, toKey (p.2 !! "id") = Some p.1) l → keysOf l.*2 = l.*1.
Proof.
  induction l as [ | [k e] l IH ]; intros Hall; [ done | ].
  apply Forall_cons in Hall as [Hk Hall]. rewrite !fmap_cons, keysOf_cons.
  cbn [fst snd] in *. by rewrite Hk, IH.
Qed.

Lemma foldl_mergeEntity_at c r k : ∀ pre post st,
  toKey (r !! "id") = Some k → k ∉ keysOf pre → k ∉ keysOf post →
  ∃ now,
    store (foldl (mergeEntity c) st (pre ++ r :: post)) !! k
    = if wins (store st !! k) r
      then Some (written c now (store st !! k) r)
      else store st !! k.
Proof.
  intros pre post st Hk Hpre Hpost.
  rewrite foldl_app. cbn [foldl].
  rewrite foldl_mergeEntity_other by done.
  rewrite (mergeEntity_key _ _ _ k Hk).
  rewrite (foldl_mergeEntity_other c k pre st Hpre).
  destruct (wins _ _).
  - eexists. cbn [store]. by rewrite lookup_insert_eq.
  - exists (clock 0). by apply foldl_mergeEntity_other.
Qed.

Lemma merge_snapshot_lookup c (b : gmap Key Entity) st k :
  wellKeyed b →
  ∃ now,
    store (mergeCollection c (Some (getAll b)) st) !! k
    = match b !! k with
      | Some r =>
          if wins (store st !! k) r
          then Some (written c now (store st !! k) r)
          else store st !! k
      | None => store st !! k
      end.
Proof.
  intros Hwk. cbn [mergeCollection]. unfold getAll.
  assert (Forall (λ p : Key * Entity, toKey (p.2 !! "id") = Some p.1) (map_to_list b))
    as Hall.
  { apply Forall_forall. intros [k' e] Hin%elem_of_map_to_list. by apply Hwk. }
  pose proof (NoDup_fst_map_to_list b) as Hnodup.
  destruct (b !! k) as [ r | ] eqn:Hr.
  - assert ((k, r) ∈ map_to_list b) as Hin by (by apply elem_of_map_to_list).
    apply list_elem_of_split in Hin as (pre & post & Hsplit).
    rewrite Hsplit in *. clear Hsplit.
    apply Forall_app in Hall as [Hpre [_ Hpost]%Forall_cons].
    rewrite fmap_app, fmap_cons in Hnodup. cbn [fst] in Hnodup.
    apply NoDup_app in Hnodup as (_ & Hdisj & [Hnotin _]%NoDup_cons).
    rewrite fmap_app, fmap_cons. cbn [snd].
    apply foldl_mergeEntity_at; [ by apply Hwk | | ].
    + rewrite keysOf_pairs by done. intros Hin. apply (Hdisj k Hin). left.
    + by rewrite keysOf_pairs.
  - exists (clock 0). apply foldl_mergeEntity_other.
    rewrite keysOf_pairs by done. intros Hin.
    apply list_elem_of_fmap in Hin as ([k' e] & -> & Hin).
    apply elem_of_map_to_list in Hin. cbn in Hr. congruence.
Qed.

Lemma instant_written c now local r v t :
  r !! "updatedAt" = Some v → truthy v = true →
  timeValue (Some v) = Some t →
  written c now local r !! "updatedAt" = Some v.
Proof.
  intros Hv Htrue Ht. rewrite written_updatedAt, Hv.
  destruct local; [ | done ]. unfold or_else. by rewrite Htrue.
Qed.

(** Merging the snapshot of a store [b] into a store [a], key by key. *)
Lemma merge_snapshot_instant c (a b : gmap Key Entity) t0 m0 :
  wellKeyed b → dated a → dated b →
  let a' := store (mergeCollection c (Some (getAll b))
                     {| store := a; tick := t0; merged := m0 |}) in
  dated a' ∧ ∀ k, instant a' k = latest (instant a k) (instant b k).
Proof.
  intros Hwk Ha Hb. cbn zeta.
  assert (∀ k, ∃ now,
            store (mergeCollection c (Some (getAll b))
                     {| store := a; tick := t0; merged := m0 |}) !! k
            = match b !! k with
              | Some r =>
                  if wins (a !! k) r
                  then Some (written c now (a !! k) r)
                  else a !! k
              | None => a !! k
              end) as Hlookup.
  { intros k. by apply (merge_snapshot_lookup c b {| store := a; tick := t0; merged := m0 |} k). }
  split.
  - intros k e. destruct (Hlookup k) as [now ->].
    destruct (b !! k) as [ r | ] eqn:Hr; [ | apply Ha ].
    destruct (wins _ _); [ | apply Ha ].
    intros [= <-]. destruct (Hb k r Hr) as (v & t & Hv & Htrue & Ht).
    exists v, t. split; [ | done ]. by eapply instant_written.
  - intros k. unfold instant. destruct (Hlookup k) as [now ->].
    destruct (b !! k) as [ r | ] eqn:Hr; cbn [mbind option_bind].
    + destruct (Hb k r Hr) as (v & t & Hv & Htrue & Ht).
      destruct (a !! k) as [ l | ] eqn:Hl; cbn [wins mbind option_bind].
      * destruct (Ha k l Hl) as (w & u & Hw & _ & Hu).
        unfold laterThan. rewrite Hv, Hw, Ht, Hu.
        case_bool_decide; cbn [mbind option_bind latest].
        -- rewrite (instant_written c now (Some l) r v t) by done.
           rewrite Ht. f_equal. lia.
        -- rewrite Hw, Hu. f_equal. lia.
      * rewrite (instant_written c now None r v t) by done.
        by rewrite Hv, Ht.
    + by destruct (a !! k ≫= _).
Qed.

Lemma storeOf_mergeRemoteData c message db ticks :
  ∃ t0,
    storeOf c (mergeRemoteData message db ticks).1.1
    = store (mergeCollection c
               (match c with
                | Folders => msg_folders message
                | Notebooks => msg_notebooks message
                | Notes => msg_notes message
                end)
               {| store := storeOf c db; tick := t0; merged := 0 |}).
Proof. unfold mergeRemoteData. destruct c; cbn [storeOf fst folders notebooks notes]; by eexists. Qed.

Lemma instant_present (s : gmap Key Entity) k :
  dated s → (is_Some (s !! k) ↔ is_Some (instant s k)).
Proof.
  intros Hs. unfold instant. destruct (s !! k) as [ e | ] eqn:He; cbn.
  - destruct (Hs k e He) as (v & t & Hv & _ & Ht). rewrite Hv, Ht. split; by eexists.
  - split; intros [? ?]; done.
Qed.

(** X8.  One complete exchange: peer A merges the snapshot of peer
    B ([sync_data]), then B merges the snapshot that A sends back
    ([sync_ack]).  If on both sides every record is filed under its id and
    carries a valid [updatedAt], then afterwards, in each collection, both
    sides hold records under the same ids, and the two records under an id
    were last updated at the same instant: the later of the two instants
    held before the exchange (the only one, where only one side had the
    record). *)
Theorem sync_round_agrees dbA dbB tA tB :
  (∀ c, wellKeyed (storeOf c dbA)) → (∀ c, wellKeyed (storeOf c dbB)) →
  (∀ c, dated (storeOf c dbA)) → (∀ c, dated (storeOf c dbB)) →
  let dbA' := (mergeRemoteData (snapshot dbB) dbA tA).1.1 in
  let dbB' := (mergeRemoteData (snapshot dbA') dbB tB).1.1 in
  ∀ c k,
    instant (storeOf c dbA') k
      = latest (instant (storeOf c dbA) k) (instant (storeOf c dbB) k) ∧
    instant (storeOf c dbB') k = instant (storeOf c dbA') k ∧
    (is_Some (storeOf c dbA' !! k) ↔ is_Some (storeOf c dbB' !! k)).
Proof.
  intros HkA HkB HdA HdB. cbn zeta. intros c k.
  destruct (storeOf_mergeRemoteData c (snapshot dbB) dbA tA) as [t1 HA'].
  set (dbA' := (mergeRemoteData (snapshot dbB) dbA tA).1.1) in *.
  destruct (storeOf_mergeRemoteData c (snapshot dbA') dbB tB) as [t2 HB'].
  set (dbB' := (mergeRemoteData (snapshot dbA') dbB tB).1.1) in *.
  assert (match c with
          | Folders => msg_folders (snapshot dbB)
          | Notebooks => msg_notebooks (snapshot dbB)
          | Notes => msg_notes (snapshot dbB)
          end = Some (getAll (storeOf c dbB))) as HmsgB by (by destruct c).
  assert (match c with
          | Folders => msg_folders (snapshot dbA')
          | Notebooks => msg_notebooks (snapshot dbA')
          | Notes => msg_notes (snapshot dbA')
          end = Some (getAll (storeOf c dbA'))) as HmsgA by (by destruct c).
  rewrite HmsgB in HA'. rewrite HmsgA in HB'.
  destruct (merge_snapshot_instant c (storeOf c dbA) (storeOf c dbB) t1 0
              (HkB c) (HdA c) (HdB c)) as [HdA' HiA'].
  rewrite <- HA' in HdA', HiA'.
  assert (wellKeyed (storeOf c dbA')) as HkA'.
  { rewrite HA'. cbn [mergeCollection]. apply foldl_mergeEntity_wellKeyed, HkA. }
  destruct (merge_snapshot_instant c (storeOf c dbB) (storeOf c dbA') t2 0
              HkA' (HdB c) HdA') as [HdB' HiB'].
  rewrite <- HB' in HdB', HiB'.
  assert (instant (storeOf c dbB') k = instant (storeOf c dbA') k) as Hsame.
  { rewrite HiB', HiA'.
    destruct (instant (storeOf c dbA) k), (instant (storeOf c dbB) k);
      cbn [latest]; f_equal; lia. }
  split; [ apply HiA' | ]. split; [ exact Hsame | ].
  by rewrite !instant_present, Hsame.
Qed.

End WithDates.

(** ** Sample data *)

(** A date parser that knows four dates. *)
Definition sampleDates (v : json) : option Z :=
  match v with
  | JStr s =>
      if String.eqb s "2026-01-01T00:00:00Z" then Some 1767225600000%Z
      else if String.eqb s "2026-01-15T00:00:00Z" then Some 1768435200000%Z
      else if String.eqb s "2026-02-01T00:00:00Z" then Some 1769904000000%Z
      else if String.eqb s "2026-03-01T00:00:00.000Z" then Some 1772323200000%Z
      else None
  | _ => None
  end.

Definition sampleClock (i : nat) : Now :=
  {| nowMs := 1772323200000 + Z.of_nat i; nowISO := "2026-03-01T00:00:00.000Z" |}.

Lemma sampleClock_after_epoch : clockAfterEpoch sampleDates sampleClock.
Proof. intros i t. vm_compute. intros [= <-]. done. Qed.

Definition emptyDB : DB := {| folders := ∅; notebooks := ∅; notes := ∅ |}.

Definition entity (fields : list (string * json)) : Entity := list_to_map fields.

Definition folderF1 (name updatedAt : string) : Entity :=
  entity [("id", JStr "F1"); ("name", JStr name); ("updatedAt", JStr updatedAt)].

Definition onlyFolders (xs : list Entity) : SyncData :=
  {| msg_notes := None; msg_notebooks := None; msg_folders := Some xs |}.

Definition onlyNotes (xs : list Entity) : SyncData :=
  {| msg_notes := Some xs; msg_notebooks := None; msg_folders := None |}.

(** The first scenario of the specification: a folder the local store
    does not have is inserted and counted. *)
Example scenario_insert_folder :
  let '(db', _, counts) :=
    mergeRemoteData sampleDates sampleClock
      (onlyFolders [folderF1 "Work" "2026-01-01T00:00:00Z"]) emptyDB 0 in
  (r ← folders db' !! KStr "F1"; r !! "updatedAt") = Some (JStr "2026-01-01T00:00:00Z") ∧
  count_folders counts = 1.
Proof. vm_compute. done. Qed.

(** The second scenario: an older remote note leaves the local note as
    it is and is not counted. *)
Example scenario_older_note :
  let n1 t := entity [("id", JStr "N1"); ("title", JStr "n"); ("updatedAt", JStr t)] in
  let db := {| folders := ∅; notebooks := ∅;
               notes := {[ KStr "N1" := n1 "2026-02-01T00:00:00Z" ]} |} in
  let '(db', _, counts) :=
    mergeRemoteData sampleDates sampleClock
      (onlyNotes [n1 "2026-01-15T00:00:00Z"]) db 0 in
  db' = db ∧ count_notes counts = 0.
Proof. vm_compute. done. Qed.

(** C3, as stated, fails in both of its equalities.  A later remote
    folder without the field [color] overwrites a local folder that has
    it, and the stored folder keeps the local [color]; a remote folder
    without a name, inserted where there was none, is stored with the
    default name, order and creation date. *)
Lemma merge_result_differs_from_remote :
  let local := <["color" := JStr "red"]> (folderF1 "Old" "2026-01-01T00:00:00Z") in
  let remote := folderF1 "New" "2026-02-01T00:00:00Z" in
  let db := {| folders := {[ KStr "F1" := local ]}; notebooks := ∅; notes := ∅ |} in
  let bare := entity [("id", JStr "F2"); ("updatedAt", JStr "2026-02-01T00:00:00Z")] in
  laterThan sampleDates (remote !! "updatedAt") (local !! "updatedAt") = true ∧
  folders (mergeRemoteData sampleDates sampleClock (onlyFolders [remote]) db 0).1.1
    !! KStr "F1" = Some (<["color" := JStr "red"]> remote) ∧
  <["color" := JStr "red"]> remote ≠ remote ∧
  (r ← folders (mergeRemoteData sampleDates sampleClock (onlyFolders [bare]) emptyDB 0).1.1
         !! KStr "F2"; r !! "name") = Some (JStr "新建文件夹") ∧
  bare !! "name" = None.
Proof.
  repeat split; try (vm_compute; reflexivity).
  intros Heq. apply (f_equal (lookup "color")) in Heq. vm_compute in Heq. discriminate.
Qed.

Lemma merge_timestamp_rule_witness :
  let local := folderF1 "Old" "2026-01-01T00:00:00Z" in
  let remote := folderF1 "New" "2026-02-01T00:00:00Z" in
  let st := {| store := {[ KStr "F1" := local ]}; tick := 0; merged := 0 |} in
  NoDup (keysOf [remote]) ∧ remote ∈ [remote] ∧
  toKey (remote !! "id") = Some (KStr "F1") ∧
  let st' := mergeCollection sampleDates sampleClock Folders (Some [remote]) st in
  let local := store st !! KStr "F1" in
  (wins sampleDates local remote = false → store st' !! KStr "F1" = local) ∧
  (wins sampleDates local remote = true →
     ∃ now stored,
       store st' !! KStr "F1" = Some stored ∧
       stored = written Folders now local remote ∧
       (∀ f v, f ≠ "updatedAt" → remote !! f = Some v → stored !! f = Some v) ∧
       (carriesAll Folders now local remote → stored = remote)).
Proof.
  assert (NoDup (keysOf [folderF1 "New" "2026-02-01T00:00:00Z"])) as Hnodup.
  { vm_compute. apply NoDup_cons. split; [ apply not_elem_of_nil | apply NoDup_nil; done ]. }
  cbn zeta. split; [ exact Hnodup | ]. split; [ apply list_elem_of_here | ].
  split; [ reflexivity | ].
  apply (merge_timestamp_rule sampleDates sampleClock Folders
           [folderF1 "New" "2026-02-01T00:00:00Z"]
           {| store := {[ KStr "F1" := folderF1 "Old" "2026-01-01T00:00:00Z" ]};
              tick := 0; merged := 0 |}
           (folderF1 "New" "2026-02-01T00:00:00Z") (KStr "F1")).
  - exact Hnodup.
  - apply list_elem_of_here.
  - reflexivity.
Defined.

Lemma merge_idempotent_witness :
  let message := onlyFolders [folderF1 "Work" "2026-01-01T00:00:00Z"] in
  let '(db1, ticks1, _) := mergeRemoteData sampleDates sampleClock message emptyDB 0 in
  mergeRemoteData sampleDates sampleClock message db1 ticks1
  = (db1, ticks1, {| count_notes := 0; count_notebooks := 0; count_folders := 0 |}).
Proof.
  exact (merge_idempotent sampleDates sampleClock
           (onlyFolders [folderF1 "Work" "2026-01-01T00:00:00Z"]) emptyDB 0
           sampleClock_after_epoch).
Defined.

Lemma invalid_date_never_overwrites_witness :
  let r := folderF1 "Work" "yesterday" in
  let st := {| store := ∅; tick := 0; merged := 0 |} in
  (is_Some (store st !! KStr "F1") →
     mergeEntity sampleDates sampleClock Notes st r = st) ∧
  (store st !! KStr "F1" = None →
     ∃ stored,
       store (mergeEntity sampleDates sampleClock Notes st r) = <[KStr "F1" := stored]> (store st) ∧
       r ⊆ stored ∧
       merged (mergeEntity sampleDates sampleClock Notes st r) = S (merged st)).
Proof.
  apply (invalid_date_never_overwrites sampleDates sampleClock Notes
           {| store := ∅; tick := 0; merged := 0 |}
           (folderF1 "Work" "yesterday") (KStr "F1") "yesterday");
    reflexivity.
Defined.

Lemma wellKeyed_singleton k (e : Entity) :
  toKey (e !! "id") = Some k → wellKeyed {[ k := e ]}.
Proof. intros Hk k' e' [<- <-]%lookup_singleton_Some. done. Qed.

Lemma dated_singleton Date_time k (e : Entity) v t :
  e !! "updatedAt" = Some v → truthy v = true → timeValue Date_time (Some v) = Some t →
  dated Date_time {[ k := e ]}.
Proof. intros Hv Htrue Ht k' e' [<- <-]%lookup_singleton_Some. by exists v, t. Qed.

Lemma sync_round_agrees_witness :
  let dbA := {| folders := {[ KStr "F1" := folderF1 "Old" "2026-01-01T00:00:00Z" ]};
                notebooks := ∅; notes := ∅ |} in
  let dbB := {| folders := {[ KStr "F1" := folderF1 "New" "2026-02-01T00:00:00Z" ]};
                notebooks := ∅; notes := ∅ |} in
  (∀ c, wellKeyed (storeOf c dbA)) ∧ (∀ c, wellKeyed (storeOf c dbB)) ∧
  (∀ c, dated sampleDates (storeOf c dbA)) ∧ (∀ c, dated sampleDates (storeOf c dbB)) ∧
  let dbA' := (mergeRemoteData sampleDates sampleClock (snapshot dbB) dbA 0).1.1 in
  let dbB' := (mergeRemoteData sampleDates sampleClock (snapshot dbA') dbB 0).1.1 in
  ∀ c k,
    instant sampleDates (storeOf c dbA') k
      = latest (instant sampleDates (storeOf c dbA) k) (instant sampleDates (storeOf c dbB) k) ∧
    instant sampleDates (storeOf c dbB') k = instant sampleDates (storeOf c dbA') k ∧
    (is_Some (storeOf c dbA' !! k) ↔ is_Some (storeOf c dbB' !! k)).
Proof.
  assert (∀ name t c,
            wellKeyed (storeOf c {| folders := {[ KStr "F1" := folderF1 name t ]};
                                    notebooks := ∅; notes := ∅ |})) as Hkeyed.
  { intros name t [ | | ]; cbn [storeOf folders notebooks notes]; try done.
    by apply wellKeyed_singleton. }
  assert (∀ name t u c,
            sampleDates (JStr t) = Some u → t ≠ "" →
            dated sampleDates (storeOf c {| folders := {[ KStr "F1" := folderF1 name t ]};
                                            notebooks := ∅; notes := ∅ |})) as Hdated.
  { intros name t u [ | | ] Hu Ht; cbn [storeOf folders notebooks notes]; try done.
    apply (dated_singleton _ _ _ (JStr t) u); [ done | | ].
    - cbn. by apply negb_true_iff, String.eqb_neq.
    - cbn. by destruct t. }
  cbn zeta.
  split; [ apply Hkeyed | ]. split; [ apply Hkeyed | ].
  split; [ intros c; by eapply Hdated | ]. split; [ intros c; by eapply Hdated | ].
  apply (sync_round_agrees sampleDates sampleClock).
  - apply Hkeyed.
  - apply Hkeyed.
  - intros c. by eapply Hdated.
  - intros c. by eapply Hdated.
Defined.

End Merge.

(* ===================================================================== *)
(** * ChunkedChannel: [sendMessage] and the message listener              *)
(* ===================================================================== *)

Module Channel.
Import Json Fragments.

Inductive ReadyState : Type := Connecting | Open | Closing | Closed.

#[global] Instance ReadyState_eq_dec : EqDecision ReadyState.
Proof. solve_decision. Defined.

(** What a data channel shows of itself. *)
Record DataChannel := { readyState : ReadyState; bufferedAmount : nat }.

(** A frame on the wire, read the way the listener reads it: the JSON
    text of a chunk envelope
    [{ type: '__chunk__', chunkId, index, total, data }], or any other
    text, which is handed on as it is. *)
Inductive Frame : Type :=
  | ChunkFrame (chunkId : string) (index total : nat) (data : string)
  | DataFrame (data : string).

(** The fields of the manager that [sendMessage] uses, and the frames
    handed to [channel.send] so far, in order. *)
Record Link := {
  currentDataChannel : option DataChannel;
  sendQueue : list string;
  sent : list Frame
}.

(** [const MAX_CHUNK_SIZE = 16384] and the high-water mark [65536]. *)
Definition MAX_CHUNK_SIZE : nat := 16 * 1024.
Definition HIGH_WATER : nat := 64 * 1024.

(** [Math.ceil(a / b)] for a positive [b]. *)
Definition ceilDiv (a b : nat) : nat :=
  if a mod b =? 0 then a / b else S (a / b).

Definition digit36 (d : N) : ascii :=
  if (d <? 10)%N then ascii_of_N (48 + d) else ascii_of_N (87 + d).

Fixpoint toString36_digits (fuel : nat) (n : N) (acc : string) : string :=
  match fuel with
  | 0 => acc
  | S fuel' =>
      let acc' := String (digit36 (n mod 36)) acc in
      if (n / 36 =? 0)%N then acc' else toString36_digits fuel' (n / 36)%N acc'
  end.

(** [n.toString(36)] for a non-negative integer. *)
Definition toString36 (n : N) : string :=
  toString36_digits (S (N.size_nat n)) n "".

Inductive SendError : Type :=
  | NoChannel            (* 数据通道未建立 *)
  | ClosedDuringSend     (* 数据通道在发送过程中关闭 *)
  | NotReady (state : ReadyState).   (* 数据通道未就绪 *)

Inductive SendOutcome : Type :=
  | Sent                 (* resolves to true *)
  | Queued               (* resolves to false *)
  | Failed (e : SendError)
  | StillWaiting.        (* the fuel ran out inside the drain loop *)

(** A message given to [sendMessage]: a string, or a value to be
    serialized. *)
Inductive Payload : Type := Text (s : string) | Value (v : json).

Section WithChannel.

(** [JSON.stringify]. *)
Variable JSON_stringify : json → string.

(** The number of bytes by which [channel.send(frame)] raises
    [bufferedAmount]. *)
Variable frameBytes : Frame → nat.

(** The channel as it shows itself after a timeout of 50 ms: the browser
    may have transmitted buffered bytes, the channel may have closed. *)
Variable afterTimeout : DataChannel → DataChannel.

Definition serialize (payload : Payload) : string :=
  match payload with
  | Text s => s
  | Value v => JSON_stringify v
  end.

(** [channel.send(frame)]. *)
Definition channelSend (frame : Frame) (channel : DataChannel) : DataChannel :=
  {| readyState := readyState channel;
     bufferedAmount := bufferedAmount channel + frameBytes frame |}.

(** The drain loop,
    [[
      while (channel.bufferedAmount > 65536) {
        await new Promise(r => setTimeout(r, 50));
        if (channel.readyState !== 'open') throw new Error(...);
      }
    ]]
    for at most [fuel] tests of its condition: the channel as the loop
    leaves it, with the error if it threw; [None] when the fuel runs
    out. *)
Fixpoint drain (fuel : nat) (channel : DataChannel)
    : option (DataChannel * option SendError) :=
  match fuel with
  | 0 => None
  | S fuel' =>
      if HIGH_WATER <? bufferedAmount channel then
        let channel' := afterTimeout channel in
        if decide (readyState channel' = Open) then drain fuel' channel'
        else Some (channel', Some ClosedDuringSend)
      else Some (channel, None)
  end.

(** The chunk loop [for (let i = 0; i < totalChunks; i++)], from index
    [i] with [remaining = totalChunks - i] chunks to go. *)
Fixpoint sendChunks (fuel : nat) (data chunkId : string) (totalChunks : nat)
    (remaining i : nat) (channel : DataChannel) (frames : list Frame)
    : DataChannel * list Frame * SendOutcome :=
  match remaining with
  | 0 => (channel, frames, Sent)
  | S remaining' =>
      let chunk := slice data (i * MAX_CHUNK_SIZE) ((i + 1) * MAX_CHUNK_SIZE) in
      let wrapper := ChunkFrame chunkId i totalChunks chunk in
      match drain fuel channel with
      | None => (channel, frames, StillWaiting)
      | Some (channel', Some e) => (channel', frames, Failed e)
      | Some (channel', None) =>
          sendChunks fuel data chunkId totalChunks remaining' (S i)
            (channelSend wrapper channel') (frames ++ [wrapper])
      end
  end.

(** [sendMessage(payload, { queueIfConnecting })] at clock reading
    [now] (the value of [Date.now()]). *)
Definition sendMessage (fuel : nat) (now : N) (payload : Payload)
    (queueIfConnecting : bool) (link : Link) : Link * SendOutcome :=
  match currentDataChannel link with
  | None => (link, Failed NoChannel)
  | Some channel =>
      let data := serialize payload in
      match readyState channel with
      | Open =>
          if MAX_CHUNK_SIZE <? String.length data then
            let totalChunks := ceilDiv (String.length data) MAX_CHUNK_SIZE in
            let chunkId := toString36 now in
            let '(channel', frames, outcome) :=
              sendChunks fuel data chunkId totalChunks totalChunks 0 channel (sent link) in
            ({| currentDataChannel := Some channel';
                sendQueue := sendQueue link; sent := frames |}, outcome)
          else
            ({| currentDataChannel := Some (channelSend (DataFrame data) channel);
                sendQueue := sendQueue link;
                sent := sent link ++ [DataFrame data] |}, Sent)
      | Connecting =>
          if queueIfConnecting then
            ({| currentDataChannel := currentDataChannel link;
                sendQueue := sendQueue link ++ [data]; sent := sent link |}, Queued)
          else (link, Failed (NotReady Connecting))
      | state => (link, Failed (NotReady state))
      end
  end.

(** The channel after [k] timeouts in a row. *)
Fixpoint afterTimeouts (k : nat) (channel : DataChannel) : DataChannel :=
  match k with
  | 0 => channel
  | S k' => afterTimeouts k' (afterTimeout channel)
  end.

(** The channel does not close by itself. *)
Definition staysOpen : Prop :=
  ∀ channel, readyState channel = Open → readyState (afterTimeout channel) = Open.

(** Whatever is buffered is transmitted in the end. *)
Definition drains : Prop :=
  ∀ channel, ∃ k, bufferedAmount (afterTimeouts k channel) ≤ HIGH_WATER.

(** [flushSendQueue()]: nothing unless the channel is open and the
    queue holds something; otherwise the queue is emptied and every
    queued text is handed to [channel.send], in order. *)
Definition flushSendQueue (link : Link) : Link :=
  match currentDataChannel link with
  | Some channel =>
      if bool_decide (readyState channel = Open)
         && negb (bool_decide (sendQueue link = []))
      then
        let frames := DataFrame <$> sendQueue link in
        {| currentDataChannel :=
             Some (foldl (λ c f, channelSend f c) channel frames);
           sendQueue := []; sent := sent link ++ frames |}
      else link
  | None => link
  end.

(** Calls of [sendMessage(payload)] one after the other, each at its own
    reading of the clock: the link afterwards and what each call
    returned. *)
Fixpoint sendEach (fuel : nat) (messages : list (N * Payload)) (link : Link)
    : Link * list SendOutcome :=
  match messages with
  | [] => (link, [])
  | (now, payload) :: rest =>
      let '(link1, outcome) := sendMessage fuel now payload true link in
      let '(link2, outcomes) := sendEach fuel rest link1 in
      (link2, outcome :: outcomes)
  end.

End WithChannel.

(** ** The listener of [setupDataChannel] *)

(** A reassembly buffer [{ chunks: new Array(total), received, total }];
    a hole of the array is [None]. *)
Record Buffer := { chunks : list (option string); received : nat; total : nat }.

(** [chunks[index] = data]: past the end, the array grows by holes. *)
Definition arraySet (chunks : list (option string)) (index : nat) (data : string)
    : list (option string) :=
  if index <? length chunks then <[index := Some data]> chunks
  else chunks ++ replicate (index - length chunks) None ++ [Some data].

(** [!chunks[index]]: a hole, an index past the end, or the empty string. *)
Definition vacant (chunks : list (option string)) (index : nat) : bool :=
  match chunks !! index with
  | Some (Some s) => String.eqb s ""
  | _ => true
  end.

(** [chunks.join('')]: a hole joins as the empty string. *)
Definition joinSparse (chunks : list (option string)) : string :=
  join (map (default "") chunks).

(** The ['message'] listener on one frame: the buffers afterwards, and
    the text passed to [handleSyncMessage], if any. *)
Definition onMessage (frame : Frame) (chunkBuffers : gmap string Buffer)
    : gmap string Buffer * option string :=
  match frame with
  | ChunkFrame chunkId index total data =>
      let buffer :=
        default {| chunks := replicate total None; received := 0; total := total |}
                (chunkBuffers !! chunkId) in
      let buffer' :=
        if vacant (chunks buffer) index
        then {| chunks := arraySet (chunks buffer) index data;
                received := S (received buffer); total := Channel.total buffer |}
        else buffer in
      if received buffer' =? Channel.total buffer'
      then (delete chunkId chunkBuffers, Some (joinSparse (chunks buffer')))
      else (<[chunkId := buffer']> chunkBuffers, None)
  | DataFrame data => (chunkBuffers, Some data)
  end.

Fixpoint receiveAll (frames : list Frame) (chunkBuffers : gmap string Buffer)
    : gmap string Buffer * list (option string) :=
  match frames with
  | [] => (chunkBuffers, [])
  | frame :: frames' =>
      let '(buffers1, delivered) := onMessage frame chunkBuffers in
      let '(buffers2, rest) := receiveAll frames' buffers1 in
      (buffers2, delivered :: rest)
  end.

(** The envelopes of a message: what the chunk loop hands to
    [channel.send] when nothing interrupts it. *)
Definition envelopes (chunkId data : string) : list Frame :=
  let totalChunks := ceilDiv (String.length data) MAX_CHUNK_SIZE in
  map (λ i, ChunkFrame chunkId i totalChunks
              (slice data (i * MAX_CHUNK_SIZE) ((i + 1) * MAX_CHUNK_SIZE)))
      (seq 0 totalChunks).

(** The text a frame carries. *)
Definition frameData (frame : Frame) : string :=
  match frame with
  | ChunkFrame _ _ _ data => data
  | DataFrame data => data
  end.

(** The stream id of a frame, if it is a chunk envelope. *)
Definition streamId (frame : Frame) : option string :=
  match frame with
  | ChunkFrame chunkId _ _ _ => Some chunkId
  | DataFrame _ => None
  end.

(** What [sendMessage] hands to the channel for a message, sent at
    clock reading [now], when nothing interrupts it. *)
Definition framesFor (now : N) (data : string) : list Frame :=
  if MAX_CHUNK_SIZE <? String.length data
  then envelopes (toString36 now) data
  else [DataFrame data].

Fixpoint repeatChar (n : nat) (c : ascii) : string :=
  match n with
  | 0 => ""
  | S n' => String c (repeatChar n' c)
  end.

(** The claim of C8 on the stream id: the id of the envelopes of a
    message is none of the ids sent over the channel before. *)
Definition FreshStreamId : Prop :=
  ∀ JSON_stringify frameBytes afterTimeout fuel now payload queueIfConnecting link,
    let link' := (sendMessage JSON_stringify frameBytes afterTimeout fuel now payload
                    queueIfConnecting link).1 in
    ∀ frame, frame ∈ drop (length (sent link)) (sent link') →
             is_Some (streamId frame) →
             streamId frame ∉ map streamId (sent link).

Definition openLink : Link :=
  {| currentDataChannel := Some {| readyState := Open; bufferedAmount := 0 |};
     sendQueue := []; sent := [] |}.

(** The link once the browser has opened its channel. *)
Definition opened (link : Link) : Link :=
  {| currentDataChannel :=
       (λ c, {| readyState := Open; bufferedAmount := bufferedAmount c |})
         <$> currentDataChannel link;
     sendQueue := sendQueue link; sent := sent link |}.

(** A channel that transmits everything within one timeout. *)
Definition promptChannel (channel : DataChannel) : DataChannel :=
  {| readyState := readyState channel; bufferedAmount := 0 |}.

Definition textBytes (frame : Frame) : nat := String.length (frameData frame).

(** What C8 says of one call of [sendMessage], the stream id read as
    the clock reading in base 36. *)
Definition SendsFrames (JSON_stringify : json → string) (frameBytes : Frame → nat)
    (afterTimeout : DataChannel → DataChannel) (now : N) (payload : Payload)
    (queueIfConnecting : bool) (link : Link) : Prop :=
  let data := serialize JSON_stringify payload in
  (* the call returns [true], having handed [framesFor now data] to the
     channel, in order, after what was sent before *)
  (∃ fuel0 link', ∀ fuel, fuel0 ≤ fuel →
     sendMessage JSON_stringify frameBytes afterTimeout fuel now payload
       queueIfConnecting link = (link', Sent) ∧
     sent link' = sent link ++ framesFor now data) ∧
  (* at most 16384 characters: one frame, the text itself *)
  (String.length data ≤ MAX_CHUNK_SIZE → framesFor now data = [DataFrame data]) ∧
  (* more: ceil(size / 16384) envelopes under one stream id, numbered
     from 0, whose slices joined in order are the text *)
  (MAX_CHUNK_SIZE < String.length data →
     framesFor now data = envelopes (toString36 now) data ∧
     length (framesFor now data) = ceilDiv (String.length data) MAX_CHUNK_SIZE ∧
     Forall (λ frame, streamId frame = Some (toString36 now)) (framesFor now data) ∧
     join (map frameData (framesFor now data)) = data) ∧
  (* 40 KiB: three envelopes of 16 KiB, 16 KiB and 8 KiB, which the
     listener of the peer reassembles into the text *)
  (String.length data = 40 * 1024 →
     (∃ c0 c1 c2,
        framesFor now data
        = [ChunkFrame (toString36 now) 0 3 c0; ChunkFrame (toString36 now) 1 3 c1;
           ChunkFrame (toString36 now) 2 3 c2] ∧
        String.length c0 = 16 * 1024 ∧ String.length c1 = 16 * 1024 ∧
        String.length c2 = 8 * 1024 ∧ c0 +:+ c1 +:+ c2 = data) ∧
     receiveAll (framesFor now data) ∅ = (∅, [None; None; Some data])).

(** ** Arithmetic of the chunk count *)

Lemma ceilDiv_covers a b : 0 < b → a ≤ ceilDiv a b * b.
Proof.
  intros Hb. unfold ceilDiv.
  pose proof (Nat.div_mod_eq a b) as Hdiv.
  pose proof (Nat.mod_upper_bound a b ltac:(lia)) as Hmod.
  destruct (a mod b =? 0) eqn:Hzero.
  - apply Nat.eqb_eq in Hzero. nia.
  - nia.
Qed.

Lemma ceilDiv_tight a b i : 0 < b → i < ceilDiv a b → i * b < a.
Proof.
  intros Hb. unfold ceilDiv.
  pose proof (Nat.div_mod_eq a b) as Hdiv.
  pose proof (Nat.mod_upper_bound a b ltac:(lia)) as Hmod.
  destruct (a mod b =? 0) eqn:Hzero.
  - apply Nat.eqb_eq in Hzero. nia.
  - apply Nat.eqb_neq in Hzero. nia.
Qed.

Lemma MAX_CHUNK_SIZE_pos : 0 < MAX_CHUNK_SIZE.
Proof. unfold MAX_CHUNK_SIZE. lia. Qed.

(** ** Slices at multiples of the chunk size *)

Lemma slice_block data n i :
  slice data (i * n) ((i + 1) * n) = String.substring (i * n) n data.
Proof. unfold slice. f_equal. lia. Qed.

Lemma join_blocks data n : ∀ k start,
  join (map (λ i, slice data (i * n) ((i + 1) * n)) (seq start k))
  = String.substring (start * n) (k * n) data.
Proof.
  induction k as [ | k IH ]; intros start.
  - cbn. by rewrite substring_zero.
  - cbn [seq map]. rewrite join_cons, IH, slice_block.
    replace (S start * n) with (start * n + n) by lia.
    rewrite substring_app. f_equal.
Qed.

Lemma join_all_blocks data n :
  0 < n →
  join (map (λ i, slice data (i * n) ((i + 1) * n))
            (seq 0 (ceilDiv (String.length data) n))) = data.
Proof.
  intros Hn. rewrite join_blocks. cbn [Nat.mul].
  rewrite substring_overshoot.
  - by rewrite Nat.sub_0_r, substring_all.
  - pose proof (ceilDiv_covers (String.length data) n Hn). lia.
Qed.

Lemma length_envelopes chunkId data :
  length (envelopes chunkId data) = ceilDiv (String.length data) MAX_CHUNK_SIZE.
Proof. unfold envelopes. by rewrite length_map, length_seq. Qed.

Lemma join_envelopes chunkId data :
  join (map frameData (envelopes chunkId data)) = data.
Proof.
  unfold envelopes. rewrite map_map. cbn [frameData].
  apply join_all_blocks, MAX_CHUNK_SIZE_pos.
Qed.

(** ** Reassembly of one message *)

Section Reassembly.

Variables (chunkId data : string).

Let totalChunks := ceilDiv (String.length data) MAX_CHUNK_SIZE.
Let block (i : nat) := slice data (i * MAX_CHUNK_SIZE) ((i + 1) * MAX_CHUNK_SIZE).
Let envelope (i : nat) := ChunkFrame chunkId i totalChunks (block i).

(** The array of a buffer that has taken the chunks at the indices
    [seen]. *)
Definition partial (seen : list nat) : list (option string) :=
  map (λ i, if bool_decide (i ∈ seen) then Some (block i) else None)
      (seq 0 totalChunks).

Lemma partial_lookup seen i :
  i < totalChunks →
  partial seen !! i = Some (if bool_decide (i ∈ seen) then Some (block i) else None).
Proof.
  intros Hi. unfold partial. by rewrite list_lookup_fmap, lookup_seq_lt.
Qed.

Lemma length_partial seen : length (partial seen) = totalChunks.
Proof. unfold partial. by rewrite length_map, length_seq. Qed.

Lemma partial_nil : partial [] = replicate totalChunks None.
Proof.
  apply list_eq. intros i. destruct (decide (i < totalChunks)) as [ Hi | Hi ].
  - rewrite partial_lookup, lookup_replicate_2 by done.
    by rewrite bool_decide_eq_false_2 by apply not_elem_of_nil.
  - rewrite !lookup_ge_None_2; [ done | | ].
    + rewrite length_replicate. lia.
    + rewrite length_partial. lia.
Qed.

Lemma arraySet_partial seen j :
  j < totalChunks → arraySet (partial seen) j (block j) = partial (j :: seen).
Proof.
  intros Hj. unfold arraySet. rewrite length_partial.
  replace (j <? totalChunks) with true by (symmetry; by apply Nat.ltb_lt).
  apply list_eq. intros i. destruct (decide (i = j)) as [ -> | Hne ].
  - rewrite list_lookup_insert_eq by (by rewrite length_partial).
    rewrite partial_lookup by done.
    by rewrite bool_decide_eq_true_2 by apply list_elem_of_here.
  - rewrite list_lookup_insert_ne by done.
    destruct (decide (i < totalChunks)) as [ Hi | Hi ].
    + rewrite !partial_lookup by done.
      assert (bool_decide (i ∈ j :: seen) = bool_decide (i ∈ seen)) as ->; [ | done ].
      apply bool_decide_ext. rewrite elem_of_cons. tauto.
    + rewrite !lookup_ge_None_2; [ done | | ]; rewrite length_partial; lia.
Qed.

Lemma vacant_partial seen j :
  j < totalChunks → j ∉ seen → vacant (partial seen) j = true.
Proof.
  intros Hj Hseen. unfold vacant. rewrite partial_lookup by done.
  by rewrite bool_decide_eq_false_2.
Qed.

Lemma joinSparse_partial_full seen :
  seen ≡ₚ seq 0 totalChunks → joinSparse (partial seen) = data.
Proof.
  intros Hperm. unfold joinSparse, partial. rewrite map_map.
  etrans; [ | apply (join_all_blocks data MAX_CHUNK_SIZE MAX_CHUNK_SIZE_pos) ].
  f_equal. apply map_ext_in. intros i Hi%list_elem_of_In.
  rewrite bool_decide_eq_true_2; [ done | ]. by rewrite Hperm.
Qed.

Definition bufferOf (seen : list nat) : Buffer :=
  {| chunks := partial seen; received := length seen; total := totalChunks |}.

Definition freshBuffer : Buffer :=
  {| chunks := replicate totalChunks None; received := 0; total := totalChunks |}.

Lemma receiveAll_envelopes (indices : list nat) :
  ∀ (seen : list nat) (buffers : gmap string Buffer),
    indices ≠ [] →
    seen ++ indices ≡ₚ seq 0 totalChunks →
    default freshBuffer (buffers !! chunkId) = bufferOf seen →
    receiveAll (envelope <$> indices) buffers
    = (delete chunkId buffers,
       replicate (length indices - 1) None ++ [Some data]).
Proof.
  induction indices as [ | j indices IH ]; intros seen buffers Hne Hperm Hbuf; [ done | ].
  assert (NoDup (seen ++ j :: indices)) as Hnodup.
  { rewrite Hperm. apply NoDup_seq. }
  assert (j < totalChunks) as Hj.
  { assert (j ∈ seq 0 totalChunks) as Hin.
    { rewrite <- Hperm. apply elem_of_app. right. apply list_elem_of_here. }
    apply elem_of_seq in Hin. lia. }
  assert (j ∉ seen) as Hseen.
  { apply NoDup_app in Hnodup as (_ & Hdisj & _).
    intros Hin. apply (Hdisj j Hin). apply list_elem_of_here. }
  assert (length seen + S (length indices) = totalChunks) as Hlen.
  { apply Permutation_length in Hperm.
    rewrite length_app, length_seq in Hperm. cbn [length] in Hperm. lia. }
  cbn [fmap list_fmap receiveAll]. unfold envelope at 1. cbn [onMessage].
  fold freshBuffer. rewrite Hbuf. cbn [bufferOf chunks received total].
  rewrite vacant_partial by done. cbn [chunks received total].
  rewrite arraySet_partial by done.
  destruct indices as [ | j' indices ].
  - cbn [length] in Hlen.
    replace (S (length seen) =? totalChunks) with true
      by (symmetry; apply Nat.eqb_eq; lia).
    cbn [fmap list_fmap receiveAll length replicate app Nat.sub].
    rewrite joinSparse_partial_full; [ done | ].
    rewrite <- Hperm. apply Permutation_cons_append.
  - cbn [length] in Hlen.
    replace (S (length seen) =? totalChunks) with false
      by (symmetry; apply Nat.eqb_neq; lia).
    rewrite (IH (j :: seen)); [ | done | | ].
    + rewrite delete_insert_eq. cbn [length].
      replace (S (S (length indices)) - 1) with (S (S (length indices) - 1)) by lia.
      done.
    + rewrite <- Hperm. apply Permutation_middle.
    + by rewrite lookup_insert_eq.
Qed.

Lemma receiveAll_permuted frames (buffers : gmap string Buffer) :
  0 < String.length data →
  buffers !! chunkId = None →
  frames ≡ₚ envelopes chunkId data →
  receiveAll frames buffers
  = (buffers, replicate (length frames - 1) None ++ [Some data]).
Proof.
  intros Hdata Hnone Hperm. unfold envelopes in Hperm.
  apply Permutation_map_inv in Hperm as (indices & -> & Hindices).
  change (map ?f indices) with (f <$> indices).
  fold totalChunks in Hindices |- *.
  assert (indices ≠ []) as Hne.
  { intros ->. apply Permutation_length in Hindices.
    rewrite length_seq in Hindices. cbn in Hindices.
    pose proof (ceilDiv_covers (String.length data) MAX_CHUNK_SIZE MAX_CHUNK_SIZE_pos)
      as Hcover.
    fold totalChunks in Hcover. lia. }
  rewrite (receiveAll_envelopes indices []); try done.
  - by rewrite delete_id, length_fmap.
  - rewrite Hnone. cbn. unfold freshBuffer, bufferOf. by rewrite partial_nil.
Qed.

End Reassembly.

Lemma receiveAll_app frames1 frames2 (buffers : gmap string Buffer) :
  (receiveAll (frames1 ++ frames2) buffers).2
  = (receiveAll frames1 buffers).2
    ++ (receiveAll frames2 (receiveAll frames1 buffers).1).2.
Proof.
  revert buffers. induction frames1 as [ | f frames1 IH ]; intros buffers.
  - cbn. by destruct (receiveAll frames2 buffers).
  - cbn [app receiveAll]. destruct (onMessage f buffers) as [b1 d].
    specialize (IH b1).
    destruct (receiveAll (frames1 ++ frames2) b1) as [b2 rest].
    destruct (receiveAll frames1 b1) as [b3 rest1]. cbn [fst snd] in *.
    by rewrite IH.
Qed.

(** ** Sending *)

Section Sending.

Variable JSON_stringify : json → string.
Variable frameBytes : Frame → nat.
Variable afterTimeout : DataChannel → DataChannel.

Hypothesis Hopen : staysOpen afterTimeout.
Hypothesis Hdrains : drains afterTimeout.

Lemma drain_ready : ∀ k channel,
  readyState channel = Open →
  bufferedAmount (afterTimeouts afterTimeout k channel) ≤ HIGH_WATER →
  ∃ channel',
    readyState channel' = Open ∧
    ∀ fuel, k < fuel → drain afterTimeout fuel channel = Some (channel', None).
Proof.
  induction k as [ | k IH ]; intros channel Hstate Hlow.
  - exists channel. split; [ done | ]. intros [ | fuel ] Hfuel; [ lia | ].
    cbn [drain afterTimeouts] in *.
    by replace (HIGH_WATER <? bufferedAmount channel) with false
      by (symmetry; by apply Nat.ltb_ge).
  - destruct (HIGH_WATER <? bufferedAmount channel) eqn:Hhigh.
    + destruct (IH (afterTimeout channel)) as (channel' & Hstate' & Hrun);
        [ by apply Hopen | done | ].
      exists channel'. split; [ done | ]. intros [ | fuel ] Hfuel; [ lia | ].
      cbn [drain]. rewrite Hhigh. rewrite decide_True by (by apply Hopen).
      apply Hrun. lia.
    + exists channel. split; [ done | ]. intros [ | fuel ] Hfuel; [ lia | ].
      cbn [drain]. by rewrite Hhigh.
Qed.

Lemma sendChunks_all data chunkId totalChunks : ∀ remaining i channel frames,
  readyState channel = Open →
  ∃ fuel0 channel',
    readyState channel' = Open ∧
    ∀ fuel, fuel0 ≤ fuel →
      sendChunks frameBytes afterTimeout fuel data chunkId totalChunks
        remaining i channel frames
      = (channel',
         frames ++ map (λ i, ChunkFrame chunkId i totalChunks
                               (slice data (i * MAX_CHUNK_SIZE) ((i + 1) * MAX_CHUNK_SIZE)))
                       (seq i remaining),
         Sent).
Proof.
  induction remaining as [ | remaining IH ]; intros i channel frames Hstate.
  - exists 0, channel. split; [ done | ]. intros fuel _.
    cbn [sendChunks seq map]. by rewrite app_nil_r.
  - destruct (Hdrains channel) as [k Hk].
    destruct (drain_ready k channel Hstate Hk) as (channel1 & Hstate1 & Hdrain).
    set (wrapper := ChunkFrame chunkId i totalChunks
                      (slice data (i * MAX_CHUNK_SIZE) ((i + 1) * MAX_CHUNK_SIZE))).
    destruct (IH (S i) (channelSend frameBytes wrapper channel1) (frames ++ [wrapper]))
      as (fuel1 & channel' & Hstate' & Hrun); [ done | ].
    exists (Nat.max (S k) fuel1), channel'. split; [ done | ].
    intros fuel Hfuel. cbn [sendChunks]. rewrite Hdrain by lia.
    fold wrapper. rewrite Hrun by lia.
    cbn [seq map]. by rewrite <- app_assoc.
Qed.

Lemma sendMessage_open now payload queueIfConnecting link channel :
  currentDataChannel link = Some channel → readyState channel = Open →
  ∃ fuel0 link',
    ∀ fuel, fuel0 ≤ fuel →
      sendMessage JSON_stringify frameBytes afterTimeout fuel now payload
        queueIfConnecting link = (link', Sent) ∧
      sent link' = sent link ++ framesFor now (serialize JSON_stringify payload) ∧
      sendQueue link' = sendQueue link ∧
      (∃ channel', currentDataChannel link' = Some channel' ∧ readyState channel' = Open).
Proof.
  intros Hchannel Hstate. unfold sendMessage, framesFor.
  rewrite Hchannel, Hstate.
  set (data := serialize JSON_stringify payload).
  destruct (MAX_CHUNK_SIZE <? String.length data) eqn:Hbig.
  - destruct (sendChunks_all data (toString36 now)
                (ceilDiv (String.length data) MAX_CHUNK_SIZE)
                (ceilDiv (String.length data) MAX_CHUNK_SIZE) 0 channel (sent link) Hstate)
      as (fuel0 & channel' & Hstate' & Hrun).
    exists fuel0. eexists. intros fuel Hfuel. rewrite (Hrun fuel Hfuel).
    split; [ reflexivity | ]. cbn [sent sendQueue currentDataChannel].
    split; [ done | split; [ done | by exists channel' ] ].
  - exists 0. eexists. intros fuel _. split; [ reflexivity | ].
    cbn [sent sendQueue currentDataChannel].
    split; [ done | split; [ done | ] ]. by eexists.
Qed.

End Sending.

Lemma join_three (a b c : string) : join [a; b; c] = a +:+ b +:+ c.
Proof. reflexivity. Qed.

(** A message of 40 KiB goes out in three envelopes of 16 KiB, 16 KiB
    and 8 KiB. *)
Lemma framesFor_40KiB now data :
  String.length data = 40 * 1024 →
  ∃ c0 c1 c2,
    framesFor now data
    = [ChunkFrame (toString36 now) 0 3 c0; ChunkFrame (toString36 now) 1 3 c1;
       ChunkFrame (toString36 now) 2 3 c2] ∧
    String.length c0 = 16 * 1024 ∧ String.length c1 = 16 * 1024 ∧
    String.length c2 = 8 * 1024 ∧
    c0 +:+ c1 +:+ c2 = data.
Proof.
  intros Hlen. unfold framesFor.
  assert ((MAX_CHUNK_SIZE <? String.length data) = true) as ->.
  { rewrite Hlen. vm_compute. reflexivity. }
  pose proof (join_envelopes (toString36 now) data) as Hjoin.
  unfold envelopes in *.
  assert (ceilDiv (String.length data) MAX_CHUNK_SIZE = 3) as Htotal.
  { rewrite Hlen. vm_compute. reflexivity. }
  rewrite Htotal in *. cbn [seq map frameData] in *.
  eexists _, _, _. split; [ reflexivity | ].
  rewrite !slice_block, !length_substring, Hlen.
  repeat split; try (vm_compute; reflexivity).
  rewrite <- !slice_block. etrans; [ | exact Hjoin ]. symmetry. apply join_three.
Qed.

Lemma length_receiveAll frames : ∀ (buffers : gmap string Buffer),
  length (receiveAll frames buffers).2 = length frames.
Proof.
  induction frames as [ | f frames IH ]; intros buffers; [ done | ].
  cbn [receiveAll]. destruct (onMessage f buffers) as [b1 d].
  specialize (IH b1). destruct (receiveAll frames b1) as [b2 rest].
  cbn in *. by rewrite IH.
Qed.

(** C7.  Let a message longer than [MAX_CHUNK_SIZE] be sent as its chunk
    envelopes, and let them arrive in any order at a listener that holds
    no buffer for their [chunkId].  Then nothing is handed to the handler
    while only some of the envelopes have arrived (after any [k] of them,
    fewer than all, there were [k] frames and no delivery); the last one
    to arrive delivers the original text; and the buffers are afterwards
    what they were before, the buffer of this [chunkId] gone. *)
Theorem chunked_message_reassembled chunkId data frames
    (buffers : gmap string Buffer) :
  MAX_CHUNK_SIZE < String.length data →
  buffers !! chunkId = None →
  frames ≡ₚ envelopes chunkId data →
  length frames = ceilDiv (String.length data) MAX_CHUNK_SIZE ∧
  receiveAll frames buffers
  = (buffers, replicate (length frames - 1) None ++ [Some data]) ∧
  ∀ k, k < length frames →
       (receiveAll (take k frames) buffers).2 = replicate k None.
Proof.
  intros Hbig Hnone Hperm.
  assert (receiveAll frames buffers
          = (buffers, replicate (length frames - 1) None ++ [Some data])) as Hall.
  { apply (receiveAll_permuted chunkId); [ lia | done | done ]. }
  split; [ by rewrite Hperm, length_envelopes | ]. split; [ done | ].
  intros k Hk.
  pose proof (receiveAll_app (take k frames) (drop k frames) buffers) as Happ.
  rewrite take_drop, Hall in Happ. cbn [snd] in Happ.
  apply (f_equal (take k)) in Happ.
  rewrite take_app_le in Happ by (rewrite length_replicate; lia).
  rewrite take_replicate in Happ.
  rewrite take_app_length' in Happ
    by (rewrite length_receiveAll, length_take; lia).
  rewrite <- Happ. f_equal. lia.
Qed.

Lemma chunked_message_reassembled_witness :
  let data := repeatChar (40 * 1024) "a" in
  let frames := rev (envelopes "mjuohs00" data) in
  MAX_CHUNK_SIZE < String.length data ∧
  (∅ : gmap string Buffer) !! "mjuohs00" = None ∧
  frames ≡ₚ envelopes "mjuohs00" data ∧
  length frames = ceilDiv (String.length data) MAX_CHUNK_SIZE ∧
  receiveAll frames ∅ = (∅, replicate (length frames - 1) None ++ [Some data]) ∧
  ∀ k, k < length frames → (receiveAll (take k frames) ∅).2 = replicate k None.
Proof.
  assert (MAX_CHUNK_SIZE < String.length (repeatChar (40 * 1024) "a")) as Hbig.
  { apply Nat.ltb_lt. vm_compute. reflexivity. }
  cbn zeta. split; [ exact Hbig | ]. split; [ reflexivity | ].
  split; [ symmetry; apply Permutation_rev | ].
  apply (chunked_message_reassembled "mjuohs00" (repeatChar (40 * 1024) "a")).
  - exact Hbig.
  - reflexivity.
  - symmetry. apply Permutation_rev.
Defined.

(** C8, as stated, fails on the stream id: two different messages
    chunked at the same reading of [Date.now()] go out under the same
    [chunkId]. *)
Lemma same_reading_same_streamId :
  let first := repeatChar (16 * 1024 + 1) "a" in
  let second := repeatChar (16 * 1024 + 1) "b" in
  let send text link :=
    (sendMessage (λ _, "") textBytes promptChannel 1 1767225600000 (Text text) true link).1 in
  let link1 := send first openLink in
  let link2 := send second link1 in
  String.get 0 first ≠ String.get 0 second ∧
  map streamId (sent link1) = [Some "mjuohs00"; Some "mjuohs00"] ∧
  map streamId (drop 2 (sent link2)) = [Some "mjuohs00"; Some "mjuohs00"] ∧
  ¬ FreshStreamId.
Proof.
  cbn zeta.
  assert (map streamId
            (sent (sendMessage (λ _, "") textBytes promptChannel 1 1767225600000
                     (Text (repeatChar (16 * 1024 + 1) "a")) true openLink).1)
          = [Some "mjuohs00"; Some "mjuohs00"]) as Hfirst.
  { vm_compute. reflexivity. }
  split; [ vm_compute; discriminate | ]. split; [ exact Hfirst | ].
  split; [ vm_compute; reflexivity | ].
  intros Hfresh.
  specialize (Hfresh (λ _, "") textBytes promptChannel 1 1767225600000%N
                (Text (repeatChar (16 * 1024 + 1) "a")) true
                (sendMessage (λ _, "") textBytes promptChannel 1 1767225600000
                   (Text (repeatChar (16 * 1024 + 1) "a")) true openLink).1
                (ChunkFrame "mjuohs00" 0 2
                   (slice (repeatChar (16 * 1024 + 1) "a") (0 * MAX_CHUNK_SIZE)
                      ((0 + 1) * MAX_CHUNK_SIZE)))).
  cbn zeta in Hfresh. apply Hfresh.
  - vm_compute. apply list_elem_of_here.
  - by eexists.
  - rewrite Hfirst. cbn [streamId]. apply list_elem_of_here.
Qed.

(** C8, amended.  Over an open channel that stays open and drains, every
    message is sent: as one frame when its serialized size is at most
    16384 characters, otherwise as exactly ceil(size / 16384) chunk
    envelopes, in order of index, all under the same stream id, which is
    the reading of the millisecond clock at the send, in base 36 (so not
    a fresh one when two messages are chunked in the same millisecond).
    A message of 40 KiB is sent as three chunks of 16 KiB, 16 KiB and
    8 KiB, which reassemble to the original. *)
Theorem sendMessage_frames JSON_stringify frameBytes afterTimeout now payload
    queueIfConnecting link channel :
  staysOpen afterTimeout → drains afterTimeout →
  currentDataChannel link = Some channel → readyState channel = Open →
  SendsFrames JSON_stringify frameBytes afterTimeout now payload queueIfConnecting link.
Proof.
  intros Hopen Hdrains Hchannel Hstate. unfold SendsFrames. cbn zeta.
  set (data := serialize JSON_stringify payload).
  split; [ | split; [ | split ] ].
  - destruct (sendMessage_open JSON_stringify frameBytes afterTimeout Hopen Hdrains
                now payload queueIfConnecting link channel Hchannel Hstate)
      as (fuel0 & link' & Hrun).
    exists fuel0, link'. intros fuel Hfuel.
    destruct (Hrun fuel Hfuel) as (Hsend & Hsent & _). done.
  - intros Hsmall. unfold framesFor.
    by replace (MAX_CHUNK_SIZE <? String.length data) with false
      by (symmetry; by apply Nat.ltb_ge).
  - intros Hbig. unfold framesFor.
    replace (MAX_CHUNK_SIZE <? String.length data) with true
      by (symmetry; by apply Nat.ltb_lt).
    split; [ done | ]. split; [ apply length_envelopes | ].
    split; [ | apply join_envelopes ].
    unfold envelopes. apply Forall_forall. intros frame Hin.
    apply list_elem_of_In, in_map_iff in Hin as (i & <- & _). done.
  - intros Hlen. split; [ by apply framesFor_40KiB | ].
    assert (MAX_CHUNK_SIZE < String.length data) as Hbig.
    { rewrite Hlen. apply Nat.ltb_lt. vm_compute. reflexivity. }
    unfold framesFor.
    replace (MAX_CHUNK_SIZE <? String.length data) with true
      by (symmetry; by apply Nat.ltb_lt).
    rewrite (receiveAll_permuted (toString36 now) data); [ | lia | done | done ].
    rewrite length_envelopes, Hlen. f_equal.
Qed.

Lemma promptChannel_staysOpen : staysOpen promptChannel.
Proof. by intros channel. Qed.

Lemma promptChannel_drains : drains promptChannel.
Proof. intros channel. exists 1. cbn [afterTimeouts promptChannel bufferedAmount]. apply Nat.le_0_l. Qed.

Lemma sendMessage_frames_witness :
  staysOpen promptChannel ∧ drains promptChannel ∧
  currentDataChannel openLink = Some {| readyState := Open; bufferedAmount := 0 |} ∧
  SendsFrames (λ _, "") textBytes promptChannel 1767225600000
    (Text (repeatChar (40 * 1024) "a")) true openLink.
Proof.
  split; [ exact promptChannel_staysOpen | ].
  split; [ exact promptChannel_drains | ].
  split; [ reflexivity | ].
  exact (sendMessage_frames (λ _, "") textBytes promptChannel 1767225600000
           (Text (repeatChar (40 * 1024) "a")) true openLink
           {| readyState := Open; bufferedAmount := 0 |}
           promptChannel_staysOpen promptChannel_drains eq_refl eq_refl).
Defined.

(** ** Messages queued while the channel is connecting *)

Section Queueing.

Variable JSON_stringify : json → string.
Variable frameBytes : Frame → nat.
Variable afterTimeout : DataChannel → DataChannel.

Lemma sendEach_connecting fuel messages : ∀ link channel,
  currentDataChannel link = Some channel → readyState channel = Connecting →
  sendEach JSON_stringify frameBytes afterTimeout fuel messages link
  = ({| currentDataChannel := Some channel;
        sendQueue := sendQueue link ++ ((λ m, serialize JSON_stringify m.2) <$> messages);
        sent := sent link |},
     replicate (length messages) Queued).
Proof.
  induction messages as [ | [now payload] messages IH ]; intros link channel Hchannel Hstate.
  - cbn. rewrite app_nil_r. by destruct link; simplify_eq/=.
  - cbn [sendEach]. unfold sendMessage at 1. rewrite Hchannel, Hstate.
    erewrite IH; [ | reflexivity | done ].
    cbn [sendQueue sent fmap list_fmap length replicate snd].
    by rewrite <- app_assoc.
Qed.

Lemma readyState_channelSend frames : ∀ channel,
  readyState (foldl (λ c f, channelSend frameBytes f c) channel frames)
  = readyState channel.
Proof. induction frames as [ | f frames IH ]; intros channel; [ done | ]. cbn. by rewrite IH. Qed.

Lemma flushSendQueue_open link channel :
  currentDataChannel link = Some channel → readyState channel = Open →
  flushSendQueue frameBytes link
  = {| currentDataChannel :=
         Some (foldl (λ c f, channelSend frameBytes f c) channel
                 (DataFrame <$> sendQueue link));
       sendQueue := []; sent := sent link ++ (DataFrame <$> sendQueue link) |}.
Proof.
  intros Hchannel Hstate. unfold flushSendQueue. rewrite Hchannel.
  rewrite bool_decide_eq_true_2 by done. cbn [andb].
  case_bool_decide as Hempty; [ | done ]. cbn [negb].
  destruct link as [c q s]. cbn in *. subst. cbn. by rewrite app_nil_r.
Qed.

(** X9.  Messages given to [sendMessage] while the channel is still
    connecting are not sent but queued, each call returning [false]; when
    the channel opens, [flushSendQueue] hands every queued text to the
    channel, after what was queued before and in the order of the calls,
    each as one frame whatever its size (a queued message is not cut into
    chunks); the queue is then empty, and flushing again sends nothing. *)
Theorem queued_messages_flushed_in_order fuel messages link channel :
  currentDataChannel link = Some channel → readyState channel = Connecting →
  let queued := sendEach JSON_stringify frameBytes afterTimeout fuel messages link in
  queued.2 = replicate (length messages) Queued ∧
  sent queued.1 = sent link ∧
  let texts := sendQueue link ++ ((λ m, serialize JSON_stringify m.2) <$> messages) in
  let link' := flushSendQueue frameBytes (opened queued.1) in
  sent link' = sent link ++ (DataFrame <$> texts) ∧
  sendQueue link' = [] ∧
  flushSendQueue frameBytes link' = link'.
Proof.
  intros Hchannel Hstate. cbn zeta.
  rewrite (sendEach_connecting fuel messages link channel) by done.
  cbn [fst snd sent]. split; [ done | ]. split; [ done | ].
  erewrite flushSendQueue_open; [ | reflexivity | done ].
  cbn [sent sendQueue]. split; [ done | ]. split; [ done | ].
  erewrite flushSendQueue_open; [ | reflexivity | by rewrite readyState_channelSend ].
  cbn [sent sendQueue fmap list_fmap foldl]. by rewrite app_nil_r.
Qed.

(** ** A send that is interrupted *)

Lemma sendChunks_prefix data chunkId totalChunks fuel : ∀ remaining i channel frames,
  ∃ k,
    k ≤ remaining ∧
    (sendChunks frameBytes afterTimeout fuel data chunkId totalChunks
       remaining i channel frames).1.2
    = frames ++ map (λ i, ChunkFrame chunkId i totalChunks
                            (slice data (i * MAX_CHUNK_SIZE) ((i + 1) * MAX_CHUNK_SIZE)))
                    (seq i k) ∧
    match (sendChunks frameBytes afterTimeout fuel data chunkId totalChunks
             remaining i channel frames).2 with
    | Sent => k = remaining
    | Failed ClosedDuringSend | StillWaiting => k < remaining
    | _ => False
    end.
Proof.
  induction remaining as [ | remaining IH ]; intros i channel frames.
  - exists 0. cbn. by rewrite app_nil_r.
  - cbn [sendChunks].
    destruct (drain afterTimeout fuel channel) as [ [channel' [ e | ]] | ] eqn:Hdrain.
    + exists 0. cbn. rewrite app_nil_r. split; [ lia | ]. split; [ done | ].
      assert (e = ClosedDuringSend) as ->; [ | lia ].
      clear -Hdrain. revert channel Hdrain.
      induction fuel as [ | fuel IHf ]; intros channel Hdrain; [ done | ].
      cbn [drain] in Hdrain. destruct (HIGH_WATER <? bufferedAmount channel); [ | done ].
      case_decide; [ by eapply IHf | congruence ].
    + match goal with
      | |- context [ sendChunks _ _ _ _ _ _ _ _ ?c ?f ] =>
          destruct (IH (S i) c f) as (k & Hk & Hframes & Houtcome)
      end.
      exists (S k). split; [ lia | ]. rewrite Hframes.
      split; [ cbn [seq map]; by rewrite <- app_assoc | ].
      repeat case_match; try done; lia.
    + exists 0. cbn. rewrite app_nil_r. split; [ lia | ]. split; [ done | lia ].
Qed.

End Queueing.

Lemma queued_messages_flushed_in_order_witness :
  let link := {| currentDataChannel := Some {| readyState := Connecting; bufferedAmount := 0 |};
                 sendQueue := []; sent := [] |} in
  let messages := [(1767225600000%N, Text "first"); (1767225600001%N, Text "second")] in
  currentDataChannel link = Some {| readyState := Connecting; bufferedAmount := 0 |} ∧
  let queued := sendEach (λ _, "") textBytes promptChannel 1 messages link in
  queued.2 = replicate (length messages) Queued ∧
  sent queued.1 = sent link ∧
  let texts := sendQueue link ++ ((λ m, serialize (λ _, "") m.2) <$> messages) in
  let link' := flushSendQueue textBytes (opened queued.1) in
  sent link' = sent link ++ (DataFrame <$> texts) ∧
  sendQueue link' = [] ∧
  flushSendQueue textBytes link' = link'.
Proof.
  cbn zeta. split; [ reflexivity | ].
  exact (queued_messages_flushed_in_order (λ _, "") textBytes promptChannel 1
           [(1767225600000%N, Text "first"); (1767225600001%N, Text "second")]
           {| currentDataChannel := Some {| readyState := Connecting; bufferedAmount := 0 |};
              sendQueue := []; sent := [] |}
           {| readyState := Connecting; bufferedAmount := 0 |} eq_refl eq_refl).
Defined.

Lemma receiveAll_incomplete chunkId data frames (buffers : gmap string Buffer) k :
  0 < String.length data →
  buffers !! chunkId = None →
  frames ≡ₚ envelopes chunkId data →
  k < length frames →
  (receiveAll (take k frames) buffers).2 = replicate k None.
Proof.
  intros Hdata Hnone Hperm Hk.
  pose proof (receiveAll_permuted chunkId data frames buffers Hdata Hnone Hperm) as Hall.
  pose proof (receiveAll_app (take k frames) (drop k frames) buffers) as Happ.
  rewrite take_drop, Hall in Happ. cbn [snd] in Happ.
  apply (f_equal (take k)) in Happ.
  rewrite take_app_le in Happ by (rewrite length_replicate; lia).
  rewrite take_replicate in Happ.
  rewrite take_app_length' in Happ
    by (rewrite length_receiveAll, length_take; lia).
  rewrite <- Happ. f_equal. lia.
Qed.

(** X10.  Whatever the channel does while [sendMessage] waits for
    its buffer to drain, a call on an open channel hands to the channel a
    prefix of the frames of the message, in order.  It returns [true]
    only after all of them.  Otherwise the call failed because the channel
    closed during the wait (or it is still waiting), strictly fewer than
    all chunk envelopes went out, and a peer that receives them hands
    nothing to its handler: a message is never delivered in part. *)
Theorem interrupted_send_delivers_nothing JSON_stringify frameBytes afterTimeout
    fuel now payload queueIfConnecting link channel :
  currentDataChannel link = Some channel → readyState channel = Open →
  let data := serialize JSON_stringify payload in
  let result := sendMessage JSON_stringify frameBytes afterTimeout fuel now payload
                  queueIfConnecting link in
  ∃ k,
    sent result.1 = sent link ++ take k (framesFor now data) ∧
    (result.2 = Sent → k = length (framesFor now data)) ∧
    (result.2 ≠ Sent →
       (result.2 = Failed ClosedDuringSend ∨ result.2 = StillWaiting) ∧
       k < length (framesFor now data) ∧
       ∀ buffers : gmap string Buffer,
         buffers !! toString36 now = None →
         (receiveAll (take k (framesFor now data)) buffers).2 = replicate k None).
Proof.
  intros Hchannel Hstate. cbn zeta. unfold sendMessage, framesFor.
  rewrite Hchannel, Hstate.
  set (data := serialize JSON_stringify payload).
  destruct (MAX_CHUNK_SIZE <? String.length data) eqn:Hbig.
  - apply Nat.ltb_lt in Hbig.
    set (total := ceilDiv (String.length data) MAX_CHUNK_SIZE).
    destruct (sendChunks_prefix frameBytes afterTimeout data (toString36 now) total fuel
                total 0 channel (sent link)) as (k & Hk & Hframes & Houtcome).
    destruct (sendChunks _ _ _ _ _ _ _ _ _ _) as [[channel' frames] outcome].
    cbn [fst snd sent] in *. subst frames. exists k.
    assert (take k (envelopes (toString36 now) data)
            = map (λ i, ChunkFrame (toString36 now) i total
                          (slice data (i * MAX_CHUNK_SIZE) ((i + 1) * MAX_CHUNK_SIZE)))
                  (seq 0 k)) as Htake.
    { unfold envelopes. fold total. by rewrite firstn_map, take_seq, Nat.min_l by done. }
    split; [ by rewrite Htake | ].
    rewrite length_envelopes. fold total.
    split; [ by intros -> | ]. intros Hnot.
    assert (k < total) as Hlt by (repeat case_match; done).
    split; [ repeat case_match; try done; auto | ].
    split; [ done | ]. intros buffers Hnone.
    apply (receiveAll_incomplete (toString36 now) data); try done; [ lia | ].
    by rewrite length_envelopes.
  - exists 1. cbn [fst snd sent take length]. split; [ done | ]. split; [ done | ]. done.
Qed.

(** A channel that closes at the first timeout. *)
Definition closingChannel (channel : DataChannel) : DataChannel :=
  {| readyState := Closed; bufferedAmount := bufferedAmount channel |}.

Lemma interrupted_send_delivers_nothing_witness :
  let payload := Text (repeatChar (40 * 1024) "a") in
  let data := serialize (λ _, "") payload in
  let result := sendMessage (λ _, "") (λ _, 64 * 1024 + 1) closingChannel 2 1767225600000
                  payload true openLink in
  currentDataChannel openLink = Some {| readyState := Open; bufferedAmount := 0 |} ∧
  ∃ k,
    sent result.1 = sent openLink ++ take k (framesFor 1767225600000 data) ∧
    (result.2 = Sent → k = length (framesFor 1767225600000 data)) ∧
    (result.2 ≠ Sent →
       (result.2 = Failed ClosedDuringSend ∨ result.2 = StillWaiting) ∧
       k < length (framesFor 1767225600000 data) ∧
       ∀ buffers : gmap string Buffer,
         buffers !! toString36 1767225600000 = None →
         (receiveAll (take k (framesFor 1767225600000 data)) buffers).2 = replicate k None).
Proof.
  cbn zeta. split; [ reflexivity | ].
  exact (interrupted_send_delivers_nothing (λ _, "") (λ _, 64 * 1024 + 1) closingChannel
           2 1767225600000 (Text (repeatChar (40 * 1024) "a")) true openLink
           {| readyState := Open; bufferedAmount := 0 |} eq_refl eq_refl).
Defined.

(** The run of the witness: the channel closes after the first of three
    envelopes. *)
Example interrupted_after_first_envelope :
  let result := sendMessage (λ _, "") (λ _, 64 * 1024 + 1) closingChannel 2 1767225600000
                  (Text (repeatChar (40 * 1024) "a")) true openLink in
  result.2 = Failed ClosedDuringSend ∧ length (sent result.1) = 1.
Proof. split; vm_compute; reflexivity. Qed.

(** ** An envelope that arrives twice *)

Lemma receiveAll_app_state frames1 frames2 (buffers : gmap string Buffer) :
  (receiveAll (frames1 ++ frames2) buffers).1
  = (receiveAll frames2 (receiveAll frames1 buffers).1).1.
Proof.
  revert buffers. induction frames1 as [ | f frames1 IH ]; intros buffers; [ done | ].
  cbn [app receiveAll]. destruct (onMessage f buffers) as [b1 d].
  specialize (IH b1).
  destruct (receiveAll (frames1 ++ frames2) b1) as [b2 rest].
  destruct (receiveAll frames1 b1) as [b3 rest1]. cbn [fst snd] in *.
  done.
Qed.

Section Duplicates.

Variables (chunkId data : string).

Let totalChunks := ceilDiv (String.length data) MAX_CHUNK_SIZE.
Let block (i : nat) := slice data (i * MAX_CHUNK_SIZE) ((i + 1) * MAX_CHUNK_SIZE).
Let envelope (i : nat) := ChunkFrame chunkId i totalChunks (block i).

Lemma block_nonempty i : i < totalChunks → block i ≠ "".
Proof.
  intros Hi. unfold block. rewrite slice_block.
  apply substring_nonempty; [ | apply MAX_CHUNK_SIZE_pos ].
  by apply ceilDiv_tight; [ apply MAX_CHUNK_SIZE_pos | ].
Qed.

Lemma bufferOf_permutation seen seen' :
  seen ≡ₚ seen' → bufferOf data seen = bufferOf data seen'.
Proof.
  intros Hperm. unfold bufferOf, partial. rewrite (Permutation_length Hperm).
  f_equal. apply map_ext. intros i.
  assert (bool_decide (i ∈ seen) = bool_decide (i ∈ seen')) as ->; [ | done ].
  apply bool_decide_ext. by rewrite Hperm.
Qed.

(** The buffers after some, not all, of the envelopes have arrived. *)
Lemma receiveAll_some (indices : list nat) :
  ∀ (seen : list nat) (buffers : gmap string Buffer),
    NoDup (seen ++ indices) →
    Forall (λ j, j < totalChunks) indices →
    length seen + length indices < totalChunks →
    default (freshBuffer data) (buffers !! chunkId) = bufferOf data seen →
    receiveAll (envelope <$> indices) buffers
    = (match indices with
       | [] => buffers
       | _ => <[chunkId := bufferOf data (rev indices ++ seen)]> buffers
       end,
       replicate (length indices) None).
Proof.
  induction indices as [ | j indices IH ]; intros seen buffers Hnodup Hrange Hlen Hbuf; [ done | ].
  apply Forall_cons in Hrange as [Hj Hrange].
  assert (j ∉ seen) as Hseen.
  { apply NoDup_app in Hnodup as (_ & Hdisj & _).
    intros Hin. apply (Hdisj j Hin). apply list_elem_of_here. }
  cbn [length] in Hlen.
  cbn [fmap list_fmap receiveAll]. unfold envelope at 1. cbn [onMessage].
  change {| chunks := replicate totalChunks None; received := 0; total := totalChunks |}
    with (freshBuffer data).
  rewrite Hbuf. cbn [bufferOf chunks received total].
  rewrite vacant_partial by done. cbn [chunks received total].
  rewrite (arraySet_partial chunkId) by done.
  replace (S (length seen) =? ceilDiv (String.length data) MAX_CHUNK_SIZE) with false
    by (symmetry; apply Nat.eqb_neq; fold totalChunks; lia).
  fold (bufferOf data (j :: seen)) in *.
  match goal with
  | |- context [ <[chunkId := ?b]> buffers ] =>
      change b with (bufferOf data (j :: seen))
  end.
  rewrite (IH (j :: seen)).
  - cbn [length replicate]. f_equal. destruct indices as [ | j' indices ]; [ done | ].
    rewrite insert_insert_eq. f_equal. apply bufferOf_permutation.
    cbn [rev]. by rewrite <- (app_assoc _ [j] seen).
  - eapply NoDup_Permutation_proper; [ | exact Hnodup ]. apply Permutation_middle.
  - done.
  - cbn [length]. lia.
  - by rewrite lookup_insert_eq.
Qed.

Lemma onMessage_duplicate j seen (buffers : gmap string Buffer) :
  j ∈ seen → j < totalChunks → length seen < totalChunks →
  buffers !! chunkId = Some (bufferOf data seen) →
  onMessage (envelope j) buffers = (buffers, None).
Proof.
  intros Hin Hj Hlen Hbuf. unfold envelope. cbn [onMessage]. rewrite Hbuf.
  unfold bufferOf in *. cbn [default from_option id chunks received total].
  assert (vacant (partial data seen) j = false) as ->.
  { unfold vacant. rewrite partial_lookup by done.
    rewrite bool_decide_eq_true_2 by done.
    apply String.eqb_neq, block_nonempty, Hj. }
  cbn [received total].
  replace (length seen =? ceilDiv (String.length data) MAX_CHUNK_SIZE) with false
    by (symmetry; apply Nat.eqb_neq; fold totalChunks; lia).
  by rewrite insert_id.
Qed.

End Duplicates.

Lemma receiveAll_app_pair frames1 frames2 (buffers : gmap string Buffer) :
  receiveAll (frames1 ++ frames2) buffers
  = ((receiveAll frames2 (receiveAll frames1 buffers).1).1,
     (receiveAll frames1 buffers).2
     ++ (receiveAll frames2 (receiveAll frames1 buffers).1).2).
Proof.
  rewrite <- receiveAll_app, <- receiveAll_app_state.
  by destruct (receiveAll (frames1 ++ frames2) buffers).
Qed.

(** X11.  Let the chunk envelopes of a message arrive in any order at
    a listener that holds no buffer for their [chunkId], and let one of
    the envelopes that have already arrived arrive a second time before
    the message is complete.  The duplicate is ignored: nothing is handed
    to the handler until the last envelope has arrived, which delivers the
    original text, once, and the buffers are then what they were before. *)
Theorem duplicate_envelope_ignored chunkId data frames k frame
    (buffers : gmap string Buffer) :
  MAX_CHUNK_SIZE < String.length data →
  buffers !! chunkId = None →
  frames ≡ₚ envelopes chunkId data →
  k < length frames → frame ∈ take k frames →
  receiveAll (take k frames ++ frame :: drop k frames) buffers
  = (buffers, replicate (length frames) None ++ [Some data]).
Proof.
  intros Hbig Hnone Hperm Hk Hin.
  unfold envelopes in Hperm.
  apply Permutation_map_inv in Hperm as (indices & -> & Hindices).
  change (map ?f indices) with (f <$> indices) in *.
  set (total := ceilDiv (String.length data) MAX_CHUNK_SIZE) in *.
  rewrite length_fmap in Hk |- *.
  assert (length indices = total) as Hlen.
  { rewrite <- Hindices. apply length_seq. }
  assert (NoDup indices) as Hnodup by (rewrite <- Hindices; apply NoDup_seq).
  assert (∀ j, j ∈ indices → j < total) as Hrange.
  { intros j Hj. rewrite <- Hindices in Hj. apply elem_of_seq in Hj. lia. }
  rewrite <- fmap_take, <- fmap_drop in *.
  apply list_elem_of_fmap in Hin as (j & -> & Hj).
  assert (length (take k indices) = k) as Htake by (rewrite length_take; lia).
  assert (∀ i, i ∈ take k indices → i ∈ indices) as Hsub.
  { intros i (n & Hn & _)%elem_of_take. by eapply list_elem_of_lookup_2. }
  assert (freshBuffer data = bufferOf data []) as Hfresh.
  { unfold freshBuffer, bufferOf. by rewrite partial_nil. }
  subst total.
  (* the first [k] envelopes *)
  rewrite receiveAll_app_pair.
  pose proof (receiveAll_some chunkId data (take k indices) [] buffers) as Hsome.
  rewrite app_nil_l, Hnone in Hsome. cbn [default from_option length] in Hsome.
  rewrite Hsome; cycle 1.
  { eapply sublist_NoDup; [ exact Hnodup | apply sublist_take ]. }
  { apply Forall_forall. intros i Hi. by apply Hrange, Hsub. }
  { lia. }
  { done. }
  clear Hsome. cbn [fst snd]. rewrite Htake, app_nil_r.
  set (state := match take k indices with
                | [] => buffers
                | _ => <[chunkId := bufferOf data (rev (take k indices))]> buffers
                end).
  assert (state = <[chunkId := bufferOf data (rev (take k indices))]> buffers) as Hstate.
  { subst state. destruct (take k indices); [ by apply elem_of_nil in Hj | done ]. }
  clearbody state. subst state.
  (* the duplicate *)
  cbn [receiveAll].
  rewrite (onMessage_duplicate chunkId data j (rev (take k indices))); cycle 1.
  { by rewrite <- Permutation_rev. }
  { by apply Hrange, Hsub. }
  { rewrite length_rev, Htake. lia. }
  { apply lookup_insert_eq. }
  (* the other envelopes *)
  rewrite (receiveAll_envelopes chunkId data (drop k indices) (rev (take k indices))); cycle 1.
  { intros Hdrop. apply (f_equal length) in Hdrop. rewrite length_drop in Hdrop.
    cbn in Hdrop. lia. }
  { etrans; [ | symmetry; exact Hindices ]. rewrite <- Permutation_rev. by rewrite take_drop. }
  { by rewrite lookup_insert_eq. }
  rewrite delete_insert_eq, delete_id by done. f_equal.
  cbn [snd]. rewrite length_drop, app_comm_cons, app_assoc. f_equal.
  change (None :: replicate ?n None) with (replicate (S n) (@None string)).
  rewrite <- replicate_add. f_equal. lia.
Qed.

Lemma duplicate_envelope_ignored_witness :
  let data := repeatChar (40 * 1024) "a" in
  let frames := rev (envelopes "mjuohs00" data) in
  let frame := ChunkFrame "mjuohs00" 2 3 (slice data (2 * MAX_CHUNK_SIZE) ((2 + 1) * MAX_CHUNK_SIZE)) in
  MAX_CHUNK_SIZE < String.length data ∧
  (∅ : gmap string Buffer) !! "mjuohs00" = None ∧
  frames ≡ₚ envelopes "mjuohs00" data ∧
  2 < length frames ∧ frame ∈ take 2 frames ∧
  receiveAll (take 2 frames ++ frame :: drop 2 frames) ∅
  = (∅, replicate (length frames) None ++ [Some data]).
Proof.
  assert (MAX_CHUNK_SIZE < String.length (repeatChar (40 * 1024) "a")) as Hbig.
  { apply Nat.ltb_lt. vm_compute. reflexivity. }
  assert (length (rev (envelopes "mjuohs00" (repeatChar (40 * 1024) "a"))) = 3) as Hlen.
  { rewrite length_rev, length_envelopes. vm_compute. reflexivity. }
  assert (ChunkFrame "mjuohs00" 2 3
            (slice (repeatChar (40 * 1024) "a") (2 * MAX_CHUNK_SIZE) ((2 + 1) * MAX_CHUNK_SIZE))
          ∈ take 2 (rev (envelopes "mjuohs00" (repeatChar (40 * 1024) "a")))) as Hin.
  { unfold envelopes.
    replace (ceilDiv (String.length (repeatChar (40 * 1024) "a")) MAX_CHUNK_SIZE) with 3
      by (vm_compute; reflexivity).
    cbn [seq map rev app take]. apply list_elem_of_here. }
  cbn zeta. split; [ exact Hbig | ]. split; [ reflexivity | ].
  split; [ symmetry; apply Permutation_rev | ].
  split; [ rewrite Hlen; lia | ]. split; [ exact Hin | ].
  apply (duplicate_envelope_ignored "mjuohs00" (repeatChar (40 * 1024) "a")).
  - exact Hbig.
  - reflexivity.
  - symmetry. apply Permutation_rev.
  - rewrite Hlen. lia.
  - exact Hin.
Defined.

End Channel.

(* ===================================================================== *)
(** * The sync protocol and the pairing wizard                            *)
(* ===================================================================== *)

Module Engine.
Import Json SignalingCodec Fragments Store Merge Channel.

(** What the manager shows to the user, in the order shown. *)
Inductive UiEvent : Type :=
  | ToastDisconnected                 (* 连接已断开，请重新连接 (error) *)
  | ToastRequestSent                  (* 同步请求已发送 (info) *)
  | ToastSyncFailed (e : SendError)   (* 同步失败: ... (error) *)
  | ToastSendDataFailed               (* 发送同步数据失败 (error) *)
  | ToastReceived (counts : MergedCount)   (* 接收完成：... (success) *)
  | ToastMergeFailed (e : SendError)  (* 同步合并失败: ... (error) *)
  | ToastSyncDone (counts : option MergedCount)  (* 同步完成！... (success) *)
  | ToastFragmentSeen                 (* 已识别分片，请继续扫描剩余二维码 (info) *)
  | ToastInvalidOffer                 (* 无效的连接信息 (error) *)
  | ToastInvalidAnswer                (* 应答码无效或连接失败 (error) *)
  | ToastEnterAnswer                  (* 请输入对方的应答码 (error) *)
  | ToastConnected                    (* 连接成功！正在同步... (success) *)
  | StatusProcessing                  (* 正在处理连接信息... *)
  | StatusFailed                      (* 处理失败: ... *)
  | ShowAnswer (answer : json)        (* the answer step, with its codes *)
  | ShowDone                          (* the last step of the wizard *)
  | TreeRendered                      (* directoryTree.render() *)
  | WizardClosesIn (ms : nat).        (* setTimeout(() => closeWizard(), ms) *)

(** What is known of an [RTCPeerConnection]: the remote description
    and the remote candidates given to it. *)
Record PeerConnection := {
  remoteDescription : option (string * option json);
  remoteCandidates : list json
}.

Definition newPeerConnection : PeerConnection :=
  {| remoteDescription := None; remoteCandidates := [] |}.

Record SyncManager := {
  db : DB;
  ticks : nat;
  link : Link;
  channelReady : bool;
  syncInProgress : bool;
  scan : ScanState;
  currentPeerConnection : option PeerConnection;
  deviceId : string;
  ui : list UiEvent
}.

(** A message of the sync protocol, as [handleSyncMessage] reads it
    after [JSON.parse]: its [type], and for [sync_data] and [sync_ack]
    the three arrays of records. *)
Inductive SyncMessage : Type :=
  | SyncRequest
  | SyncDataMsg (payload : SyncData)
  | SyncAckMsg (payload : SyncData)
  | OtherMsg.

(** Why a scanned or pasted code was not accepted. *)
Inductive Failure : Type :=
  | SyntaxError                 (* JSON.parse threw *)
  | TypeError                   (* a property of null, or a value that is not iterable *)
  | InvalidSignaling            (* new Error('无效的连接信息') / new Error('无效的应答数据') *)
  | TransportRejected.          (* a call on the peer connection rejected, or the wait timed out *)

Inductive Outcome : Type :=
  | AwaitingFragments           (* returns false: keep scanning *)
  | Rejected (e : Failure)      (* the catch block ran; returns true *)
  | Answered (answer : json)    (* the offer was accepted and the answer is shown *)
  | Connected.                  (* the answer was applied and the channel opened *)

Section WithEnvironment.

Variable Date_time : json → option Z.
Variable clock : nat → Now.
Variable JSON_stringify : json → string.
Variable JSON_parse : string → option json.
Variable frameBytes : Frame → nat.
Variable afterTimeout : DataChannel → DataChannel.

(** The WebRTC calls of the wizard: whether [setRemoteDescription] and
    [addIceCandidate] resolve, the local description and the candidates
    gathered for an answer ([None] when a call rejects), and whether the
    data channel opens within the 30 s of [waitForConnection]. *)
Variable acceptsDescription : string → option json → bool.
Variable acceptsCandidate : json → bool.
Variable localAnswer : PeerConnection → option (json * list json).
Variable connects : PeerConnection → bool.

(** Whether the code generator can put a text into a single code. *)
Variable fitsOneCode : string → bool.

Definition notify (e : UiEvent) (m : SyncManager) : SyncManager :=
  {| db := db m; ticks := ticks m; link := link m; channelReady := channelReady m;
     syncInProgress := syncInProgress m; scan := scan m;
     currentPeerConnection := currentPeerConnection m; deviceId := deviceId m;
     ui := ui m ++ [e] |}.

Definition setSyncInProgress (b : bool) (m : SyncManager) : SyncManager :=
  {| db := db m; ticks := ticks m; link := link m; channelReady := channelReady m;
     syncInProgress := b; scan := scan m;
     currentPeerConnection := currentPeerConnection m; deviceId := deviceId m;
     ui := ui m |}.

Definition setLink (l : Link) (m : SyncManager) : SyncManager :=
  {| db := db m; ticks := ticks m; link := l; channelReady := channelReady m;
     syncInProgress := syncInProgress m; scan := scan m;
     currentPeerConnection := currentPeerConnection m; deviceId := deviceId m;
     ui := ui m |}.

Definition setStore (d : DB) (t : nat) (m : SyncManager) : SyncManager :=
  {| db := d; ticks := t; link := link m; channelReady := channelReady m;
     syncInProgress := syncInProgress m; scan := scan m;
     currentPeerConnection := currentPeerConnection m; deviceId := deviceId m;
     ui := ui m |}.

Definition setScan (s : ScanState) (m : SyncManager) : SyncManager :=
  {| db := db m; ticks := ticks m; link := link m; channelReady := channelReady m;
     syncInProgress := syncInProgress m; scan := s;
     currentPeerConnection := currentPeerConnection m; deviceId := deviceId m;
     ui := ui m |}.

Definition setPeerConnection (pc : option PeerConnection) (m : SyncManager)
    : SyncManager :=
  {| db := db m; ticks := ticks m; link := link m; channelReady := channelReady m;
     syncInProgress := syncInProgress m; scan := scan m;
     currentPeerConnection := pc; deviceId := deviceId m;
     ui := ui m |}.

(** [this.currentDataChannel?.readyState === 'open']. *)
Definition isChannelOpen (m : SyncManager) : bool :=
  match currentDataChannel (link m) with
  | Some channel => bool_decide (readyState channel = Open)
  | None => false
  end.

(** [this.sendMessage(object)]: one clock reading serves the timestamp
    of the message and the chunk id. *)
Definition send (fuel : nat) (message : Now → json) (m : SyncManager)
    : SyncManager * SendOutcome :=
  let now := clock (ticks m) in
  let '(link', outcome) :=
    sendMessage JSON_stringify frameBytes afterTimeout fuel (Z.to_N (nowMs now))
      (Value (message now)) true (link m) in
  (setLink link' (setStore (db m) (S (ticks m)) m), outcome).

Definition records (xs : list Entity) : json := JArr (JObj <$> xs).

(** [{ type, notes, notebooks, folders, timestamp }] with the whole of
    the three stores. *)
Definition snapshotMessage (type : string) (d : DB) (now : Now) : json :=
  JObj (<["type" := JStr type]>
        (<["notes" := records (getAll (notes d))]>
        (<["notebooks" := records (getAll (notebooks d))]>
        (<["folders" := records (getAll (folders d))]>
        (<["timestamp" := JStr (nowISO now)]> ∅))))).

Definition requestMessage (device : string) (now : Now) : json :=
  JObj (<["type" := JStr "sync_request"]>
        (<["deviceId" := JStr device]>
        (<["timestamp" := JStr (nowISO now)]> ∅))).

(** [startSync()]. *)
Definition startSync (fuel : nat) (m : SyncManager) : SyncManager :=
  if isChannelOpen m then
    let m1 := setSyncInProgress true m in
    match send fuel (requestMessage (deviceId m1)) m1 with
    | (m2, Failed e) => setSyncInProgress false (notify (ToastSyncFailed e) m2)
    | (m2, StillWaiting) => m2
    | (m2, _) => notify ToastRequestSent m2
    end
  else notify ToastDisconnected m.

(** [handleSyncRequest(message)]. *)
Definition handleSyncRequest (fuel : nat) (m : SyncManager) : SyncManager :=
  if isChannelOpen m then
    let m1 := setSyncInProgress true m in
    match send fuel (snapshotMessage "sync_data" (db m1)) m1 with
    | (m2, Failed _) => notify ToastSendDataFailed (setSyncInProgress false m2)
    | (m2, _) => m2
    end
  else notify ToastDisconnected m.

(** [handleSyncData(message)]. *)
Definition handleSyncData (fuel : nat) (payload : SyncData) (m : SyncManager)
    : SyncManager :=
  let m1 := setSyncInProgress true m in
  let '(db', ticks', mergedCount) :=
    mergeRemoteData Date_time clock payload (db m1) (ticks m1) in
  let m2 := setStore db' ticks' m1 in
  let finish m' :=
    notify (WizardClosesIn 2000) (notify TreeRendered (setSyncInProgress false m')) in
  if isChannelOpen m2 then
    match send fuel (snapshotMessage "sync_ack" (db m2)) m2 with
    | (m3, Failed e) => notify (ToastMergeFailed e) (setSyncInProgress false m3)
    | (m3, StillWaiting) => m3
    | (m3, _) => finish (notify (ToastReceived mergedCount) m3)
    end
  else finish m2.

(** [handleSyncMessage(data)] after [JSON.parse(data)]. *)
Definition handleSyncMessage (fuel : nat) (message : SyncMessage) (m : SyncManager)
    : SyncManager :=
  match message with
  | SyncRequest => handleSyncRequest fuel m
  | SyncDataMsg payload => handleSyncData fuel payload m
  | SyncAckMsg payload =>
      let present (xs : option (list Entity)) := bool_decide (is_Some xs) in
      let m1 :=
        if present (msg_notes payload) || present (msg_notebooks payload)
           || present (msg_folders payload)
        then
          let '(db', ticks', counts) :=
            mergeRemoteData Date_time clock payload (db m) (ticks m) in
          notify TreeRendered (notify (ToastSyncDone (Some counts)) (setStore db' ticks' m))
        else notify (ToastSyncDone None) m in
      notify (WizardClosesIn 1500) (setSyncInProgress false m1)
  | OtherMsg => m
  end.

(** ** The pairing wizard: accepting an offer, applying an answer *)

(** [JSON.parse(this.decompressSignalingData(text))].
    [decompressSignalingData] parses the text with [parseJsonSafe]; when
    that fails or gives a falsy value it returns the text itself, which
    [JSON.parse] then parses (or throws on: [None]); otherwise it returns
    [JSON.stringify] of the expanded value, which is parsed back at once:
    [JSON.parse(JSON.stringify(v))] is taken to be [v] for a value that
    came out of [JSON.parse]. *)
Definition parseDecompressed (text : string) : option json :=
  match JSON_parse text with
  | None => None
  | Some parsed => Some (if truthy parsed then expandSignaling parsed true else parsed)
  end.

(** The kind of a complete payload: the [type] of what it decompresses
    to, if it has one. *)
Definition kindOf (text : string) : option json :=
  match parseDecompressed text with
  | Some v => prop "type" v
  | None => None
  end.

(** [v !== 'kind'] for a property read [v]. *)
Definition isNot (kind : string) (v : option json) : bool :=
  match v with
  | Some (JStr s) => negb (String.eqb s kind)
  | _ => true
  end.

(** [await pc.setRemoteDescription({ type, sdp })]. *)
Definition setRemoteDescription (type : string) (sdp : option json)
    (pc : PeerConnection) : option PeerConnection :=
  if acceptsDescription type sdp
  then Some {| remoteDescription := Some (type, sdp);
               remoteCandidates := remoteCandidates pc |}
  else None.

(** [for (const candidate of candidates) await pc.addIceCandidate(candidate)]:
    the connection as the loop leaves it, and whether it ran to its end. *)
Fixpoint addIceCandidates (candidates : list json) (pc : PeerConnection)
    : PeerConnection * bool :=
  match candidates with
  | [] => (pc, true)
  | candidate :: rest =>
      if acceptsCandidate candidate
      then addIceCandidates rest
             {| remoteDescription := remoteDescription pc;
                remoteCandidates := remoteCandidates pc ++ [candidate] |}
      else (pc, false)
  end.

(** [if (data.candidates) { for (const candidate of data.candidates) ... }]:
    a truthy value that is not an array throws a [TypeError] (it is not
    iterable, or its elements are not candidates). *)
Definition addRemoteCandidates (candidates : option json) (pc : PeerConnection)
    : PeerConnection * option Failure :=
  match candidates with
  | Some (JArr cs) =>
      let '(pc', ok) := addIceCandidates cs pc in
      (pc', if ok then None else Some TransportRejected)
  | Some v => (pc, if truthy v then Some TypeError else None)
  | None => (pc, None)
  end.

(** The ['open'] listener of [setupDataChannel]: the channel is ready
    and [flushSendQueue] hands the queued texts to it, in order. *)
Definition onChannelOpen (m : SyncManager) : SyncManager :=
  let opened :=
    match currentDataChannel (link m) with
    | Some c => {| readyState := Open; bufferedAmount := bufferedAmount c |}
    | None => {| readyState := Open; bufferedAmount := 0 |}
    end in
  let frames := DataFrame <$> sendQueue (link m) in
  {| db := db m; ticks := ticks m;
     link := {| currentDataChannel :=
                  Some (foldl (λ c f, channelSend frameBytes f c) opened frames);
                sendQueue := []; sent := sent (link m) ++ frames |};
     channelReady := true; syncInProgress := syncInProgress m; scan := scan m;
     currentPeerConnection := currentPeerConnection m; deviceId := deviceId m;
     ui := ui m |}.

(** [onConnected()]. *)
Definition onConnected (fuel : nat) (m : SyncManager) : SyncManager :=
  startSync fuel (notify ToastConnected (notify ShowDone m)).

(** [processScannedOffer(offerText)]. *)
Definition processScannedOffer (m : SyncManager) (offerText : string)
    : SyncManager * Outcome :=
  let m0 := notify StatusProcessing m in
  let '(scan', result) := handleScannedPayload offerText (scan m0) in
  let m1 := setScan scan' m0 in
  let fail (e : Failure) (m' : SyncManager) :=
    (notify ToastInvalidOffer (notify StatusFailed m'), Rejected e) in
  match result with
  | Incomplete => (notify ToastFragmentSeen m1, AwaitingFragments)
  | Complete data =>
      match parseDecompressed data with
      | None => fail SyntaxError m1
      | Some JNull => fail TypeError m1
      | Some offerData =>
          if isNot "offer" (prop "type" offerData) then fail InvalidSignaling m1
          else
            let m2 := setPeerConnection (Some newPeerConnection) m1 in
            match setRemoteDescription "offer" (prop "sdp" offerData) newPeerConnection with
            | None => fail TransportRejected m2
            | Some pc1 =>
                match addRemoteCandidates (prop "candidates" offerData) pc1 with
                | (pc2, Some e) => fail e (setPeerConnection (Some pc2) m2)
                | (pc2, None) =>
                    let m3 := setPeerConnection (Some pc2) m2 in
                    match localAnswer pc2 with
                    | None => fail TransportRejected m3
                    | Some (sdp, candidates) =>
                        let answerData :=
                          JObj (<["type" := JStr "answer"]>
                                (<["sdp" := sdp]>
                                (<["candidates" := JArr candidates]> ∅))) in
                        (notify (ShowAnswer answerData) m3, Answered answerData)
                    end
                end
            end
      end
  end.

(** [processAnswerText(answerText, allowToast)]. *)
Definition processAnswerText (fuel : nat) (m : SyncManager) (answerText : string)
    (allowToast : bool) : SyncManager * Outcome :=
  let toast (e : UiEvent) (m' : SyncManager) := if allowToast then notify e m' else m' in
  if String.eqb answerText "" then (toast ToastEnterAnswer m, AwaitingFragments)
  else
    let '(scan', result) := handleScannedPayload answerText (scan m) in
    let m1 := setScan scan' m in
    let fail (e : Failure) (m' : SyncManager) := (toast ToastInvalidAnswer m', Rejected e) in
    match result with
    | Incomplete => (toast ToastFragmentSeen m1, AwaitingFragments)
    | Complete data =>
        match parseDecompressed data with
        | None => fail SyntaxError m1
        | Some JNull => fail TypeError m1
        | Some answerData =>
            if isNot "answer" (prop "type" answerData) then fail InvalidSignaling m1
            else
              match currentPeerConnection m1 with
              | None => fail TypeError m1
              | Some pc =>
                  match setRemoteDescription "answer" (prop "sdp" answerData) pc with
                  | None => fail TransportRejected m1
                  | Some pc1 =>
                      match addRemoteCandidates (prop "candidates" answerData) pc1 with
                      | (pc2, Some e) => fail e (setPeerConnection (Some pc2) m1)
                      | (pc2, None) =>
                          let m2 := setPeerConnection (Some pc2) m1 in
                          if connects pc2
                          then (onConnected fuel (onChannelOpen m2), Connected)
                          else fail TransportRejected m2
                      end
                  end
              end
        end
    end.

(** ** The text that goes into the codes *)

(** [parseJsonSafe(input)]: an object or an array is returned as it is,
    a string is parsed, anything else is [null]; [None] stands for
    [null], also when [JSON.parse] throws. *)
Definition parseJsonSafe (input : json) : option json :=
  match input with
  | JArr _ | JObj _ => Some input
  | JStr s => JSON_parse s
  | _ => None
  end.

(** [typeof data === 'string' ? data : JSON.stringify(data)]. *)
Definition textOf (data : json) : string :=
  match data with
  | JStr s => s
  | _ => JSON_stringify data
  end.

(** [compressSignalingData(data)]. *)
Definition compressSignalingData (data : json) : string :=
  match parseJsonSafe data with
  | Some parsed =>
      if truthy parsed then JSON_stringify (compactSignaling parsed true)
      else textOf data
  | None => textOf data
  end.

(** [decompressSignalingData(compressed)]. *)
Definition decompressSignalingData (compressed : json) : string :=
  match parseJsonSafe compressed with
  | Some parsed =>
      if truthy parsed then JSON_stringify (expandSignaling parsed true)
      else textOf compressed
  | None => textOf compressed
  end.

(** The codes that [renderQRCodes(data, ...)] shows: the compressed text
    in one code when the generator can make one of it (what
    [tryRenderSingleQRCode] finds out), otherwise one code per slice of
    [splitIntoChunks], wrapped with its number and the number of slices.
    The carousel always shows a first code: with no slice at all it is
    the wrapping of [chunks[0]], which is [undefined]. *)
Definition renderQRCodes (fuel : nat) (data : json) : option (list string) :=
  let compressed := compressSignalingData data in
  if fitsOneCode compressed then Some [compressed]
  else
    match splitIntoChunks fuel compressed defaultChunkSize with
    | None => None
    | Some [] => Some [wrapChunk 1 0 "undefined"]
    | Some chunks => Some (wrapAll chunks)
    end.

(** The joiner scanning codes one after the other, each handed to
    [processScannedOffer]: the manager afterwards and what each scan
    came to. *)
Fixpoint scanOffers (raws : list string) (m : SyncManager)
    : SyncManager * list Outcome :=
  match raws with
  | [] => (m, [])
  | raw :: rest =>
      let '(m1, outcome) := processScannedOffer m raw in
      let '(m2, outcomes) := scanOffers rest m1 in
      (m2, outcome :: outcomes)
  end.

(** The claim of C1 on the two handlers: with the flag set, an incoming
    [sync_request] or [sync_data] changes neither the store nor what was
    sent. *)
Definition RejectsSecondSync : Prop :=
  ∀ fuel message m,
    syncInProgress m = true →
    (message = SyncRequest ∨ ∃ payload, message = SyncDataMsg payload) →
    db (handleSyncMessage fuel message m) = db m ∧
    sent (link (handleSyncMessage fuel message m)) = sent (link m).

(** Two states of the manager that differ at most in the flag. *)
Definition sameButFlag (m1 m2 : SyncManager) : Prop :=
  setSyncInProgress false m1 = setSyncInProgress false m2.

(** A property of what a complete payload decompresses to. *)
Definition payloadProp (name : string) (text : string) : option json :=
  match parseDecompressed text with
  | Some v => prop name v
  | None => None
  end.

(** What C9 says of a complete payload [data] that the scanner returned
    for the text [text]. *)
Definition ValidatesKind (fuel : nat) (m : SyncManager) (text data : string) : Prop :=
  (* an offer is expected, the payload is of another kind, or of none *)
  (kindOf data ≠ Some (JStr "offer") →
     ∃ e, (processScannedOffer m text).2 = Rejected e ∧ e ≠ TransportRejected ∧
          (∀ v, parseDecompressed data = Some v → v ≠ JNull → e = InvalidSignaling) ∧
          currentPeerConnection (processScannedOffer m text).1 = currentPeerConnection m ∧
          last (ui (processScannedOffer m text).1) = Some ToastInvalidOffer) ∧
  (* an offer is expected and the payload is one *)
  (kindOf data = Some (JStr "offer") →
     (∀ e, (processScannedOffer m text).2 = Rejected e →
           e = TransportRejected ∨ e = TypeError) ∧
     ∃ pc, currentPeerConnection (processScannedOffer m text).1 = Some pc ∧
           (acceptsDescription "offer" (payloadProp "sdp" data) = true →
            remoteDescription pc = Some ("offer", payloadProp "sdp" data))) ∧
  (* an answer is expected, the payload is of another kind, or of none *)
  (text ≠ "" → kindOf data ≠ Some (JStr "answer") →
     ∀ allowToast,
     ∃ e, (processAnswerText fuel m text allowToast).2 = Rejected e ∧
          e ≠ TransportRejected ∧
          (∀ v, parseDecompressed data = Some v → v ≠ JNull → e = InvalidSignaling) ∧
          currentPeerConnection (processAnswerText fuel m text allowToast).1
            = currentPeerConnection m ∧
          (allowToast = true →
           last (ui (processAnswerText fuel m text allowToast).1) = Some ToastInvalidAnswer)) ∧
  (* an answer is expected and the payload is one *)
  (text ≠ "" → kindOf data = Some (JStr "answer") →
     ∀ allowToast pc,
       currentPeerConnection m = Some pc →
       acceptsDescription "answer" (payloadProp "sdp" data) = true →
       ∃ pc', currentPeerConnection (processAnswerText fuel m text allowToast).1 = Some pc' ∧
              remoteDescription pc' = Some ("answer", payloadProp "sdp" data)).

(** ** Properties *)

(** C1, amended.  [syncInProgress] is a status marker that the handlers
    write and never read: an incoming [sync_request] or [sync_data] is
    processed in the same way whether the flag was set or not.
    [handleSyncData] merges the snapshot into the store and, the channel
    being open, hands the [sync_ack] with its own snapshot to
    [sendMessage]; [handleSyncRequest], the channel being open, hands the
    [sync_data] with the local snapshot to [sendMessage]. *)
Theorem sync_flag_never_consulted fuel payload m :
  let on := setSyncInProgress true m in
  let off := setSyncInProgress false m in
  handleSyncMessage fuel (SyncDataMsg payload) on
    = handleSyncMessage fuel (SyncDataMsg payload) off ∧
  sameButFlag (handleSyncMessage fuel SyncRequest on)
              (handleSyncMessage fuel SyncRequest off) ∧
  db (handleSyncMessage fuel (SyncDataMsg payload) on)
    = (mergeRemoteData Date_time clock payload (db m) (ticks m)).1.1 ∧
  (isChannelOpen m = true →
     link (handleSyncMessage fuel SyncRequest on)
     = (sendMessage JSON_stringify frameBytes afterTimeout fuel
          (Z.to_N (nowMs (clock (ticks m))))
          (Value (snapshotMessage "sync_data" (db m) (clock (ticks m)))) true (link m)).1) ∧
  (isChannelOpen m = true →
     let '(db', ticks', _) := mergeRemoteData Date_time clock payload (db m) (ticks m) in
     link (handleSyncMessage fuel (SyncDataMsg payload) on)
     = (sendMessage JSON_stringify frameBytes afterTimeout fuel
          (Z.to_N (nowMs (clock ticks')))
          (Value (snapshotMessage "sync_ack" db' (clock ticks'))) true (link m)).1).
Proof.
  cbn zeta. cbn [handleSyncMessage]. split; [ | split; [ | split; [ | split ] ] ].
  - done.
  - unfold sameButFlag, handleSyncRequest, isChannelOpen. cbn [setSyncInProgress link].
    destruct (currentDataChannel (link m)) as [ channel | ]; [ | done ].
    case_bool_decide; done.
  - unfold handleSyncData. cbn [setSyncInProgress db ticks].
    destruct (mergeRemoteData _ _ _ _ _) as [[db' ticks'] counts]. cbn [fst].
    unfold isChannelOpen, send. cbn [setStore setSyncInProgress link db ticks].
    destruct (currentDataChannel (link m)) as [ channel | ]; [ | done ].
    case_bool_decide; [ | done ].
    destruct (sendMessage _ _ _ _ _ _ _ _) as [link' [ | | e | ]]; done.
  - intros Hopen. unfold handleSyncRequest.
    replace (isChannelOpen (setSyncInProgress true m)) with true by done.
    unfold send. cbn [setSyncInProgress link db ticks].
    destruct (sendMessage _ _ _ _ _ _ _ _) as [link' [ | | e | ]]; done.
  - intros Hopen. unfold handleSyncData. cbn [setSyncInProgress db ticks].
    destruct (mergeRemoteData _ _ _ _ _) as [[db' ticks'] counts].
    match goal with
    | |- context [ isChannelOpen ?m' ] =>
        replace (isChannelOpen m') with true by done
    end.
    unfold send. cbn [setStore setSyncInProgress link db ticks].
    destruct (sendMessage _ _ _ _ _ _ _ _) as [link' [ | | e | ]]; done.
Qed.

(** ** The kind of a signaling payload *)

Lemma isNot_false kind v : isNot kind v = false ↔ v = Some (JStr kind).
Proof.
  unfold isNot. destruct v as [ [ | b | n | s | l | o ] | ]; try (split; [ done | congruence ]).
  rewrite negb_false_iff, String.eqb_eq. split; congruence.
Qed.

Lemma addIceCandidates_description candidates : ∀ pc,
  remoteDescription (addIceCandidates candidates pc).1 = remoteDescription pc.
Proof.
  induction candidates as [ | c candidates IH ]; intros pc; [ done | ].
  cbn [addIceCandidates]. destruct (acceptsCandidate c); [ | done ]. by rewrite IH.
Qed.

Lemma addRemoteCandidates_description candidates pc :
  remoteDescription (addRemoteCandidates candidates pc).1 = remoteDescription pc.
Proof.
  unfold addRemoteCandidates.
  destruct candidates as [ [ | b | n | s | cs | o ] | ]; try done.
  pose proof (addIceCandidates_description cs pc) as Hcs.
  by destruct (addIceCandidates cs pc).
Qed.

Lemma addRemoteCandidates_failure candidates pc e :
  (addRemoteCandidates candidates pc).2 = Some e →
  e = TransportRejected ∨ e = TypeError.
Proof.
  unfold addRemoteCandidates. intros Hfail.
  repeat case_match; simplify_eq/=; auto.
Qed.

Lemma send_peerConnection fuel message m :
  currentPeerConnection (send fuel message m).1 = currentPeerConnection m.
Proof. unfold send. by destruct (sendMessage _ _ _ _ _ _ _ _). Qed.

Lemma startSync_peerConnection fuel m :
  currentPeerConnection (startSync fuel m) = currentPeerConnection m.
Proof.
  unfold startSync. destruct (isChannelOpen m); [ | done ].
  pose proof (send_peerConnection fuel (requestMessage (deviceId (setSyncInProgress true m)))
                (setSyncInProgress true m)) as Hsend.
  destruct (send _ _ _) as [m' [ | | e | ]]; done.
Qed.

Lemma kind_object kind data :
  kindOf data = Some (JStr kind) →
  ∃ o, parseDecompressed data = Some (JObj o) ∧ o !! "type" = Some (JStr kind).
Proof.
  unfold kindOf. destruct (parseDecompressed data) as [ [ | b | n | s | l | o ] | ];
    try done.
  intros Hkind. by exists o.
Qed.

Lemma wrong_kind kind data v :
  kindOf data ≠ Some (JStr kind) → parseDecompressed data = Some v →
  isNot kind (prop "type" v) = true.
Proof.
  unfold kindOf. intros Hkind Hv. rewrite Hv in Hkind.
  destruct (isNot kind (prop "type" v)) eqn:Hnot; [ done | ].
  by apply isNot_false in Hnot.
Qed.

Ltac ends_with_toast := cbn [fst ui notify setScan]; by rewrite ?app_assoc, last_snoc.

(** C9.  Let the scanner return a complete payload.  When an offer is
    expected and the kind of the payload is not [offer], the payload is
    rejected as invalid signaling (the error thrown is the invalid-kind
    error whenever the payload parses to something other than [null]),
    the error toast is shown and the peer connection of the manager is as
    it was: none is created.  When the kind is [offer], a peer connection
    is created and given the offer, and only the transport can still
    reject.  Likewise for a non-empty text where an answer is expected:
    another kind is rejected and the peer connection is left alone; an
    answer is given to the peer connection as its remote description. *)
Theorem kind_is_validated fuel m text data :
  (handleScannedPayload text (scan m)).2 = Complete data →
  ValidatesKind fuel m text data.
Proof.
  intros Hcomplete. unfold ValidatesKind.
  destruct (handleScannedPayload text (scan m)) as [scan' result] eqn:Hscan.
  cbn [snd] in Hcomplete. subst result.
  split; [ | split; [ | split ] ].
  - intros Hkind. unfold processScannedOffer. cbn [scan notify]. rewrite Hscan.
    destruct (parseDecompressed data) as [ v | ] eqn:Hv.
    + pose proof (wrong_kind "offer" data v Hkind Hv) as Hnot.
      destruct v as [ | b | n | s | l | o ]; rewrite ?Hnot;
        eexists; (split; [ reflexivity | ]); (split; [ done | ]);
        (split; [ intros v' [= <-]; done | ]); (split; [ done | ends_with_toast ]).
    + eexists. split; [ reflexivity | ]. split; [ done | ].
      split; [ done | ]. split; [ done | ends_with_toast ].
  - intros Hkind. destruct (kind_object "offer" data Hkind) as (o & Hv & Htype).
    unfold processScannedOffer, payloadProp. cbn [scan notify]. rewrite Hscan, Hv.
    cbn [prop]. rewrite Htype. cbn [isNot]. rewrite String.eqb_refl. cbn [negb].
    unfold setRemoteDescription.
    destruct (acceptsDescription "offer" (o !! "sdp")) eqn:Haccepts.
    + pose proof (addRemoteCandidates_description (o !! "candidates")
                    {| remoteDescription := Some ("offer", o !! "sdp");
                       remoteCandidates := remoteCandidates newPeerConnection |}) as Hdesc.
      pose proof (addRemoteCandidates_failure (o !! "candidates")
                    {| remoteDescription := Some ("offer", o !! "sdp");
                       remoteCandidates := remoteCandidates newPeerConnection |}) as Hfail.
      destruct (addRemoteCandidates _ _) as [pc2 [ e | ]]; cbn [fst snd] in *.
      * split; [ intros e' [= <-]; by apply Hfail | ]. by exists pc2.
      * destruct (localAnswer pc2) as [ [sdp candidates] | ].
        -- split; [ done | ]. by exists pc2.
        -- split; [ intros e' [= <-]; by left | ]. by exists pc2.
    + split; [ intros e' [= <-]; by left | ]. by exists newPeerConnection.
  - intros Htext Hkind allowToast. unfold processAnswerText.
    replace (String.eqb text "") with false
      by (symmetry; by apply String.eqb_neq).
    rewrite Hscan.
    destruct (parseDecompressed data) as [ v | ] eqn:Hv.
    + pose proof (wrong_kind "answer" data v Hkind Hv) as Hnot.
      destruct v as [ | b | n | s | l | o ]; rewrite ?Hnot;
        eexists; (split; [ reflexivity | ]); (split; [ done | ]);
        (split; [ intros v' [= <-]; done | ]);
        (split; [ by destruct allowToast | intros ->; ends_with_toast ]).
    + eexists. split; [ reflexivity | ]. split; [ done | ].
      split; [ done | ]. split; [ by destruct allowToast | intros ->; ends_with_toast ].
  - intros Htext Hkind allowToast pc Hpc Haccepts.
    destruct (kind_object "answer" data Hkind) as (o & Hv & Htype).
    unfold processAnswerText, payloadProp in *.
    replace (String.eqb text "") with false
      by (symmetry; by apply String.eqb_neq).
    rewrite Hscan, Hv in *. cbn [prop] in *.
    rewrite Htype. cbn [isNot]. rewrite String.eqb_refl. cbn [negb].
    cbn [currentPeerConnection setScan]. rewrite Hpc.
    unfold setRemoteDescription. rewrite Haccepts.
    pose proof (addRemoteCandidates_description (o !! "candidates")
                  {| remoteDescription := Some ("answer", o !! "sdp");
                     remoteCandidates := remoteCandidates pc |}) as Hdesc.
    destruct (addRemoteCandidates _ _) as [pc2 [ e | ]]; cbn [fst] in Hdesc.
    + exists pc2. split; [ by destruct allowToast | done ].
    + destruct (connects pc2).
      * exists pc2. split; [ | done ].
        cbn [fst]. unfold onConnected. by rewrite startSync_peerConnection.
      * exists pc2. split; [ by destruct allowToast | done ].
Qed.

(** ** The compressed text and its reading *)

Lemma parseDecompressed_compressed (v : json) :
  wellFormed v = true → truthy v = true →
  JSON_parse (JSON_stringify (compactSignaling v true)) = Some (compactSignaling v true) →
  parseDecompressed (JSON_stringify (compactSignaling v true)) = Some v.
Proof.
  intros Hwf Htrue Hparse. unfold parseDecompressed. rewrite Hparse.
  assert (truthy (compactSignaling v true) = true) as ->.
  { by destruct v. }
  by rewrite expand_compact_root.
Qed.

(** X12.  What [processScannedOffer] and [processAnswerText] make of a
    complete text, [JSON.parse(decompressSignalingData(text))], provided
    [JSON.parse] reads back what [JSON.stringify] wrote of the expanded
    payload: a text that is not JSON throws; a text that parses to a falsy
    value ([null], [false], [0], the empty string) gives that value; any
    other text gives the expansion of what it parses to. *)
Theorem parse_of_decompressed text :
  (∀ v, JSON_parse text = Some v → truthy v = true →
        JSON_parse (JSON_stringify (expandSignaling v true))
        = Some (expandSignaling v true)) →
  JSON_parse (decompressSignalingData (JStr text))
  = match JSON_parse text with
    | None => None
    | Some v => Some (if truthy v then expandSignaling v true else v)
    end.
Proof.
  intros Hback. unfold decompressSignalingData. cbn [parseJsonSafe textOf].
  destruct (JSON_parse text) as [ v | ] eqn:Hv; [ | done ].
  destruct (truthy v) eqn:Htrue; [ by apply Hback | done ].
Qed.

(** X13.  The compressed text of a payload in long form (an object or
    an array that uses none of the single-character names) decompresses
    to a text that parses to the payload itself, provided [JSON.parse]
    reads back what [JSON.stringify] wrote of the payload and of its
    compact form. *)
Theorem compress_decompress_text (v : json) :
  wellFormed v = true →
  (∃ items, v = JArr items) ∨ (∃ fields, v = JObj fields) →
  JSON_parse (JSON_stringify (compactSignaling v true)) = Some (compactSignaling v true) →
  JSON_parse (JSON_stringify v) = Some v →
  compressSignalingData v = JSON_stringify (compactSignaling v true) ∧
  JSON_parse (decompressSignalingData (JStr (compressSignalingData v))) = Some v.
Proof.
  intros Hwf Hshape Hcompact Hlong.
  assert (compressSignalingData v = JSON_stringify (compactSignaling v true)) as Hc.
  { by destruct Hshape as [ [items ->] | [fields ->] ]. }
  split; [ done | ]. rewrite Hc.
  unfold decompressSignalingData. cbn [parseJsonSafe textOf]. rewrite Hcompact.
  assert (truthy (compactSignaling v true) = true) as ->.
  { by destruct Hshape as [ [items ->] | [fields ->] ]. }
  by rewrite expand_compact_root.
Qed.

(** ** From the codes of the initiator to the peer connection of the joiner *)

Lemma scanOffers_app raws1 raws2 m :
  scanOffers (raws1 ++ raws2) m
  = ((scanOffers raws2 (scanOffers raws1 m).1).1,
     (scanOffers raws1 m).2 ++ (scanOffers raws2 (scanOffers raws1 m).1).2).
Proof.
  revert m. induction raws1 as [ | raw raws1 IH ]; intros m.
  - cbn. by destruct (scanOffers raws2 m).
  - cbn [app scanOffers]. destruct (processScannedOffer m raw) as [m1 o].
    rewrite IH. by destruct (scanOffers raws1 m1).
Qed.

Lemma processScannedOffer_incomplete m raw :
  (handleScannedPayload raw (scan m)).2 = Incomplete →
  (processScannedOffer m raw).2 = AwaitingFragments ∧
  scan (processScannedOffer m raw).1 = (handleScannedPayload raw (scan m)).1 ∧
  currentPeerConnection (processScannedOffer m raw).1 = currentPeerConnection m.
Proof.
  unfold processScannedOffer. cbn [scan notify].
  destruct (handleScannedPayload raw (scan m)) as [scan' result].
  cbn [snd fst]. by intros ->.
Qed.

Lemma scanOffers_incomplete raws : ∀ m,
  (scanAll raws (scan m)).2 = replicate (length raws) Incomplete →
  (scanOffers raws m).2 = replicate (length raws) AwaitingFragments ∧
  scan (scanOffers raws m).1 = (scanAll raws (scan m)).1 ∧
  currentPeerConnection (scanOffers raws m).1 = currentPeerConnection m.
Proof.
  induction raws as [ | raw raws IH ]; intros m Hrun; [ done | ].
  cbn [scanAll scanOffers length replicate] in *.
  pose proof (processScannedOffer_incomplete m raw) as Hstep.
  destruct (handleScannedPayload raw (scan m)) as [st1 r] eqn:Hscan.
  destruct (processScannedOffer m raw) as [m1 o]. cbn [fst snd] in *.
  specialize (IH m1).
  destruct (scanAll raws st1) as [st2 rs] eqn:Hrest. cbn [fst snd] in *.
  injection Hrun as -> Hrs.
  destruct (Hstep eq_refl) as (-> & Hst1 & Hpc1). rewrite Hst1, Hrest in IH.
  cbn [fst snd] in IH. destruct (IH Hrs) as (Hos & Hst2 & Hpc2).
  destruct (scanOffers raws m1) as [m2 os]. cbn [fst snd] in *.
  subst. split; [ done | ]. split; [ done | congruence ].
Qed.

Lemma processScannedOffer_offer m raw data (o : gmap string json) :
  (handleScannedPayload raw (scan m)).2 = Complete data →
  parseDecompressed data = Some (JObj o) → o !! "type" = Some (JStr "offer") →
  (processScannedOffer m raw).2 ≠ AwaitingFragments ∧
  (∀ e, (processScannedOffer m raw).2 = Rejected e →
        e = TransportRejected ∨ e = TypeError) ∧
  ∃ pc, currentPeerConnection (processScannedOffer m raw).1 = Some pc ∧
        (acceptsDescription "offer" (o !! "sdp") = true →
         remoteDescription pc = Some ("offer", o !! "sdp")).
Proof.
  intros Hcomplete Hv Htype. unfold processScannedOffer. cbn [scan notify].
  destruct (handleScannedPayload raw (scan m)) as [scan' result].
  cbn [snd] in Hcomplete. subst result. rewrite Hv.
  cbn [prop]. rewrite Htype. cbn [isNot]. rewrite String.eqb_refl. cbn [negb].
  unfold setRemoteDescription.
  destruct (acceptsDescription "offer" (o !! "sdp")) eqn:Haccepts.
  - pose proof (addRemoteCandidates_description (o !! "candidates")
                  {| remoteDescription := Some ("offer", o !! "sdp");
                     remoteCandidates := remoteCandidates newPeerConnection |}) as Hdesc.
    pose proof (addRemoteCandidates_failure (o !! "candidates")
                  {| remoteDescription := Some ("offer", o !! "sdp");
                     remoteCandidates := remoteCandidates newPeerConnection |}) as Hfail.
    destruct (addRemoteCandidates _ _) as [pc2 [ e | ]]; cbn [fst snd] in *.
    + split; [ done | ]. split; [ intros e' [= <-]; by apply Hfail | ]. by exists pc2.
    + destruct (localAnswer pc2) as [ [sdp candidates] | ].
      * split; [ done | ]. split; [ done | ]. by exists pc2.
      * split; [ done | ]. split; [ intros e' [= <-]; by left | ]. by exists pc2.
  - split; [ done | ]. split; [ intros e' [= <-]; by left | ]. by exists newPeerConnection.
Qed.

(** The scans of the codes of a text: all but the last report an
    incomplete payload, the last one returns the text. *)
Lemma codes_scanned fuel (data : json) codes raws st :
  (∀ rest, compressSignalingData data ≠ "KTN1:" +:+ rest) →
  renderQRCodes fuel data = Some codes →
  raws ≡ₚ codes →
  scanChunks st = ∅ →
  ∃ init final,
    raws = init ++ [final] ∧
    (scanAll init st).2 = replicate (length init) Incomplete ∧
    (handleScannedPayload final (scanAll init st).1).2
    = Complete (compressSignalingData data).
Proof.
  intros Hplain Hcodes Hperm Hst. unfold renderQRCodes in Hcodes. cbn zeta in Hcodes.
  set (compressed := compressSignalingData data) in *.
  destruct (fitsOneCode compressed).
  - injection Hcodes as <-. apply Permutation_singleton_r in Hperm as ->.
    exists [], compressed. split; [ done | ]. split; [ done | ].
    cbn [scanAll fst]. by rewrite handleScannedPayload_plain.
  - destruct (splitIntoChunks fuel compressed defaultChunkSize) as [ chunks | ] eqn:Hsplit;
      [ | done ].
    apply splitIntoChunks_result in Hsplit as [Hjoin Hne]; [ | unfold defaultChunkSize; lia ].
    destruct chunks as [ | c chunks ].
    + injection Hcodes as <-. apply Permutation_singleton_r in Hperm as ->.
      exists [], (wrapChunk 1 0 "undefined"). split; [ done | ]. split; [ done | ].
      cbn [scanAll fst].
      rewrite (handleScannedPayload_chunk _
                 {| Fragments.index := 1; Fragments.total := 0;
                    Fragments.payload := "undefined" |})
        by (by apply parseChunk_wrapChunk).
      cbn [snd Fragments.index Fragments.total Fragments.payload]. cbn zeta. rewrite Hst.
      by rewrite <- Hjoin.
    + injection Hcodes as <-.
      assert (raws ≠ []) as Hraws.
      { intros ->. apply Permutation_nil_l in Hperm. by destruct chunks. }
      rewrite <- Hjoin. apply scanAll_last; [ done | ].
      by apply scanAll_wrapAll.
Qed.

(** X14.  From the initiator to the joiner.  Let the initiator show
    the codes of an offer in long form (one code, or the numbered
    fragments of its compressed text), and let the joiner, whose scanner
    was reset, scan every code once, in any order.  Provided [JSON.parse]
    reads back what [JSON.stringify] wrote of the compact offer, and that
    text does not itself begin with the tag of a fragment: every scan but
    the last only asks for the remaining fragments; the last one accepts
    the payload as an offer, creates the peer connection and hands it the
    session description of the offer, so that only the transport can
    still fail. *)
Theorem offer_read_from_codes fuel (offer : gmap string json) codes raws m :
  offer !! "type" = Some (JStr "offer") →
  wellFormed (JObj offer) = true →
  JSON_parse (JSON_stringify (compactSignaling (JObj offer) true))
  = Some (compactSignaling (JObj offer) true) →
  (∀ rest, JSON_stringify (compactSignaling (JObj offer) true) ≠ "KTN1:" +:+ rest) →
  renderQRCodes fuel (JObj offer) = Some codes →
  raws ≡ₚ codes →
  scanChunks (scan m) = ∅ →
  ∃ final pc,
    (scanOffers raws m).2 = replicate (length raws - 1) AwaitingFragments ++ [final] ∧
    final ≠ AwaitingFragments ∧
    (∀ e, final = Rejected e → e = TransportRejected ∨ e = TypeError) ∧
    currentPeerConnection (scanOffers raws m).1 = Some pc ∧
    (acceptsDescription "offer" (offer !! "sdp") = true →
     remoteDescription pc = Some ("offer", offer !! "sdp")).
Proof.
  intros Htype Hwf Hparse Hplain Hcodes Hperm Hscan.
  destruct (codes_scanned fuel (JObj offer) codes raws (scan m) Hplain Hcodes Hperm Hscan)
    as (init & last & -> & Hinit & Hlast).
  change (compressSignalingData (JObj offer))
    with (JSON_stringify (compactSignaling (JObj offer) true)) in Hlast.
  destruct (scanOffers_incomplete init m Hinit) as (Hos & Hst & Hpc).
  rewrite <- Hst in Hlast.
  destruct (processScannedOffer_offer (scanOffers init m).1 last _ offer Hlast
              (parseDecompressed_compressed (JObj offer) Hwf eq_refl Hparse) Htype)
    as (Hfinal & Hrejected & pc & Hpc' & Hdesc).
  rewrite scanOffers_app. cbn [scanOffers fst snd].
  destruct (processScannedOffer (scanOffers init m).1 last) as [m' final].
  cbn [fst snd] in *. exists final, pc.
  rewrite Hos, length_app. cbn [length].
  replace (length init + 1 - 1) with (length init) by lia. done.
Qed.

End WithEnvironment.

(** ** Sample runs *)

(** A manager in the middle of a sync: the flag is set, the channel is
    open, the store is empty. *)
Definition busyManager : SyncManager :=
  {| db := emptyDB; ticks := 0; link := openLink; channelReady := true;
     syncInProgress := true; scan := freshScan;
     currentPeerConnection := None; deviceId := "device"; ui := [] |}.

(** C1, as stated, fails: with [syncInProgress] set, an incoming
    [sync_data] is merged into the store and answered with a [sync_ack],
    and an incoming [sync_request] is answered with a [sync_data]. *)
Lemma second_sync_is_processed :
  let handle :=
    handleSyncMessage sampleDates sampleClock (λ _, "{}") textBytes promptChannel 1 in
  let incoming := SyncDataMsg (onlyFolders [folderF1 "Work" "2026-01-01T00:00:00Z"]) in
  syncInProgress busyManager = true ∧
  (r ← folders (db (handle incoming busyManager)) !! KStr "F1"; r !! "name")
    = Some (JStr "Work") ∧
  sent (link (handle incoming busyManager)) = [DataFrame "{}"] ∧
  sent (link (handle SyncRequest busyManager)) = [DataFrame "{}"] ∧
  ¬ RejectsSecondSync sampleDates sampleClock (λ _, "{}") textBytes promptChannel.
Proof.
  cbn zeta.
  assert (sent (link (handleSyncMessage sampleDates sampleClock (λ _, "{}") textBytes
                        promptChannel 1 SyncRequest busyManager)) = [DataFrame "{}"])
    as Hrequest by (vm_compute; reflexivity).
  split; [ reflexivity | ].
  split; [ vm_compute; reflexivity | ].
  split; [ vm_compute; reflexivity | ].
  split; [ exact Hrequest | ].
  intros Hrejects.
  destruct (Hrejects 1 SyncRequest busyManager eq_refl (or_introl eq_refl)) as [_ Hsent].
  rewrite Hrequest in Hsent. discriminate.
Qed.

Definition doubleQuote : ascii := "034"%char.

Definition quoted (s : string) : string :=
  String doubleQuote s +:+ String doubleQuote "".

(** The JSON text of an answer, and a parser that knows this text. *)
Definition sampleAnswerText : string :=
  "{" +:+ quoted "type" +:+ ":" +:+ quoted "answer" +:+ ","
      +:+ quoted "sdp" +:+ ":" +:+ quoted "v=0" +:+ "}".

Definition sampleParse (text : string) : option json :=
  if String.eqb text sampleAnswerText
  then Some (JObj (<["type" := JStr "answer"]> (<["sdp" := JStr "v=0"]> ∅)))
  else None.

Definition pairingManager : SyncManager :=
  {| db := emptyDB; ticks := 0;
     link := {| currentDataChannel := Some {| readyState := Connecting; bufferedAmount := 0 |};
                sendQueue := []; sent := [] |};
     channelReady := false; syncInProgress := false; scan := freshScan;
     currentPeerConnection := Some newPeerConnection; deviceId := "device"; ui := [] |}.

Lemma kind_is_validated_witness :
  (handleScannedPayload sampleAnswerText (scan pairingManager)).2
    = Complete sampleAnswerText ∧
  ValidatesKind sampleClock (λ _, "{}") sampleParse textBytes promptChannel
    (λ _ _, true) (λ _, true) (λ _, Some (JStr "v=0", [])) (λ _, true)
    1 pairingManager sampleAnswerText sampleAnswerText.
Proof.
  split; [ reflexivity | ].
  exact (kind_is_validated sampleClock (λ _, "{}") sampleParse textBytes promptChannel
           (λ _ _, true) (λ _, true) (λ _, Some (JStr "v=0", [])) (λ _, true)
           1 pairingManager sampleAnswerText sampleAnswerText eq_refl).
Defined.

(** The sample answer is rejected where an offer is expected, and
    applied where an answer is expected. *)
Example sample_answer_runs :
  (processScannedOffer sampleParse (λ _ _, true) (λ _, true)
     (λ _, Some (JStr "v=0", [])) pairingManager sampleAnswerText).2
    = Rejected InvalidSignaling ∧
  (processAnswerText sampleClock (λ _, "{}") sampleParse textBytes promptChannel
     (λ _ _, true) (λ _, true) (λ _, true) 1 pairingManager sampleAnswerText true).2
    = Connected.
Proof. split; vm_compute; reflexivity. Qed.

(** An offer, its long and its compact form as texts, and a
    [JSON.stringify] and a [JSON.parse] that know the two. *)
Definition sampleOfferFields : gmap string json :=
  <["type" := JStr "offer"]> (<["sdp" := JStr "v=0"]> ∅).

Definition sampleOfferText : string :=
  "{" +:+ quoted "type" +:+ ":" +:+ quoted "offer" +:+ ","
      +:+ quoted "sdp" +:+ ":" +:+ quoted "v=0" +:+ "}".

Definition sampleCompactText : string :=
  "{" +:+ quoted "t" +:+ ":" +:+ quoted "offer" +:+ ","
      +:+ quoted "s" +:+ ":" +:+ quoted "v=0" +:+ "}".

Definition offerStringify (v : json) : string :=
  match prop "t" v with
  | Some _ => sampleCompactText
  | None => sampleOfferText
  end.

Definition offerParse (text : string) : option json :=
  if String.eqb text sampleCompactText
  then Some (compactSignaling (JObj sampleOfferFields) true)
  else if String.eqb text sampleOfferText then Some (JObj sampleOfferFields)
  else None.

Lemma parse_of_decompressed_witness :
  (∀ v, offerParse sampleCompactText = Some v → truthy v = true →
        offerParse (offerStringify (expandSignaling v true))
        = Some (expandSignaling v true)) ∧
  offerParse (decompressSignalingData offerStringify offerParse (JStr sampleCompactText))
  = match offerParse sampleCompactText with
    | None => None
    | Some v => Some (if truthy v then expandSignaling v true else v)
    end.
Proof.
  assert (∀ v, offerParse sampleCompactText = Some v → truthy v = true →
               offerParse (offerStringify (expandSignaling v true))
               = Some (expandSignaling v true)) as Hback.
  { intros v [= <-] _. vm_compute. reflexivity. }
  split; [ exact Hback | ].
  exact (parse_of_decompressed offerStringify offerParse sampleCompactText Hback).
Defined.

Lemma compress_decompress_text_witness :
  wellFormed (JObj sampleOfferFields) = true ∧
  ((∃ items, JObj sampleOfferFields = JArr items)
   ∨ (∃ fields, JObj sampleOfferFields = JObj fields)) ∧
  offerParse (offerStringify (compactSignaling (JObj sampleOfferFields) true))
  = Some (compactSignaling (JObj sampleOfferFields) true) ∧
  offerParse (offerStringify (JObj sampleOfferFields)) = Some (JObj sampleOfferFields) ∧
  compressSignalingData offerStringify offerParse (JObj sampleOfferFields)
  = offerStringify (compactSignaling (JObj sampleOfferFields) true) ∧
  offerParse (decompressSignalingData offerStringify offerParse
                (JStr (compressSignalingData offerStringify offerParse
                         (JObj sampleOfferFields))))
  = Some (JObj sampleOfferFields).
Proof.
  assert (wellFormed (JObj sampleOfferFields) = true) as Hwf by (vm_compute; reflexivity).
  assert ((∃ items, JObj sampleOfferFields = JArr items)
          ∨ (∃ fields, JObj sampleOfferFields = JObj fields)) as Hshape.
  { right. by eexists. }
  assert (offerParse (offerStringify (compactSignaling (JObj sampleOfferFields) true))
          = Some (compactSignaling (JObj sampleOfferFields) true)) as Hcompact.
  { vm_compute. reflexivity. }
  assert (offerParse (offerStringify (JObj sampleOfferFields))
          = Some (JObj sampleOfferFields)) as Hlong.
  { vm_compute. reflexivity. }
  split; [ exact Hwf | ]. split; [ exact Hshape | ]. split; [ exact Hcompact | ].
  split; [ exact Hlong | ].
  exact (compress_decompress_text offerStringify offerParse (JObj sampleOfferFields)
           Hwf Hshape Hcompact Hlong).
Defined.

Lemma offer_read_from_codes_witness :
  let codes := [wrapChunk 1 1 sampleCompactText] in
  let scanned := scanOffers offerParse (λ _ _, true) (λ _, true)
                   (λ _, Some (JStr "v=0", [])) codes pairingManager in
  sampleOfferFields !! "type" = Some (JStr "offer") ∧
  wellFormed (JObj sampleOfferFields) = true ∧
  offerParse (offerStringify (compactSignaling (JObj sampleOfferFields) true))
  = Some (compactSignaling (JObj sampleOfferFields) true) ∧
  (∀ rest, offerStringify (compactSignaling (JObj sampleOfferFields) true)
           ≠ "KTN1:" +:+ rest) ∧
  renderQRCodes offerStringify offerParse (λ _, false) 40 (JObj sampleOfferFields)
  = Some codes ∧
  codes ≡ₚ codes ∧
  scanChunks (scan pairingManager) = ∅ ∧
  ∃ final pc,
    scanned.2 = replicate (length codes - 1) AwaitingFragments ++ [final] ∧
    final ≠ AwaitingFragments ∧
    (∀ e, final = Rejected e → e = TransportRejected ∨ e = TypeError) ∧
    currentPeerConnection scanned.1 = Some pc ∧
    ((λ _ _, true) "offer" (sampleOfferFields !! "sdp") = true →
     remoteDescription pc = Some ("offer", sampleOfferFields !! "sdp")).
Proof.
  assert (sampleOfferFields !! "type" = Some (JStr "offer")) as Htype by reflexivity.
  assert (wellFormed (JObj sampleOfferFields) = true) as Hwf by (vm_compute; reflexivity).
  assert (offerParse (offerStringify (compactSignaling (JObj sampleOfferFields) true))
          = Some (compactSignaling (JObj sampleOfferFields) true)) as Hparse.
  { vm_compute. reflexivity. }
  assert (∀ rest, offerStringify (compactSignaling (JObj sampleOfferFields) true)
                  ≠ "KTN1:" +:+ rest) as Hplain.
  { intros rest. vm_compute. discriminate. }
  assert (renderQRCodes offerStringify offerParse (λ _, false) 40 (JObj sampleOfferFields)
          = Some [wrapChunk 1 1 sampleCompactText]) as Hcodes.
  { vm_compute. reflexivity. }
  assert (scanChunks (scan pairingManager) = ∅) as Hscan by reflexivity.
  cbn zeta.
  split; [ exact Htype | ]. split; [ exact Hwf | ]. split; [ exact Hparse | ].
  split; [ exact Hplain | ]. split; [ exact Hcodes | ]. split; [ reflexivity | ].
  split; [ exact Hscan | ].
  exact (offer_read_from_codes offerStringify offerParse (λ _ _, true) (λ _, true)
           (λ _, Some (JStr "v=0", [])) (λ _, false) 40 sampleOfferFields
           [wrapChunk 1 1 sampleCompactText] [wrapChunk 1 1 sampleCompactText]
           pairingManager Htype Hwf Hparse Hplain Hcodes (reflexivity _) Hscan).
Defined.

(** The run of the sample: the one fragment scanned, the joiner answers. *)
Example sample_offer_runs :
  ∃ answer,
    (scanOffers offerParse (λ _ _, true) (λ _, true) (λ _, Some (JStr "v=0", []))
       [wrapChunk 1 1 sampleCompactText] pairingManager).2
    = [Answered answer].
Proof. eexists. vm_compute. reflexivity. Qed.

End Engine.

(* ===================================================================== *)
(** * The database manager: the rest of [database.js]                     *)
(* ===================================================================== *)

Module Database.
Import Json Store Merge.

(** What a call of the manager throws (its promise rejects with). *)
Inductive DbError : Type :=
  | DataError           (* IndexedDB: the value is not a valid key *)
  | NotFound            (* new Error('Folder not found') and its siblings *)
  | InvalidBackup       (* new Error('Invalid backup data') *)
  | ImportFailed.       (* transaction.error || new Error('Import failed') *)

(** How a call ends: it returns, it throws, or the fuel of the model ran
    out before it did either. *)
Inductive Run (A : Type) : Type :=
  | Done (a : A)
  | Throws (e : DbError)
  | OutOfFuel.

Arguments Done {A} a.
Arguments Throws {A} e.
Arguments OutOfFuel {A}.

(** A loop [for (const x of xs) await step(x)] over the state [a]. *)
Fixpoint forEach {A X : Type} (step : X → A → Run A) (xs : list X) (a : A) : Run A :=
  match xs with
  | [] => Done a
  | x :: rest =>
      match step x a with
      | Done a' => forEach step rest a'
      | Throws e => Throws e
      | OutOfFuel => OutOfFuel
      end
  end.

(** The order of keys: a number comes before a string, numbers are
    ordered by value, strings by their code units. *)
Definition keyLeb (a b : Key) : bool :=
  match a, b with
  | KNum x, KNum y => (x <=? y)%Z
  | KNum _, KStr _ => true
  | KStr _, KNum _ => false
  | KStr x, KStr y => String.leb x y
  end.

Definition byKey (p q : Key * Entity) : Prop := keyLeb p.1 q.1 = true.

#[global] Instance byKey_dec p q : Decision (byKey p q).
Proof. unfold byKey. apply _. Defined.

(** The records of a store in the order of their keys. *)
Definition inKeyOrder (s : gmap Key Entity) : list Entity :=
  (merge_sort byKey (map_to_list s)).*2.

(** The records whose property [indexName] is the key [value], in the
    order of their own keys. *)
Definition recordsAt (s : gmap Key Entity) (indexName : string) (value : Key)
    : list Entity :=
  filter (λ e, toKey (e !! indexName) = Some value) (inKeyOrder s).

(** The order of an index: by the key that the indexed property holds,
    then by the key of the record. *)
Definition indexLeb (indexName : string) (p q : Key * Entity) : bool :=
  match toKey (p.2 !! indexName), toKey (q.2 !! indexName) with
  | Some a, Some b => if decide (a = b) then keyLeb p.1 q.1 else keyLeb a b
  | _, _ => true
  end.

Definition byIndex (indexName : string) (p q : Key * Entity) : Prop :=
  indexLeb indexName p q = true.

#[global] Instance byIndex_dec indexName p q : Decision (byIndex indexName p q).
Proof. unfold byIndex. apply _. Defined.

(** Every record of an index: a record whose property is not a valid key
    is not in the index. *)
Definition inIndexOrder (s : gmap Key Entity) (indexName : string) : list Entity :=
  (merge_sort (byIndex indexName)
     (filter (λ p, is_Some (toKey (p.2 !! indexName))) (map_to_list s))).*2.

(** [getByIndex(storeName, indexName, value)], that is
    [index.getAll(value)]: the records of the index under the key
    [value]; all records of the index where [value] is [undefined] or
    [null]; a [DataError] where it is any other value that is not a
    key. *)
Definition getByIndex (s : gmap Key Entity) (indexName : string) (value : option json)
    : Run (list Entity) :=
  match value with
  | None | Some JNull => Done (inIndexOrder s indexName)
  | Some v =>
      match toKey (Some v) with
      | Some k => Done (recordsAt s indexName k)
      | None => Throws DataError
      end
  end.

(** [delete(storeName, id)]. *)
Definition deleteRecord (id : option json) (s : gmap Key Entity)
    : Run (gmap Key Entity) :=
  match toKey id with
  | Some k => Done (delete k s)
  | None => Throws DataError
  end.

(** [deleteNote(id)]. *)
Definition deleteNote (id : option json) (db : DB) : Run DB :=
  match deleteRecord id (notes db) with
  | Done notes' =>
      Done {| folders := folders db; notebooks := notebooks db; notes := notes' |}
  | Throws e => Throws e
  | OutOfFuel => OutOfFuel
  end.

(** [deleteNotebook(id)]: the notes of the notebook, then the notebook. *)
Definition deleteNotebook (id : option json) (db : DB) : Run DB :=
  match getByIndex (notes db) "notebookId" id with
  | Done records =>
      match forEach (λ note, deleteNote (note !! "id")) records db with
      | Done db1 =>
          match deleteRecord id (notebooks db1) with
          | Done notebooks' =>
              Done {| folders := folders db1; notebooks := notebooks'; notes := notes db1 |}
          | Throws e => Throws e
          | OutOfFuel => OutOfFuel
          end
      | Throws e => Throws e
      | OutOfFuel => OutOfFuel
      end
  | Throws e => Throws e
  | OutOfFuel => OutOfFuel
  end.

(** [deleteFolder(id)]: the child folders, each with all that is in it,
    then the notebooks of the folder, then the folder.  The recursion
    ends only if the folders below [id] form a tree; [fuel] bounds its
    depth. *)
Fixpoint deleteFolder (fuel : nat) (id : option json) (db : DB) : Run DB :=
  match fuel with
  | 0 => OutOfFuel
  | S fuel' =>
      match getByIndex (folders db) "parentId" id with
      | Done children =>
          match forEach (λ child, deleteFolder fuel' (child !! "id")) children db with
          | Done db1 =>
              match getByIndex (notebooks db1) "folderId" id with
              | Done inside =>
                  match forEach (λ notebook, deleteNotebook (notebook !! "id")) inside db1 with
                  | Done db2 =>
                      match deleteRecord id (folders db2) with
                      | Done folders' =>
                          Done {| folders := folders'; notebooks := notebooks db2;
                                  notes := notes db2 |}
                      | Throws e => Throws e
                      | OutOfFuel => OutOfFuel
                      end
                  | Throws e => Throws e
                  | OutOfFuel => OutOfFuel
                  end
              | Throws e => Throws e
              | OutOfFuel => OutOfFuel
              end
          | Throws e => Throws e
          | OutOfFuel => OutOfFuel
          end
      | Throws e => Throws e
      | OutOfFuel => OutOfFuel
      end
  end.

(** [update(storeName, data)], that is [store.put(data)], on a store
    with the key path [keyPath] and no key generator: the record is filed
    under the key that its property [keyPath] holds. *)
Definition putAt (keyPath : string) (data : Entity) (s : gmap Key Entity)
    : Run (gmap Key Entity) :=
  match toKey (data !! keyPath) with
  | Some k => Done (<[k := data]> s)
  | None => Throws DataError
  end.

Definition put : Entity → gmap Key Entity → Run (gmap Key Entity) := putAt "id".

(** The common shape of [updateFolder(id, updates)],
    [updateNotebook(id, updates)] and [updateNote(id, updates)] on the
    store they work on: the stored object is
    [{ ...record, ...updates, updatedAt: new Date().toISOString() }]. *)
Definition updateRecord (now : Now) (id : option json) (updates : Entity)
    (s : gmap Key Entity) : Run (gmap Key Entity) :=
  match toKey id with
  | None => Throws DataError
  | Some k =>
      match s !! k with
      | None => Throws NotFound
      | Some record => put (<["updatedAt" := JStr (nowISO now)]> (updates ∪ record)) s
      end
  end.

(** The outcome of a call on one store, put back into the database. *)
Definition inStore (c : Collection) (db : DB) (r : Run (gmap Key Entity)) : Run DB :=
  match r with
  | Done s =>
      Done match c with
           | Folders => {| folders := s; notebooks := notebooks db; notes := notes db |}
           | Notebooks => {| folders := folders db; notebooks := s; notes := notes db |}
           | Notes => {| folders := folders db; notebooks := notebooks db; notes := s |}
           end
  | Throws e => Throws e
  | OutOfFuel => OutOfFuel
  end.

Definition updateFolder (now : Now) (id : option json) (updates : Entity) (db : DB) : Run DB :=
  inStore Folders db (updateRecord now id updates (folders db)).

Definition updateNotebook (now : Now) (id : option json) (updates : Entity) (db : DB)
    : Run DB :=
  inStore Notebooks db (updateRecord now id updates (notebooks db)).

Definition updateNote (now : Now) (id : option json) (updates : Entity) (db : DB) : Run DB :=
  inStore Notes db (updateRecord now id updates (notes db)).

(** The folder that a folder lies in, as its [parentId] names it. *)
Definition parentOf (s : gmap Key Entity) (k : Key) : option Key :=
  e ← s !! k; toKey (e !! "parentId").

(** [c] is a folder of the folder [a]. *)
Definition isChildOf (s : gmap Key Entity) (c a : Key) : Prop :=
  parentOf s c = Some a.

(** The folders below a folder, the folder itself included. *)
Inductive within (s : gmap Key Entity) (root : Key) : Key → Prop :=
  | within_root : within s root root
  | within_child k p : parentOf s k = Some p → within s root p → within s root k.

(** The notebooks of the folders below a folder, and their notes. *)
Definition notebookWithin (db : DB) (root n : Key) : Prop :=
  ∃ nb f, notebooks db !! n = Some nb ∧ toKey (nb !! "folderId") = Some f ∧
          within (folders db) root f.

Definition noteWithin (db : DB) (root t : Key) : Prop :=
  ∃ note n, notes db !! t = Some note ∧ toKey (note !! "notebookId") = Some n ∧
            notebookWithin db root n.

(** ** Reading an index *)

Lemma elem_of_inKeyOrder (s : gmap Key Entity) e :
  e ∈ inKeyOrder s ↔ ∃ k, s !! k = Some e.
Proof.
  unfold inKeyOrder. rewrite list_elem_of_fmap. split.
  - intros ([k e'] & -> & Hin). rewrite merge_sort_Permutation in Hin.
    exists k. by apply elem_of_map_to_list.
  - intros [k Hk]. exists (k, e). split; [ done | ].
    rewrite merge_sort_Permutation. by apply elem_of_map_to_list.
Qed.

Lemma elem_of_recordsAt (s : gmap Key Entity) indexName value e :
  e ∈ recordsAt s indexName value
  ↔ (∃ k, s !! k = Some e) ∧ toKey (e !! indexName) = Some value.
Proof.
  unfold recordsAt. rewrite list_elem_of_filter, elem_of_inKeyOrder. tauto.
Qed.

(** ** Deleting a notebook *)

Lemma getByIndex_key (s : gmap Key Entity) indexName id k :
  toKey id = Some k → getByIndex s indexName id = Done (recordsAt s indexName k).
Proof. destruct id as [ [ | | | | | ] | ]; cbn; by intros [= <-]. Qed.

Lemma forEach_deleteNote (records : list Entity) : ∀ db,
  Forall (λ e, is_Some (toKey (e !! "id"))) records →
  ∃ notes',
    forEach (λ note, deleteNote (note !! "id")) records db
    = Done {| folders := folders db; notebooks := notebooks db; notes := notes' |} ∧
    ∀ t, notes' !! t
         = if bool_decide (Some t ∈ (λ e : Entity, toKey (e !! "id")) <$> records)
           then None else notes db !! t.
Proof.
  induction records as [ | e records IH ]; intros db Hkeys.
  - exists (notes db). split; [ by destruct db | ]. intros t.
    rewrite bool_decide_eq_false_2; [ done | apply not_elem_of_nil ].
  - apply Forall_cons in Hkeys as [[k Hk] Hkeys].
    cbn [forEach]. unfold deleteNote at 1, deleteRecord. rewrite Hk.
    destruct (IH {| folders := folders db; notebooks := notebooks db;
                    notes := delete k (notes db) |} Hkeys) as (notes' & Hrun & Hnotes).
    exists notes'. split; [ exact Hrun | ]. intros t. rewrite Hnotes.
    cbn [notes]. rewrite fmap_cons, Hk.
    destruct (decide (t = k)) as [ -> | Hne ].
    + rewrite (bool_decide_eq_true_2 (Some k ∈ Some k :: _)) by left.
      rewrite lookup_delete_eq. by case_bool_decide.
    + rewrite lookup_delete_ne by done.
      assert (bool_decide (Some t ∈ Some k :: ((λ e : Entity, toKey (e !! "id")) <$> records))
              = bool_decide (Some t ∈ (λ e : Entity, toKey (e !! "id")) <$> records)) as ->;
        [ | done ].
      apply bool_decide_ext. rewrite elem_of_cons. split; [ | by right ].
      intros [ [= ->] | ? ]; done.
Qed.

Lemma deleteNotebook_spec (db : DB) id n :
  toKey id = Some n → wellKeyed (notes db) →
  ∃ notes',
    deleteNotebook id db
    = Done {| folders := folders db; notebooks := delete n (notebooks db);
              notes := notes' |} ∧
    ∀ t, notes' !! t
         = match notes db !! t with
           | Some note =>
               if bool_decide (toKey (note !! "notebookId") = Some n)
               then None else Some note
           | None => None
           end.
Proof.
  intros Hn Hkeyed. unfold deleteNotebook, deleteRecord.
  rewrite (getByIndex_key _ _ _ _ Hn), Hn.
  destruct (forEach_deleteNote (recordsAt (notes db) "notebookId" n) db)
    as (notes' & -> & Hnotes).
  { apply Forall_forall. intros e [[k Hk] _]%elem_of_recordsAt.
    rewrite (Hkeyed k e Hk). by eexists. }
  exists notes'. split; [ done | ]. intros t. rewrite Hnotes.
  destruct (notes db !! t) as [ note | ] eqn:Hnote.
  - assert (bool_decide (Some t ∈ (λ e : Entity, toKey (e !! "id"))
                           <$> recordsAt (notes db) "notebookId" n)
            = bool_decide (toKey (note !! "notebookId") = Some n)) as ->; [ | done ].
    apply bool_decide_ext. rewrite list_elem_of_fmap. split.
    + intros (e & Ht & [[k Hk] Hidx]%elem_of_recordsAt).
      rewrite (Hkeyed k e Hk) in Ht. injection Ht as ->. congruence.
    + intros Hidx. exists note. split; [ by rewrite (Hkeyed t note Hnote) | ].
      apply elem_of_recordsAt. split; [ by exists t | done ].
  - by case_bool_decide.
Qed.

(** ** The folders below a folder *)

Lemma within_trans (s : gmap Key Entity) a c k :
  within s a c → within s c k → within s a k.
Proof.
  intros Hac Hck. induction Hck as [ | k p Hp _ IH ]; [ done | ].
  by eapply within_child.
Qed.

Lemma within_top (s : gmap Key Entity) a k :
  within s a k → k = a ∨ ∃ c, parentOf s c = Some a ∧ within s c k.
Proof.
  induction 1 as [ | k p Hp _ IH ]; [ by left | ]. right.
  destruct IH as [ -> | (c & Hc & Hck) ].
  - exists k. split; [ done | apply within_root ].
  - exists c. split; [ done | ]. by eapply within_child.
Qed.

(** Where the folders below [k] are well founded, [k] is not below a
    folder of its own. *)
Lemma within_no_cycle (s : gmap Key Entity) k :
  Acc (isChildOf s) k → ∀ c, parentOf s c = Some k → within s c k → False.
Proof.
  induction 1 as [ k _ IH ]. intros c Hc Hck.
  destruct (within_top s c k Hck) as [ -> | (c' & Hc' & Hc'k) ].
  - exact (IH c Hc c Hc (within_root s c)).
  - apply (IH c Hc c' Hc'). by eapply within_child.
Qed.

Lemma forEach_deleteNotebook (records : list Entity) : ∀ db,
  wellKeyed (notes db) →
  Forall (λ e, is_Some (toKey (e !! "id"))) records →
  ∃ db',
    forEach (λ notebook, deleteNotebook (notebook !! "id")) records db = Done db' ∧
    folders db' = folders db ∧
    (∀ n, notebooks db' !! n
          = if bool_decide (Some n ∈ (λ e : Entity, toKey (e !! "id")) <$> records)
            then None else notebooks db !! n) ∧
    (∀ t, notes db' !! t
          = match notes db !! t with
            | Some note =>
                if bool_decide (is_Some (toKey (note !! "notebookId")) ∧
                                toKey (note !! "notebookId")
                                ∈ (λ e : Entity, toKey (e !! "id")) <$> records)
                then None else Some note
            | None => None
            end).
Proof.
  induction records as [ | e records IH ]; intros db Hkeyed Hkeys.
  - exists db. split; [ done | ]. split; [ done | ]. split.
    + intros n. rewrite bool_decide_eq_false_2; [ done | apply not_elem_of_nil ].
    + intros t. destruct (notes db !! t); [ | done ].
      rewrite bool_decide_eq_false_2; [ done | ]. intros [_ Hin]. by apply elem_of_nil in Hin.
  - apply Forall_cons in Hkeys as [[k Hk] Hkeys].
    cbn [forEach].
    destruct (deleteNotebook_spec db (e !! "id") k Hk Hkeyed) as (notes1 & -> & Hnotes1).
    set (db1 := {| folders := folders db; notebooks := delete k (notebooks db);
                   notes := notes1 |}).
    assert (wellKeyed (notes db1)) as Hkeyed1.
    { intros t note. cbn [db1 notes]. rewrite Hnotes1.
      destruct (notes db !! t) as [ note' | ] eqn:Hnote; [ | done ].
      case_bool_decide; [ done | ]. intros [= <-]. by apply Hkeyed. }
    destruct (IH db1 Hkeyed1 Hkeys) as (db' & Hrun & Hf & Hnb & Hn).
    exists db'. split; [ exact Hrun | ]. split; [ by rewrite Hf | ]. split.
    + intros n. rewrite Hnb. cbn [db1 notebooks]. rewrite fmap_cons, Hk.
      destruct (decide (n = k)) as [ -> | Hne ].
      * rewrite (bool_decide_eq_true_2 (Some k ∈ Some k :: _)) by left.
        rewrite lookup_delete_eq. by case_bool_decide.
      * rewrite lookup_delete_ne by done.
        assert (bool_decide (Some n ∈ Some k :: ((λ e : Entity, toKey (e !! "id")) <$> records))
                = bool_decide (Some n ∈ (λ e : Entity, toKey (e !! "id")) <$> records)) as ->;
          [ | done ].
        apply bool_decide_ext. rewrite elem_of_cons. split; [ | by right ].
        intros [ [= ->] | ? ]; done.
    + intros t. rewrite Hn. cbn [db1 notes]. rewrite Hnotes1, fmap_cons, Hk.
      destruct (notes db !! t) as [ note | ] eqn:Hnote; [ | done ].
      destruct (toKey (note !! "notebookId")) as [ n | ] eqn:Hnid.
      * destruct (decide (n = k)) as [ -> | Hne ].
        -- rewrite (bool_decide_eq_true_2 (Some k = Some k)) by done.
           rewrite bool_decide_eq_true_2; [ done | ]. split; [ by eexists | left ].
        -- rewrite (bool_decide_eq_false_2 (Some n = Some k)) by congruence.
           rewrite Hnid.
           assert (bool_decide (is_Some (Some n) ∧
                     Some n ∈ Some k :: ((λ e : Entity, toKey (e !! "id")) <$> records))
                   = bool_decide (is_Some (Some n) ∧
                       Some n ∈ (λ e : Entity, toKey (e !! "id")) <$> records)) as ->;
             [ | done ].
           apply bool_decide_ext. rewrite elem_of_cons.
           split; [ | intros [? ?]; split; [ done | by right ] ].
           intros [? [ [= ->] | ? ]]; done.
      * rewrite (bool_decide_eq_false_2 (None = Some k)) by done. rewrite Hnid.
        rewrite !bool_decide_eq_false_2; [ done | | ]; intros [[? ?] _]; done.
Qed.

(** ** Deleting a folder *)

Section Cascade.

(** The database at the start of the cascade. *)
Variable db0 : DB.

Hypothesis Hfolders : wellKeyed (folders db0).
Hypothesis Hnotebooks : wellKeyed (notebooks db0).
Hypothesis Hnotes : wellKeyed (notes db0).

Let below := within (folders db0).
Let childOf := isChildOf (folders db0).

(** Below one of the folders picked out by [P]. *)
Definition folderIn (P : Key → Prop) (k : Key) : Prop := ∃ c, P c ∧ below c k.

Definition notebookIn (P : Key → Prop) (n : Key) : Prop :=
  ∃ nb f, notebooks db0 !! n = Some nb ∧ toKey (nb !! "folderId") = Some f ∧
          folderIn P f.

Definition noteIn (P : Key → Prop) (t : Key) : Prop :=
  ∃ note n, notes db0 !! t = Some note ∧ toKey (note !! "notebookId") = Some n ∧
            notebookIn P n.

(** What is left of [db0] while a cascade runs: some of its records,
    none of them in a folder or in a notebook that is gone. *)
Record Remains (db : DB) : Prop := {
  rem_folders : folders db ⊆ folders db0;
  rem_notebooks : notebooks db ⊆ notebooks db0;
  rem_notes : notes db ⊆ notes db0;
  rem_below : ∀ c k, is_Some (folders db0 !! c) → folders db !! c = None →
                     below c k → folders db !! k = None;
  rem_folder : ∀ n nb f, notebooks db !! n = Some nb →
                 toKey (nb !! "folderId") = Some f →
                 is_Some (folders db0 !! f) → is_Some (folders db !! f);
  rem_notebook : ∀ t note n, notes db !! t = Some note →
                   toKey (note !! "notebookId") = Some n →
                   is_Some (notebooks db0 !! n) → is_Some (notebooks db !! n)
}.

(** From [db] to [db']: exactly what lies below the folders picked out
    by [P] is gone. *)
Record Removed (P : Key → Prop) (db db' : DB) : Prop := {
  rmv_folders : folders db' ⊆ folders db;
  rmv_notebooks : notebooks db' ⊆ notebooks db;
  rmv_notes : notes db' ⊆ notes db;
  rmv_folder_in : ∀ k, folderIn P k → folders db' !! k = None;
  rmv_folder_out : ∀ k, ¬ folderIn P k → folders db' !! k = folders db !! k;
  rmv_notebook_in : ∀ n, notebookIn P n → notebooks db' !! n = None;
  rmv_notebook_out : ∀ n, ¬ notebookIn P n → notebooks db' !! n = notebooks db !! n;
  rmv_note_in : ∀ t, noteIn P t → notes db' !! t = None;
  rmv_note_out : ∀ t, ¬ noteIn P t → notes db' !! t = notes db !! t
}.

Lemma below_trans a c k : below a c → below c k → below a k.
Proof. apply within_trans. Qed.

Lemma below_child a c : parentOf (folders db0) c = Some a → below a c.
Proof. intros Hc. eapply within_child; [ done | apply within_root ]. Qed.

Lemma below_top a k :
  below a k → k = a ∨ ∃ c, parentOf (folders db0) c = Some a ∧ below c k.
Proof. apply within_top. Qed.

Lemma below_present c k :
  is_Some (folders db0 !! c) → below c k → is_Some (folders db0 !! k).
Proof.
  intros Hc. destruct 1 as [ | k p Hp _ ]; [ done | ].
  unfold parentOf in Hp. destruct (folders db0 !! k); [ by eexists | done ].
Qed.

Lemma parent_present c a :
  parentOf (folders db0) c = Some a → is_Some (folders db0 !! c).
Proof. unfold parentOf. destruct (folders db0 !! c); [ by eexists | done ]. Qed.

Lemma lookup_sub (s s' : gmap Key Entity) k e :
  s' ⊆ s → s' !! k = Some e → s !! k = Some e.
Proof. intros Hsub Hk. exact (lookup_weaken _ _ _ _ Hk Hsub). Qed.

Lemma lookup_sub_None (s s' : gmap Key Entity) k :
  s' ⊆ s → s !! k = None → s' !! k = None.
Proof.
  intros Hsub Hnone. destruct (s' !! k) as [ e | ] eqn:He; [ | done ].
  by rewrite (lookup_weaken _ _ _ _ He Hsub) in Hnone.
Qed.

Lemma Remains_start : Remains db0.
Proof.
  split; try done. intros c k [e He] Hnone. by rewrite Hnone in He.
Qed.

Lemma Remains_after P db db' : Remains db → Removed P db db' → Remains db'.
Proof.
  intros Hrem Hrmv. split.
  - etrans; [ apply Hrmv | apply Hrem ].
  - etrans; [ apply Hrmv | apply Hrem ].
  - etrans; [ apply Hrmv | apply Hrem ].
  - intros c k Hc Hnone Hck.
    destruct (folders db' !! k) as [ e | ] eqn:Hk; [ exfalso | done ].
    pose proof (lookup_sub _ _ _ _ (rmv_folders _ _ _ Hrmv) Hk) as Hk1.
    destruct (folders db !! c) as [ ec | ] eqn:Hc1.
    + assert (¬ ¬ folderIn P c) as Hnn.
      { intros Hout. rewrite (rmv_folder_out _ _ _ Hrmv c Hout) in Hnone. congruence. }
      apply Hnn. intros (r & Hr & Hrc).
      rewrite (rmv_folder_in _ _ _ Hrmv k) in Hk; [ done | ].
      exists r. split; [ done | ]. by eapply below_trans.
    + by rewrite (rem_below _ Hrem c k Hc Hc1 Hck) in Hk1.
  - intros n nb f Hn Hf Hf0.
    pose proof (lookup_sub _ _ _ _ (rmv_notebooks _ _ _ Hrmv) Hn) as Hn1.
    destruct (rem_folder _ Hrem n nb f Hn1 Hf Hf0) as [e He].
    destruct (folders db' !! f) as [ e' | ] eqn:Hf'; [ by eexists | exfalso ].
    assert (¬ ¬ folderIn P f) as Hnn.
    { intros Hout. rewrite (rmv_folder_out _ _ _ Hrmv f Hout) in Hf'. congruence. }
    apply Hnn. intros Hin.
    rewrite (rmv_notebook_in _ _ _ Hrmv n) in Hn; [ done | ].
    exists nb, f. split; [ | done ].
    by apply (lookup_sub _ _ _ _ (rem_notebooks _ Hrem)).
  - intros t note n Ht Hn Hn0.
    pose proof (lookup_sub _ _ _ _ (rmv_notes _ _ _ Hrmv) Ht) as Ht1.
    destruct (rem_notebook _ Hrem t note n Ht1 Hn Hn0) as [nb Hnb].
    destruct (notebooks db' !! n) as [ nb' | ] eqn:Hn'; [ by eexists | exfalso ].
    assert (¬ ¬ notebookIn P n) as Hnn.
    { intros Hout. rewrite (rmv_notebook_out _ _ _ Hrmv n Hout) in Hn'. congruence. }
    apply Hnn. intros Hin.
    rewrite (rmv_note_in _ _ _ Hrmv t) in Ht; [ done | ].
    exists note, n. split; [ | done ].
    by apply (lookup_sub _ _ _ _ (rem_notes _ Hrem)).
Qed.

Lemma Removed_nothing db : Removed (λ _, False) db db.
Proof.
  split; try done.
  - by intros k (c & [] & _).
  - by intros n (nb & f & _ & _ & c & [] & _).
  - by intros t (note & n & _ & _ & nb & f & _ & _ & c & [] & _).
Qed.

Lemma folderIn_mono (P Q : Key → Prop) k :
  (∀ c, P c → Q c) → folderIn P k → folderIn Q k.
Proof. intros HPQ (c & Hc & Hk). exists c. auto. Qed.

Lemma notebookIn_mono (P Q : Key → Prop) n :
  (∀ c, P c → Q c) → notebookIn P n → notebookIn Q n.
Proof.
  intros HPQ (nb & f & Hn & Hf & Hin). exists nb, f.
  split; [ done | ]. split; [ done | ]. by eapply folderIn_mono.
Qed.

Lemma noteIn_mono (P Q : Key → Prop) t :
  (∀ c, P c → Q c) → noteIn P t → noteIn Q t.
Proof.
  intros HPQ (note & n & Ht & Hn & Hin). exists note, n.
  split; [ done | ]. split; [ done | ]. by eapply notebookIn_mono.
Qed.

Lemma folderIn_or (P Q : Key → Prop) k :
  folderIn (λ c, P c ∨ Q c) k → folderIn P k ∨ folderIn Q k.
Proof. intros (c & [Hc | Hc] & Hk); [ left | right ]; by exists c. Qed.

Lemma notebookIn_or (P Q : Key → Prop) n :
  notebookIn (λ c, P c ∨ Q c) n → notebookIn P n ∨ notebookIn Q n.
Proof.
  intros (nb & f & Hn & Hf & [Hin | Hin]%folderIn_or); [ left | right ]; by exists nb, f.
Qed.

Lemma noteIn_or (P Q : Key → Prop) t :
  noteIn (λ c, P c ∨ Q c) t → noteIn P t ∨ noteIn Q t.
Proof.
  intros (note & n & Ht & Hn & [Hin | Hin]%notebookIn_or); [ left | right ]; by exists note, n.
Qed.

Lemma Removed_then P Q db db1 db2 :
  Removed P db db1 → Removed Q db1 db2 → Removed (λ c, P c ∨ Q c) db db2.
Proof.
  intros H1 H2. split.
  - etrans; [ apply H2 | apply H1 ].
  - etrans; [ apply H2 | apply H1 ].
  - etrans; [ apply H2 | apply H1 ].
  - intros k [Hin | Hin]%folderIn_or.
    + apply (lookup_sub_None _ _ _ (rmv_folders _ _ _ H2)). by apply H1.
    + by apply H2.
  - intros k Hout. rewrite (rmv_folder_out _ _ _ H2), (rmv_folder_out _ _ _ H1); [ done | | ];
      intros Hin; apply Hout; (eapply folderIn_mono; [ | exact Hin ]); cbn; auto.
  - intros n [Hin | Hin]%notebookIn_or.
    + apply (lookup_sub_None _ _ _ (rmv_notebooks _ _ _ H2)). by apply H1.
    + by apply H2.
  - intros n Hout.
    rewrite (rmv_notebook_out _ _ _ H2), (rmv_notebook_out _ _ _ H1); [ done | | ];
      intros Hin; apply Hout; (eapply notebookIn_mono; [ | exact Hin ]); cbn; auto.
  - intros t [Hin | Hin]%noteIn_or.
    + apply (lookup_sub_None _ _ _ (rmv_notes _ _ _ H2)). by apply H1.
    + by apply H2.
  - intros t Hout.
    rewrite (rmv_note_out _ _ _ H2), (rmv_note_out _ _ _ H1); [ done | | ];
      intros Hin; apply Hout; (eapply noteIn_mono; [ | exact Hin ]); cbn; auto.
Qed.

Lemma Removed_iff (P Q : Key → Prop) db db' :
  (∀ c, P c ↔ Q c) → Removed P db db' → Removed Q db db'.
Proof.
  intros HPQ H. split; try apply H.
  - intros k Hin. apply H. eapply folderIn_mono; [ | exact Hin ]. intros c. apply HPQ.
  - intros k Hout. apply H. intros Hin. apply Hout.
    eapply folderIn_mono; [ | exact Hin ]. intros c. apply HPQ.
  - intros n Hin. apply H. eapply notebookIn_mono; [ | exact Hin ]. intros c. apply HPQ.
  - intros n Hout. apply H. intros Hin. apply Hout.
    eapply notebookIn_mono; [ | exact Hin ]. intros c. apply HPQ.
  - intros t Hin. apply H. eapply noteIn_mono; [ | exact Hin ]. intros c. apply HPQ.
  - intros t Hout. apply H. intros Hin. apply Hout.
    eapply noteIn_mono; [ | exact Hin ]. intros c. apply HPQ.
Qed.

Lemma children_removed (children : list Entity) : ∀ db,
  Remains db →
  Forall (λ e : Entity, ∃ c, toKey (e !! "id") = Some c ∧
            ∀ db1, Remains db1 →
              ∃ fuel0 db',
                (∀ fuel, fuel0 ≤ fuel → deleteFolder fuel (e !! "id") db1 = Done db') ∧
                Removed (eq c) db1 db') children →
  ∃ fuel0 db',
    (∀ fuel, fuel0 ≤ fuel →
       forEach (λ child : Entity, deleteFolder fuel (child !! "id")) children db = Done db') ∧
    Removed (λ c, Some c ∈ (λ e : Entity, toKey (e !! "id")) <$> children) db db'.
Proof.
  induction children as [ | e children IHc ]; intros db Hrem Hall.
  - exists 0, db. split; [ done | ].
    eapply Removed_iff; [ | apply Removed_nothing ].
    intros c. cbn. split; [ done | ]. intros Hin. by apply elem_of_nil in Hin.
  - apply Forall_cons in Hall as [(c & Hc & Hrun) Hall].
    destruct (Hrun db Hrem) as (fuel1 & db1 & Hrun1 & Hr1).
    destruct (IHc db1 (Remains_after _ _ _ Hrem Hr1) Hall) as (fuel2 & db' & Hrun2 & Hr2).
    exists (fuel1 `max` fuel2), db'. split.
    + intros fuel Hfuel. cbn [forEach]. rewrite Hrun1 by lia. apply Hrun2. lia.
    + eapply Removed_iff; [ | by eapply Removed_then ].
      intros c'. rewrite fmap_cons, elem_of_cons, Hc. cbn beta.
      split; [ intros [ -> | ? ]; auto | intros [ [= ->] | ? ]; auto ].
Qed.

Lemma deleteFolder_removes root :
  Acc childOf root →
  ∀ id db, toKey id = Some root → Remains db →
    ∃ fuel0 db',
      (∀ fuel, fuel0 ≤ fuel → deleteFolder fuel id db = Done db') ∧
      Removed (eq root) db db'.
Proof.
  induction 1 as [root _ IH]. intros id db Hid Hrem.
  set (children := recordsAt (folders db) "parentId" root).
  assert (∀ c, Some c ∈ (λ e : Entity, toKey (e !! "id")) <$> children
               ↔ ∃ e, folders db !! c = Some e ∧ toKey (e !! "parentId") = Some root)
    as Hchild.
  { intros c. rewrite list_elem_of_fmap. split.
    - intros (e & Hc & [[c' Hc'] Hp]%elem_of_recordsAt). exists e.
      pose proof (lookup_sub _ _ _ _ (rem_folders _ Hrem) Hc') as Hc0.
      rewrite (Hfolders c' e Hc0) in Hc. by injection Hc as ->.
    - intros (e & Hc & Hp). exists e.
      pose proof (lookup_sub _ _ _ _ (rem_folders _ Hrem) Hc) as Hc0.
      split; [ by rewrite (Hfolders c e Hc0) | ].
      apply elem_of_recordsAt. split; [ by exists c | done ]. }
  assert (∀ c e, folders db !! c = Some e → toKey (e !! "parentId") = Some root →
                 parentOf (folders db0) c = Some root) as Hparent.
  { intros c e Hc Hp. unfold parentOf.
    by rewrite (lookup_sub _ _ _ _ (rem_folders _ Hrem) Hc). }
  destruct (children_removed children db Hrem) as (fuel1 & db1 & Hrun1 & Hr1).
  { apply Forall_forall. intros e [[c Hc] Hp]%elem_of_recordsAt.
    pose proof (lookup_sub _ _ _ _ (rem_folders _ Hrem) Hc) as Hc0.
    exists c. split; [ by apply Hfolders | ].
    intros db1 Hrem1. apply (IH c); [ by eapply Hparent | by apply Hfolders | done ]. }
  pose proof (Remains_after _ _ _ Hrem Hr1) as Hrem1.
  set (inside := recordsAt (notebooks db1) "folderId" root).
  destruct (forEach_deleteNotebook inside db1) as (db2 & Hrun2 & Hf2 & Hnb2 & Hn2).
  { intros t note Ht. apply Hnotes. by apply (lookup_sub _ _ _ _ (rem_notes _ Hrem1)). }
  { apply Forall_forall. intros nb [[n Hn] _]%elem_of_recordsAt.
    rewrite (Hnotebooks n nb); [ by eexists | ].
    by apply (lookup_sub _ _ _ _ (rem_notebooks _ Hrem1)). }
  assert (∀ n, Some n ∈ (λ e : Entity, toKey (e !! "id")) <$> inside
               ↔ ∃ nb, notebooks db1 !! n = Some nb ∧ toKey (nb !! "folderId") = Some root)
    as Hinside.
  { intros n. rewrite list_elem_of_fmap. split.
    - intros (nb & Hn & [[n' Hn'] Hf]%elem_of_recordsAt). exists nb.
      pose proof (lookup_sub _ _ _ _ (rem_notebooks _ Hrem1) Hn') as Hn0.
      rewrite (Hnotebooks n' nb Hn0) in Hn. by injection Hn as ->.
    - intros (nb & Hn & Hf). exists nb.
      pose proof (lookup_sub _ _ _ _ (rem_notebooks _ Hrem1) Hn) as Hn0.
      split; [ by rewrite (Hnotebooks n nb Hn0) | ].
      apply elem_of_recordsAt. split; [ by exists n | done ]. }
  assert (notebooks db2 ⊆ notebooks db1) as Hsub_nb.
  { apply map_subseteq_spec. intros n nb. rewrite Hnb2. by case_bool_decide. }
  assert (notes db2 ⊆ notes db1) as Hsub_n.
  { apply map_subseteq_spec. intros t note. rewrite Hn2.
    destruct (notes db1 !! t); [ | done ]. by case_bool_decide. }
  (* a folder below a child of [root] that is gone from [db] is gone too *)
  assert (∀ c k, parentOf (folders db0) c = Some root → below c k →
                 folders db !! c = None → folders db !! k = None) as Hgone.
  { intros c k Hc Hck Hnone. eapply rem_below; [ done | | done | done ].
    by eapply parent_present. }
  assert (∀ c f n nb, parentOf (folders db0) c = Some root → below c f →
                      folders db !! c = None →
                      notebooks db0 !! n = Some nb → toKey (nb !! "folderId") = Some f →
                      notebooks db !! n = None) as Hgone_nb.
  { intros c f n nb Hc Hcf Hnone Hn0 Hf.
    destruct (notebooks db !! n) as [ nb' | ] eqn:Hn; [ exfalso | done ].
    pose proof (lookup_sub _ _ _ _ (rem_notebooks _ Hrem) Hn) as Hn'.
    assert (nb' = nb) as -> by congruence.
    destruct (rem_folder _ Hrem n nb f Hn Hf) as [e He].
    - eapply below_present; [ | done ]. by eapply parent_present.
    - by rewrite (Hgone c f Hc Hcf Hnone) in He. }
  exists (S fuel1), {| folders := delete root (folders db2); notebooks := notebooks db2;
                        notes := notes db2 |}.
  split.
  { intros [ | fuel ] Hfuel; [ lia | ]. cbn [deleteFolder].
    rewrite (getByIndex_key _ _ _ _ Hid). fold children. rewrite Hrun1 by lia.
    rewrite (getByIndex_key _ _ _ _ Hid). fold inside. rewrite Hrun2.
    unfold deleteRecord. by rewrite Hid. }
  split; cbn [folders notebooks notes].
  - rewrite Hf2. etrans; [ apply delete_subseteq | apply Hr1 ].
  - etrans; [ exact Hsub_nb | apply Hr1 ].
  - etrans; [ exact Hsub_n | apply Hr1 ].
  - intros k (r & <- & Hk).
    destruct (decide (k = root)) as [ -> | Hne ]; [ apply lookup_delete_eq | ].
    rewrite lookup_delete_ne, Hf2 by done.
    apply below_top in Hk as [ -> | (c & Hc & Hck) ]; [ done | ].
    destruct (folders db !! c) as [ e | ] eqn:Hcdb.
    + apply (rmv_folder_in _ _ _ Hr1). exists c. split; [ | done ].
      apply Hchild. exists e. split; [ done | ].
      pose proof (lookup_sub _ _ _ _ (rem_folders _ Hrem) Hcdb) as Hc0.
      unfold parentOf in Hc. by rewrite Hc0 in Hc.
    + apply (lookup_sub_None _ _ _ (rmv_folders _ _ _ Hr1)). by eapply Hgone.
  - intros k Hout.
    assert (k ≠ root) as Hne.
    { intros ->. apply Hout. exists root. split; [ done | apply within_root ]. }
    rewrite lookup_delete_ne, Hf2 by done.
    apply (rmv_folder_out _ _ _ Hr1). intros (c & Hc & Hck).
    apply Hchild in Hc as (e & Hc & Hp). apply Hout. exists root. split; [ done | ].
    eapply below_trans; [ | exact Hck ]. eapply below_child, Hparent; done.
  - intros n (nb & f & Hn0 & Hf & (r & <- & Hbf)).
    rewrite Hnb2. case_bool_decide as Hin; [ done | ].
    apply below_top in Hbf as [ -> | (c & Hc & Hcf) ].
    + destruct (notebooks db1 !! n) as [ nb1 | ] eqn:Hn1; [ exfalso | done ].
      apply Hin, Hinside. exists nb1. split; [ done | ].
      pose proof (lookup_sub _ _ _ _ (rem_notebooks _ Hrem1) Hn1). congruence.
    + destruct (folders db !! c) as [ e | ] eqn:Hcdb.
      * apply (rmv_notebook_in _ _ _ Hr1). exists nb, f. split; [ done | ].
        split; [ done | ]. exists c. split; [ | done ].
        apply Hchild. exists e. split; [ done | ].
        pose proof (lookup_sub _ _ _ _ (rem_folders _ Hrem) Hcdb) as Hc0.
        unfold parentOf in Hc. by rewrite Hc0 in Hc.
      * apply (lookup_sub_None _ _ _ (rmv_notebooks _ _ _ Hr1)). by eapply Hgone_nb.
  - intros n Hout. rewrite Hnb2. case_bool_decide as Hin.
    + exfalso. apply Hinside in Hin as (nb & Hn1 & Hf). apply Hout.
      exists nb, root. split; [ by apply (lookup_sub _ _ _ _ (rem_notebooks _ Hrem1)) | ].
      split; [ done | ]. exists root. split; [ done | apply within_root ].
    + apply (rmv_notebook_out _ _ _ Hr1). intros (nb & f & Hn0 & Hf & (c & Hc & Hcf)).
      apply Hchild in Hc as (e & Hc & Hp). apply Hout. exists nb, f.
      split; [ done | ]. split; [ done | ]. exists root. split; [ done | ].
      eapply below_trans; [ | exact Hcf ]. eapply below_child, Hparent; done.
  - intros t (note & n & Ht0 & Hnid & (nb & f & Hn0 & Hf & (r & <- & Hbf))).
    rewrite Hn2. destruct (notes db1 !! t) as [ note1 | ] eqn:Ht1; [ | done ].
    pose proof (lookup_sub _ _ _ _ (rem_notes _ Hrem1) Ht1) as Ht1'.
    assert (note1 = note) as -> by congruence.
    case_bool_decide as Hin; [ done | exfalso ]. rewrite Hnid in Hin.
    apply below_top in Hbf as [ -> | (c & Hc & Hcf) ].
    + destruct (notebooks db1 !! n) as [ nb1 | ] eqn:Hn1.
      * apply Hin. split; [ by eexists | ]. apply Hinside. exists nb1. split; [ done | ].
        pose proof (lookup_sub _ _ _ _ (rem_notebooks _ Hrem1) Hn1). congruence.
      * destruct (rem_notebook _ Hrem1 t note n Ht1 Hnid) as [nb1 Hnb1]; [ by eexists | ].
        congruence.
    + destruct (folders db !! c) as [ e | ] eqn:Hcdb.
      * rewrite (rmv_note_in _ _ _ Hr1 t) in Ht1; [ done | ].
        exists note, n. split; [ done | ]. split; [ done | ].
        exists nb, f. split; [ done | ]. split; [ done | ]. exists c. split; [ | done ].
        apply Hchild. exists e. split; [ done | ].
        pose proof (lookup_sub _ _ _ _ (rem_folders _ Hrem) Hcdb) as Hc0.
        unfold parentOf in Hc. by rewrite Hc0 in Hc.
      * pose proof (lookup_sub _ _ _ _ (rmv_notes _ _ _ Hr1) Ht1) as Htdb.
        destruct (rem_notebook _ Hrem t note n Htdb Hnid) as [nb1 Hnb1]; [ by eexists | ].
        by rewrite (Hgone_nb c f n nb Hc Hcf Hcdb Hn0 Hf) in Hnb1.
  - intros t Hout. rewrite Hn2.
    rewrite <- (rmv_note_out _ _ _ Hr1 t).
    + destruct (notes db1 !! t) as [ note | ] eqn:Ht1; [ | done ].
      case_bool_decide as Hin; [ exfalso | done ].
      destruct Hin as [[n Hnid] Hin]. rewrite Hnid in Hin.
      apply Hinside in Hin as (nb & Hn1 & Hf). apply Hout.
      exists note, n. split; [ by apply (lookup_sub _ _ _ _ (rem_notes _ Hrem1)) | ].
      split; [ done | ]. exists nb, root.
      split; [ by apply (lookup_sub _ _ _ _ (rem_notebooks _ Hrem1)) | ].
      split; [ done | ]. exists root. split; [ done | apply within_root ].
    + intros (note & n & Ht0 & Hnid & (nb & f & Hn0 & Hf & (c & Hc & Hcf))).
      apply Hchild in Hc as (e & Hc & Hp). apply Hout.
      exists note, n. split; [ done | ]. split; [ done | ].
      exists nb, f. split; [ done | ]. split; [ done | ]. exists root. split; [ done | ].
      eapply below_trans; [ | exact Hcf ]. eapply below_child, Hparent; done.
Qed.

End Cascade.

(** X15.  [deleteFolder(id)] on a database whose records are filed
    under their ids, when the folders below [id] form a tree (no folder
    is, through its [parentId] and those of the folders above it, inside
    itself): the call returns, and it has removed exactly the folder, the
    folders below it, the notebooks of all these folders and the notes of
    these notebooks; every other folder, notebook and note is left as it
    was. *)
Theorem deleteFolder_cascade (db : DB) (id : option json) (root : Key) :
  wellKeyed (folders db) → wellKeyed (notebooks db) → wellKeyed (notes db) →
  toKey id = Some root →
  Acc (isChildOf (folders db)) root →
  ∃ fuel0 db',
    (∀ fuel, fuel0 ≤ fuel → deleteFolder fuel id db = Done db') ∧
    (∀ k, within (folders db) root k → folders db' !! k = None) ∧
    (∀ k, ¬ within (folders db) root k → folders db' !! k = folders db !! k) ∧
    (∀ n, notebookWithin db root n → notebooks db' !! n = None) ∧
    (∀ n, ¬ notebookWithin db root n → notebooks db' !! n = notebooks db !! n) ∧
    (∀ t, noteWithin db root t → notes db' !! t = None) ∧
    (∀ t, ¬ noteWithin db root t → notes db' !! t = notes db !! t).
Proof.
  intros Hf Hnb Hn Hid Hacc.
  destruct (deleteFolder_removes db Hf Hnb Hn root Hacc id db Hid (Remains_start db))
    as (fuel0 & db' & Hrun & Hr).
  assert (∀ k, folderIn db (eq root) k ↔ within (folders db) root k) as Hfolder.
  { intros k. split; [ by intros (c & <- & Hk) | intros Hk; by exists root ]. }
  assert (∀ n, notebookIn db (eq root) n ↔ notebookWithin db root n) as Hnotebook.
  { intros n. split; intros (nb & f & H1 & H2 & H3); exists nb, f;
      (split; [ done | ]); (split; [ done | ]); by apply Hfolder. }
  assert (∀ t, noteIn db (eq root) t ↔ noteWithin db root t) as Hnote.
  { intros t. split; intros (note & n & H1 & H2 & H3); exists note, n;
      (split; [ done | ]); (split; [ done | ]); by apply Hnotebook. }
  exists fuel0, db'. split; [ done | ].
  split; [ intros k Hk; by apply Hr, Hfolder | ].
  split; [ intros k Hk; apply Hr; by rewrite Hfolder | ].
  split; [ intros n Hin; by apply Hr, Hnotebook | ].
  split; [ intros n Hout; apply Hr; by rewrite Hnotebook | ].
  split; [ intros t Hin; by apply Hr, Hnote | ].
  intros t Hout. apply Hr. by rewrite Hnote.
Qed.

(** A folder with a folder in it, a notebook in the inner folder and a
    note in the notebook. *)
Definition sampleTree : DB :=
  {| folders :=
       <[KStr "F2" := entity [("id", JStr "F2"); ("parentId", JStr "F1")]]>
         {[ KStr "F1" := entity [("id", JStr "F1"); ("parentId", JNull)] ]};
     notebooks := {[ KStr "B1" := entity [("id", JStr "B1"); ("folderId", JStr "F2")] ]};
     notes := {[ KStr "N1" := entity [("id", JStr "N1"); ("notebookId", JStr "B1")] ]} |}.

Lemma sampleTree_children c a :
  isChildOf (folders sampleTree) c a → c = KStr "F2" ∧ a = KStr "F1".
Proof.
  unfold isChildOf, parentOf, sampleTree. cbn [folders].
  destruct (decide (c = KStr "F2")) as [ -> | Hne ].
  - rewrite lookup_insert_eq. cbn. by intros [= <-].
  - rewrite lookup_insert_ne by done.
    destruct (decide (c = KStr "F1")) as [ -> | Hne' ].
    + rewrite lookup_singleton_eq. cbn. done.
    + rewrite lookup_singleton_ne by done. done.
Qed.

Lemma sampleTree_keyed :
  wellKeyed (folders sampleTree) ∧ wellKeyed (notebooks sampleTree) ∧
  wellKeyed (notes sampleTree).
Proof.
  split; [ | split ].
  - intros k e. cbn [sampleTree folders].
    intros [ [<- <-] | [_ [<- <-]%lookup_singleton_Some] ]%lookup_insert_Some; done.
  - by apply wellKeyed_singleton.
  - by apply wellKeyed_singleton.
Qed.

Lemma sampleTree_tree : Acc (isChildOf (folders sampleTree)) (KStr "F1").
Proof.
  constructor. intros c [-> _]%sampleTree_children.
  constructor. intros c' [_ [=]]%sampleTree_children.
Qed.

Lemma deleteFolder_cascade_witness :
  wellKeyed (folders sampleTree) ∧ wellKeyed (notebooks sampleTree) ∧
  wellKeyed (notes sampleTree) ∧
  toKey (Some (JStr "F1")) = Some (KStr "F1") ∧
  Acc (isChildOf (folders sampleTree)) (KStr "F1") ∧
  ∃ fuel0 db',
    (∀ fuel, fuel0 ≤ fuel → deleteFolder fuel (Some (JStr "F1")) sampleTree = Done db') ∧
    (∀ k, within (folders sampleTree) (KStr "F1") k → folders db' !! k = None) ∧
    (∀ k, ¬ within (folders sampleTree) (KStr "F1") k
          → folders db' !! k = folders sampleTree !! k) ∧
    (∀ n, notebookWithin sampleTree (KStr "F1") n → notebooks db' !! n = None) ∧
    (∀ n, ¬ notebookWithin sampleTree (KStr "F1") n
          → notebooks db' !! n = notebooks sampleTree !! n) ∧
    (∀ t, noteWithin sampleTree (KStr "F1") t → notes db' !! t = None) ∧
    (∀ t, ¬ noteWithin sampleTree (KStr "F1") t → notes db' !! t = notes sampleTree !! t).
Proof.
  destruct sampleTree_keyed as (Hf & Hnb & Hn).
  split; [ exact Hf | ]. split; [ exact Hnb | ]. split; [ exact Hn | ].
  split; [ reflexivity | ]. split; [ exact sampleTree_tree | ].
  exact (deleteFolder_cascade sampleTree (Some (JStr "F1")) (KStr "F1")
           Hf Hnb Hn eq_refl sampleTree_tree).
Defined.

(** The run of the sample: everything goes. *)
Example sampleTree_emptied :
  deleteFolder 3 (Some (JStr "F1")) sampleTree
  = Done {| folders := ∅; notebooks := ∅; notes := ∅ |}.
Proof. vm_compute. reflexivity. Qed.

(** X16.  [deleteNotebook(id)] on a database whose notes are filed
    under their ids removes the notebook and exactly the notes whose
    [notebookId] is [id]; every other notebook, every other note and all
    folders are left as they were. *)
Theorem deleteNotebook_removes_its_notes (db : DB) (id : option json) (n : Key) :
  toKey id = Some n → wellKeyed (notes db) →
  ∃ db',
    deleteNotebook id db = Done db' ∧
    folders db' = folders db ∧
    notebooks db' = delete n (notebooks db) ∧
    (∀ t note, notes db' !! t = Some note
               ↔ notes db !! t = Some note ∧ toKey (note !! "notebookId") ≠ Some n).
Proof.
  intros Hn Hkeyed.
  destruct (deleteNotebook_spec db id n Hn Hkeyed) as (notes' & Hrun & Hnotes).
  eexists. split; [ exact Hrun | ]. split; [ done | ]. split; [ done | ].
  intros t note. cbn [notes]. rewrite Hnotes.
  destruct (notes db !! t) as [ note' | ]; [ | by split; [ | intros [? _] ] ].
  case_bool_decide as Hin.
  - split; [ done | ]. intros [[= ->] Hout]. done.
  - split; [ intros [= ->]; done | by intros [-> _] ].
Qed.

Lemma deleteNotebook_removes_its_notes_witness :
  toKey (Some (JStr "B1")) = Some (KStr "B1") ∧ wellKeyed (notes sampleTree) ∧
  ∃ db',
    deleteNotebook (Some (JStr "B1")) sampleTree = Done db' ∧
    folders db' = folders sampleTree ∧
    notebooks db' = delete (KStr "B1") (notebooks sampleTree) ∧
    (∀ t note, notes db' !! t = Some note
               ↔ notes sampleTree !! t = Some note ∧
                 toKey (note !! "notebookId") ≠ Some (KStr "B1")).
Proof.
  destruct sampleTree_keyed as (_ & _ & Hn).
  split; [ reflexivity | ]. split; [ exact Hn | ].
  exact (deleteNotebook_removes_its_notes sampleTree (Some (JStr "B1")) (KStr "B1")
           eq_refl Hn).
Defined.

(** ** An edit, and a merge after it *)

Section WithDates.

Variable Date_time : json → option Z.
Variable clock : nat → Now.

(** X17.  [updateFolder], [updateNotebook] and [updateNote] on a
    record that is stored, with updates that carry no [id]: the record is
    replaced by one that has the updated properties, keeps its other
    properties and has the time of the edit as [updatedAt]; no other
    record changes.  A remote record of the same id whose [updatedAt] is
    not later than that time, merged afterwards, changes nothing. *)
Theorem edit_survives_older_remote now id k updates (s : gmap Key Entity) record :
  wellKeyed s → toKey id = Some k → s !! k = Some record → updates !! "id" = None →
  ∃ edited,
    updateRecord now id updates s = Done (<[k := edited]> s) ∧
    edited !! "updatedAt" = Some (JStr (nowISO now)) ∧
    (∀ f v, f ≠ "updatedAt" → updates !! f = Some v → edited !! f = Some v) ∧
    (∀ f, f ≠ "updatedAt" → updates !! f = None → edited !! f = record !! f) ∧
    ∀ c remote t t' ticks count,
      toKey (remote !! "id") = Some k →
      timeValue Date_time (Some (JStr (nowISO now))) = Some t →
      timeValue Date_time (remote !! "updatedAt") = Some t' →
      (t' ≤ t)%Z →
      mergeEntity Date_time clock c
        {| store := <[k := edited]> s; tick := ticks; merged := count |} remote
      = {| store := <[k := edited]> s; tick := ticks; merged := count |}.
Proof.
  intros Hkeyed Hid Hrecord Hupdates.
  exists (<["updatedAt" := JStr (nowISO now)]> (updates ∪ record)).
  assert ((<["updatedAt" := JStr (nowISO now)]> (updates ∪ record) : Entity) !! "id"
          = record !! "id") as Hsame.
  { rewrite lookup_insert_ne by done. by rewrite lookup_union_r. }
  split.
  { unfold updateRecord, put, putAt. by rewrite Hid, Hrecord, Hsame, (Hkeyed k record Hrecord). }
  split; [ apply lookup_insert_eq | ].
  split; [ intros f v Hf Hv; rewrite lookup_insert_ne by done; by apply lookup_union_Some_l | ].
  split; [ intros f Hf Hv; rewrite lookup_insert_ne by done; by apply lookup_union_r | ].
  intros c remote t t' ticks count Hk Ht Ht' Hle.
  rewrite (mergeEntity_key _ _ _ _ _ k Hk). cbn [store].
  rewrite lookup_insert_eq. cbn [wins]. unfold laterThan.
  rewrite lookup_insert_eq, Ht, Ht'.
  by rewrite bool_decide_eq_false_2 by lia.
Qed.

End WithDates.

Lemma edit_survives_older_remote_witness :
  let s : gmap Key Entity := {[ KStr "F1" := folderF1 "Old" "2026-01-01T00:00:00Z" ]} in
  let updates := entity [("name", JStr "Renamed")] in
  wellKeyed s ∧ toKey (Some (JStr "F1")) = Some (KStr "F1") ∧
  s !! KStr "F1" = Some (folderF1 "Old" "2026-01-01T00:00:00Z") ∧
  updates !! "id" = None ∧
  ∃ edited,
    updateRecord (sampleClock 0) (Some (JStr "F1")) updates s
    = Done (<[KStr "F1" := edited]> s) ∧
    edited !! "updatedAt" = Some (JStr (nowISO (sampleClock 0))) ∧
    (∀ f v, f ≠ "updatedAt" → updates !! f = Some v → edited !! f = Some v) ∧
    (∀ f, f ≠ "updatedAt" → updates !! f = None
          → edited !! f = folderF1 "Old" "2026-01-01T00:00:00Z" !! f) ∧
    ∀ c remote t t' ticks count,
      toKey (remote !! "id") = Some (KStr "F1") →
      timeValue sampleDates (Some (JStr (nowISO (sampleClock 0)))) = Some t →
      timeValue sampleDates (remote !! "updatedAt") = Some t' →
      (t' ≤ t)%Z →
      mergeEntity sampleDates sampleClock c
        {| store := <[KStr "F1" := edited]> s; tick := ticks; merged := count |} remote
      = {| store := <[KStr "F1" := edited]> s; tick := ticks; merged := count |}.
Proof.
  assert (wellKeyed ({[ KStr "F1" := folderF1 "Old" "2026-01-01T00:00:00Z" ]}
                       : gmap Key Entity)) as Hkeyed.
  { by apply wellKeyed_singleton. }
  cbn zeta. split; [ exact Hkeyed | ]. split; [ reflexivity | ].
  split; [ apply lookup_singleton_eq | ]. split; [ reflexivity | ].
  exact (edit_survives_older_remote sampleDates sampleClock (sampleClock 0)
           (Some (JStr "F1")) (KStr "F1") (entity [("name", JStr "Renamed")])
           {[ KStr "F1" := folderF1 "Old" "2026-01-01T00:00:00Z" ]}
           (folderF1 "Old" "2026-01-01T00:00:00Z")
           Hkeyed eq_refl (lookup_singleton_eq _ _) eq_refl).
Defined.

(** ** All seven stores: settings, export and import *)

(** The object stores that [init] creates. *)
Inductive StoreName : Type :=
  | FoldersStore
  | NotebooksStore
  | NotesStore
  | DevicesStore
  | SyncLogStore
  | SettingsStore
  | ModelChunksStore.

#[global] Instance StoreName_eq_dec : EqDecision StoreName.
Proof. solve_decision. Defined.

(** [storeNames] of [importAllData], in its order. *)
Definition storeNames : list StoreName :=
  [FoldersStore; NotebooksStore; NotesStore; DevicesStore; SyncLogStore; SettingsStore;
   ModelChunksStore].

(** [keyPath] and [autoIncrement] as [createObjectStore] is given them. *)
Definition keyPath (n : StoreName) : string :=
  match n with
  | SettingsStore => "key"
  | _ => "id"
  end.

Definition autoIncrement (n : StoreName) : bool :=
  match n with
  | SyncLogStore => true
  | _ => false
  end.

(** The database: the records of every store, and the current number of
    the key generator of [syncLog], the one store that has a generator. *)
Record Stores := {
  recordsOf : StoreName → gmap Key Entity;
  generator : Z
}.

Definition setRecords (n : StoreName) (s : gmap Key Entity) (st : Stores) : Stores :=
  {| recordsOf := λ m, if decide (m = n) then s else recordsOf st m;
     generator := generator st |}.

(** Every record of a store is filed under the key that its key path
    yields. *)
Definition keyedBy (path : string) (s : gmap Key Entity) : Prop :=
  ∀ k e, s !! k = Some e → toKey (e !! path) = Some k.

(** [getSetting(key)]: [(await this.get('settings', key))?.value]. *)
Definition getSetting (key : option json) (st : Stores) : Run (option json) :=
  match toKey key with
  | None => Throws DataError
  | Some k => Done (e ← recordsOf st SettingsStore !! k; e !! "value")
  end.

(** [setSetting(key, value)]: [this.update('settings', { key, value })]. *)
Definition setSetting (key value : option json) (st : Stores) : Run Stores :=
  match putAt "key" (withProp "key" key (withProp "value" value ∅))
              (recordsOf st SettingsStore) with
  | Done s => Done (setRecords SettingsStore s st)
  | Throws e => Throws e
  | OutOfFuel => OutOfFuel
  end.

(** A backup: what [exportAllData] returns and [importAllData] reads.
    [stores] is [None] where the payload has no (truthy) [stores]; a
    store of the payload is [None] where [payload.stores[name]] is
    missing, and else an array of objects. *)
Record Backup := {
  version : Z;
  exportedAt : string;
  stores : option (StoreName → option (list Entity))
}.

(** [exportAllData()]: [getAll] of every store, in the order of the
    keys. *)
Definition exportAllData (now : Now) (st : Stores) : Backup :=
  {| version := 2;
     exportedAt := nowISO now;
     stores := Some (λ n, Some (inKeyOrder (recordsOf st n))) |}.

(** The one transaction of [importAllData]: what its requests have
    written so far, and whether one of them failed, which aborts the
    transaction and undoes them all. *)
Record Txn := {
  written : Stores;
  failed : bool
}.

(** The greatest number a key generator gives out. *)
Definition maxGenerated : Z := 2 ^ 53.

(** The generator after a record was stored under the given key [k]. *)
Definition bumped (g : Z) (k : Key) : Z :=
  match k with
  | KNum x => if (g <=? x)%Z then Z.min x maxGenerated + 1 else g
  | KStr _ => g
  end.

(** [store.clear()]. *)
Definition storeClear (n : StoreName) (txn : Txn) : Txn :=
  if failed txn then txn
  else {| written := setRecords n ∅ (written txn); failed := false |}.

(** [store.put(item)] within the transaction.  [None]: the call throws a
    [DataError], the item having no valid key where the store generates
    none.  A store with a generator gives an item without key the
    current number, as key and as its [id]; the request fails once the
    generator is exhausted. *)
Definition storePut (n : StoreName) (item : Entity) (txn : Txn) : option Txn :=
  let st := written txn in
  match item !! keyPath n with
  | Some v =>
      match toKey (Some v) with
      | Some k =>
          Some (if failed txn then txn
                else {| written :=
                          {| recordsOf :=
                               recordsOf (setRecords n (<[k := item]> (recordsOf st n)) st);
                             generator :=
                               if autoIncrement n then bumped (generator st) k
                               else generator st |};
                        failed := false |})
      | None => None
      end
  | None =>
      if autoIncrement n then
        Some (if failed txn then txn
              else if (maxGenerated <? generator st)%Z
              then {| written := st; failed := true |}
              else {| written :=
                        {| recordsOf :=
                             recordsOf
                               (setRecords n
                                  (<[KNum (generator st) :=
                                       <[keyPath n := JNum (generator st)]> item]>
                                     (recordsOf st n)) st);
                           generator := generator st + 1 |};
                      failed := false |})
      else None
  end.

(** [entries.forEach((item) => { store.put(item); })]: with the
    transaction, the error that a [put] threw. *)
Fixpoint putEach (n : StoreName) (items : list Entity) (txn : Txn) : Txn * option DbError :=
  match items with
  | [] => (txn, None)
  | item :: rest =>
      match storePut n item txn with
      | Some txn' => putEach n rest txn'
      | None => (txn, Some DataError)
      end
  end.

(** [storeNames.forEach((name) => { ... })]. *)
Fixpoint importStores (entries : StoreName → option (list Entity)) (names : list StoreName)
    (txn : Txn) : Txn * option DbError :=
  match names with
  | [] => (txn, None)
  | n :: rest =>
      match putEach n (default [] (entries n)) (storeClear n txn) with
      | (txn', None) => importStores entries rest txn'
      | thrown => thrown
      end
  end.

(** How [importAllData] ends, and the database it leaves. *)
Inductive Imported : Type :=
  | Resolved (st : Stores)
  | Rejected (e : DbError) (st : Stores).

(** [importAllData(payload)].  An error thrown by a [put] rejects the
    promise at once and ends the loop; the requests made before it are
    still carried out, and the transaction commits them unless one of
    them fails. *)
Definition importAllData (payload : option Backup) (st : Stores) : Imported :=
  match payload ≫= stores with
  | None => Rejected InvalidBackup st
  | Some entries =>
      let (txn, thrown) := importStores entries storeNames {| written := st; failed := false |} in
      match thrown with
      | Some e => Rejected e (if failed txn then st else written txn)
      | None => if failed txn then Rejected ImportFailed st else Resolved (written txn)
      end
  end.

(** *** A setting read back *)

(** X18.  [setSetting(key, value)] with a key that is a string or a
    number succeeds; [getSetting(key)] then returns [value], every other
    setting reads as before, and no other store changes. *)
Theorem setting_reads_back (key value : option json) (k : Key) (st : Stores) :
  toKey key = Some k →
  ∃ st',
    setSetting key value st = Done st' ∧
    getSetting key st' = Done value ∧
    (∀ other k', toKey other = Some k' → k' ≠ k → getSetting other st' = getSetting other st) ∧
    (∀ n, n ≠ SettingsStore → recordsOf st' n = recordsOf st n).
Proof.
  intros Hk.
  assert (∃ v, key = Some v) as [v ->] by (destruct key; [ by eexists | done ]).
  eexists. unfold setSetting, putAt. cbn [withProp]. rewrite lookup_insert_eq, Hk.
  split; [ reflexivity | ]. split; [ | split ].
  - unfold getSetting. rewrite Hk. cbn [setRecords recordsOf].
    rewrite decide_True by done. rewrite lookup_insert_eq. cbn.
    rewrite lookup_insert_ne by done.
    destruct value as [ w | ]; cbn [withProp]; [ by rewrite lookup_insert_eq | done ].
  - intros other k' Hother Hne. unfold getSetting. rewrite Hother.
    cbn [setRecords recordsOf]. rewrite decide_True by done.
    by rewrite lookup_insert_ne.
  - intros n Hn. cbn [setRecords recordsOf]. by rewrite decide_False.
Qed.

(** *** A backup restored *)

Lemma foldl_insert_list_to_map (l : list (Key * Entity)) : ∀ acc : gmap Key Entity,
  foldl (λ m p, <[p.1 := p.2]> m) acc l = list_to_map (reverse l) ∪ acc.
Proof.
  induction l as [ | [k e] l IH ]; intros acc.
  - cbn. by rewrite (left_id_L ∅ (∪)).
  - cbn [foldl fst snd]. rewrite IH, reverse_cons, list_to_map_app. cbn [list_to_map].
    rewrite <- (assoc_L (∪)). f_equal.
    by rewrite insert_union_singleton_l.
Qed.

Lemma foldl_insert_in_order (s : gmap Key Entity) :
  foldl (λ m p, <[p.1 := p.2]> m) ∅ (merge_sort byKey (map_to_list s)) = s.
Proof.
  rewrite foldl_insert_list_to_map, (right_id_L ∅ (∪)).
  rewrite <- (list_to_map_to_list s) at 2.
  apply list_to_map_proper.
  - rewrite fmap_reverse, reverse_Permutation, merge_sort_Permutation.
    apply NoDup_fst_map_to_list.
  - by rewrite reverse_Permutation, merge_sort_Permutation.
Qed.

Lemma putEach_keyed (n : StoreName) (l : list (Key * Entity)) :
  Forall (λ p, toKey (p.2 !! keyPath n) = Some p.1) l →
  ∀ txn, failed txn = false →
    ∃ txn',
      putEach n l.*2 txn = (txn', None) ∧ failed txn' = false ∧
      recordsOf (written txn') n
      = foldl (λ m p, <[p.1 := p.2]> m) (recordsOf (written txn) n) l ∧
      ∀ m, m ≠ n → recordsOf (written txn') m = recordsOf (written txn) m.
Proof.
  induction 1 as [ | [k e] l Hk _ IH ]; intros txn Hok.
  - exists txn. by repeat split.
  - cbn [fst snd] in Hk. rewrite fmap_cons. cbn [putEach snd].
    unfold storePut. destruct (e !! keyPath n) as [ v | ] eqn:Hv; [ | done ].
    rewrite Hk, Hok.
    destruct (IH {| written :=
                      {| recordsOf :=
                           recordsOf (setRecords n (<[k := e]> (recordsOf (written txn) n))
                                        (written txn));
                         generator :=
                           if autoIncrement n then bumped (generator (written txn)) k
                           else generator (written txn) |};
                    failed := false |} eq_refl)
      as (txn' & Hrun & Hok' & Hn & Hrest).
    exists txn'. split; [ exact Hrun | ]. split; [ exact Hok' | ].
    cbn [written recordsOf setRecords] in Hn, Hrest. split.
    + rewrite Hn. cbn [foldl fst snd]. by rewrite decide_True.
    + intros m Hm. rewrite (Hrest m Hm). by rewrite decide_False.
Qed.

Lemma importStores_restores (st : Stores) :
  (∀ n, keyedBy (keyPath n) (recordsOf st n)) →
  ∀ names, NoDup names →
  ∀ txn, failed txn = false →
    ∃ txn',
      importStores (λ n, Some (inKeyOrder (recordsOf st n))) names txn = (txn', None) ∧
      failed txn' = false ∧
      (∀ n, n ∈ names → recordsOf (written txn') n = recordsOf st n) ∧
      (∀ n, n ∉ names → recordsOf (written txn') n = recordsOf (written txn) n).
Proof.
  intros Hkeyed. induction names as [ | n names IH ]; intros Hnodup txn Hok.
  - exists txn. split; [ done | ]. split; [ done | ].
    split; [ by intros n ?%elem_of_nil | done ].
  - apply NoDup_cons in Hnodup as [Hfresh Hnodup].
    cbn [importStores default from_option id].
    destruct (putEach_keyed n (merge_sort byKey (map_to_list (recordsOf st n))))
      with (txn := storeClear n txn) as (txn1 & Hrun & Hok1 & Hn & Hrest).
    { apply Forall_forall. intros [k e] Hin. cbn [fst snd].
      apply Hkeyed. apply elem_of_map_to_list. by rewrite <- merge_sort_Permutation. }
    { unfold storeClear. by rewrite Hok. }
    unfold inKeyOrder. rewrite Hrun.
    destruct (IH Hnodup txn1 Hok1) as (txn' & Hrun' & Hok' & Hin & Hout).
    exists txn'. split; [ exact Hrun' | ]. split; [ exact Hok' | ].
    unfold storeClear in Hn, Hrest. rewrite Hok in Hn, Hrest.
    cbn [written recordsOf setRecords] in Hn, Hrest.
    rewrite decide_True in Hn by done. rewrite foldl_insert_in_order in Hn.
    split.
    + intros m [ -> | Hm ]%elem_of_cons; [ | by apply Hin ].
      by rewrite (Hout _ Hfresh).
    + intros m [Hne Hm]%not_elem_of_cons.
      rewrite (Hout m Hm), (Hrest m Hne). by rewrite decide_False.
Qed.

Lemma storeNames_NoDup : NoDup storeNames.
Proof. apply (bool_decide_unpack _). by compute. Qed.

Lemma storeNames_all n : n ∈ storeNames.
Proof. destruct n; apply (bool_decide_unpack _); by compute. Qed.

(** X19.  Where every record is filed under the key that the key
    path of its store yields, importing what [exportAllData] returned
    resolves, whatever the importing database held, and leaves in every
    store exactly the records that were exported. *)
Theorem backup_restores (now : Now) (st current : Stores) :
  (∀ n, keyedBy (keyPath n) (recordsOf st n)) →
  ∃ restored,
    importAllData (Some (exportAllData now st)) current = Resolved restored ∧
    ∀ n, recordsOf restored n = recordsOf st n.
Proof.
  intros Hkeyed.
  destruct (importStores_restores st Hkeyed storeNames)
    with (txn := {| written := current; failed := false |})
    as (txn' & Hrun & Hok & Hin & _); [ apply storeNames_NoDup | done | ].
  exists (written txn'). unfold importAllData, exportAllData. cbn [mbind option_bind stores].
  rewrite Hrun, Hok. split; [ done | ].
  intros n. apply Hin, storeNames_all.
Qed.

(** *** Sample runs *)

(** The sample tree with one setting. *)
Definition sampleStores : Stores :=
  {| recordsOf := λ n,
       match n with
       | FoldersStore => folders sampleTree
       | NotebooksStore => notebooks sampleTree
       | NotesStore => notes sampleTree
       | SettingsStore =>
           {[ KStr "theme" := entity [("key", JStr "theme"); ("value", JStr "dark")] ]}
       | _ => ∅
       end;
     generator := 1 |}.

Definition emptyStores : Stores := {| recordsOf := λ _, ∅; generator := 1 |}.

Lemma sampleStores_keyed n : keyedBy (keyPath n) (recordsOf sampleStores n).
Proof.
  destruct sampleTree_keyed as (Hf & Hnb & Hn).
  destruct n; cbn [sampleStores recordsOf keyPath]; try done.
  by intros k e [<- <-]%lookup_singleton_Some.
Qed.

Lemma setting_reads_back_witness :
  toKey (Some (JStr "theme")) = Some (KStr "theme") ∧
  ∃ st',
    setSetting (Some (JStr "theme")) (Some (JStr "light")) sampleStores = Done st' ∧
    getSetting (Some (JStr "theme")) st' = Done (Some (JStr "light")) ∧
    (∀ other k', toKey other = Some k' → k' ≠ KStr "theme"
                 → getSetting other st' = getSetting other sampleStores) ∧
    (∀ n, n ≠ SettingsStore → recordsOf st' n = recordsOf sampleStores n).
Proof.
  split; [ reflexivity | ].
  exact (setting_reads_back (Some (JStr "theme")) (Some (JStr "light")) (KStr "theme")
           sampleStores eq_refl).
Defined.

Lemma backup_restores_witness :
  (∀ n, keyedBy (keyPath n) (recordsOf sampleStores n)) ∧
  ∃ restored,
    importAllData (Some (exportAllData (sampleClock 0) sampleStores)) emptyStores
    = Resolved restored ∧
    ∀ n, recordsOf restored n = recordsOf sampleStores n.
Proof.
  split; [ exact sampleStores_keyed | ].
  exact (backup_restores (sampleClock 0) sampleStores emptyStores sampleStores_keyed).
Defined.

(** A backup whose folder has no [id]: the import is rejected, and the
    folders that were stored are gone all the same. *)
Example import_rejected_half_way :
  ∃ st',
    importAllData
      (Some {| version := 2; exportedAt := "2026-01-01T00:00:00Z";
               stores := Some (λ n, match n with
                                    | FoldersStore => Some [entity [("name", JStr "A")]]
                                    | _ => None
                                    end) |})
      sampleStores
    = Rejected DataError st' ∧
    recordsOf st' FoldersStore = ∅ ∧
    recordsOf st' NotesStore = notes sampleTree.
Proof. eexists. split; [ reflexivity | ]. split; reflexivity. Qed.

End Database.

(* ===================================================================== *)
(** * DirectoryTree: moving an item by drag and drop ([settings.js])      *)
(* ===================================================================== *)

Module DirectoryTree.
Import Json Store Merge Database.

(** [s === v] for a string [s]: [v] is that string. *)
Definition isString (s : string) (v : option json) : bool :=
  match v with
  | Some (JStr x) => String.eqb s x
  | _ => false
  end.

(** [isDescendant(folderId, potentialChildId)]: walks from
    [potentialChildId] up the [parentId]s until it meets [folderId], a
    folder that is not stored, or a folder without a truthy [parentId].
    [folderId] is the id of the dragged item, a string, so that
    [folderId === potentialChildId] holds of that string only.
    [getFolder] throws on a value that is not a key. *)
Fixpoint isDescendant (fuel : nat) (folderId : string) (potentialChildId : option json)
    (db : DB) : Run bool :=
  match fuel with
  | 0 => OutOfFuel
  | S fuel' =>
      if isString folderId potentialChildId then Done true
      else
        match toKey potentialChildId with
        | None => Throws DataError
        | Some k =>
            match folders db !! k with
            | None => Done false
            | Some folder =>
                match folder !! "parentId" with
                | Some parentId =>
                    if truthy parentId then isDescendant fuel' folderId (Some parentId) db
                    else Done false
                | None => Done false
                end
            end
        end
  end.

(** [try { ... } catch (error) { console.error(...) }] around one call of
    the database: what is thrown leaves the database as it was. *)
Definition caught (db : DB) (r : Run DB) : Run DB :=
  match r with
  | Throws _ => Done db
  | _ => r
  end.

(** [{ <property>: targetId, order: Date.now() }]. *)
Definition movedTo (property targetId : string) (now : Now) : Entity :=
  <[property := JStr targetId]> (<["order" := JNum (nowMs now)]> ∅).

(** [handleDrop(e)] as it changes the database.  [target] is the
    [data-id] and [data-type] of the closest draggable element, if there
    is one: every element the tree makes draggable carries both.
    [draggedItem] and [draggedItemType] are what [handleDragStart] left,
    [None] for [null]. *)
Definition handleDrop (fuel : nat) (now : Now) (draggedItem draggedItemType : option string)
    (target : option (string * string)) (db : DB) : Run DB :=
  match target, draggedItem with
  | Some (targetId, targetType), Some dragged =>
      if String.eqb dragged "" then Done db
      else if bool_decide (draggedItemType = Some "note") && String.eqb targetType "notebook"
      then caught db (updateNote now (Some (JStr dragged)) (movedTo "notebookId" targetId now) db)
      else if bool_decide (draggedItemType = Some "notebook") && String.eqb targetType "folder"
      then caught db (updateNotebook now (Some (JStr dragged)) (movedTo "folderId" targetId now) db)
      else if bool_decide (draggedItemType = Some "folder") && String.eqb targetType "folder"
      then
        match isDescendant fuel dragged (Some (JStr targetId)) db with
        | Done true => Done db
        | Done false =>
            caught db (updateFolder now (Some (JStr dragged)) (movedTo "parentId" targetId now) db)
        | Throws _ => Done db
        | OutOfFuel => OutOfFuel
        end
      else Done db
  | _, _ => Done db
  end.

(** The folders form a forest: below every key the folders are well
    founded, so that no folder lies, however deep, in itself. *)
Definition forest (s : gmap Key Entity) : Prop := ∀ k, Acc (isChildOf s) k.

(** No folder is stored under a falsy id, [''] or [0]. *)
Definition truthyKeys (s : gmap Key Entity) : Prop :=
  s !! KStr "" = None ∧ s !! KNum 0 = None.


(** ** [isDescendant] *)

Lemma toKey_str v s : toKey v = Some (KStr s) → isString s v = true.
Proof.
  destruct v as [ [ | | | x | | ] | ]; cbn; try congruence.
  intros [= ->]. apply String.eqb_refl.
Qed.

Lemma falsy_key (s : gmap Key Entity) v p :
  truthyKeys s → truthy v = false → toKey (Some v) = Some p → s !! p = None.
Proof.
  intros [Hstr Hnum] Hv Hp. destruct v as [ | b | n | x | l | m ]; cbn in Hv, Hp; try done.
  - injection Hp as <-. apply negb_false_iff, Z.eqb_eq in Hv. by subst n.
  - injection Hp as <-. apply negb_false_iff, String.eqb_eq in Hv. by subst x.
Qed.

Lemma within_stored (s : gmap Key Entity) a k :
  within s a k → k = a ∨ is_Some (s !! k).
Proof.
  destruct 1 as [ | k p Hp _ ]; [ by left | right ].
  unfold parentOf in Hp. destruct (s !! k); [ by eexists | done ].
Qed.

(** Answering [false], [isDescendant] is right: the target is not below
    the dragged folder. *)
Lemma isDescendant_false (db : DB) (dragged : string) :
  truthyKeys (folders db) → dragged ≠ "" →
  ∀ fuel t tk,
    isDescendant fuel dragged t db = Done false → toKey t = Some tk →
    ¬ within (folders db) (KStr dragged) tk.
Proof.
  intros Hkeys Hdragged. induction fuel as [ | fuel IH ]; intros t tk Hrun Ht Hin; [ done | ].
  cbn [isDescendant] in Hrun. destruct (isString dragged t) eqn:Hsame; [ done | ].
  rewrite Ht in Hrun.
  destruct Hin as [ | tk p Hp Hin ].
  { by rewrite (toKey_str _ _ Ht) in Hsame. }
  unfold parentOf in Hp.
  destruct (folders db !! tk) as [ folder | ]; [ | done ]. cbn in Hp.
  destruct (folder !! "parentId") as [ parentId | ]; [ | done ].
  destruct (truthy parentId) eqn:Htruthy.
  - exact (IH _ _ Hrun Hp Hin).
  - pose proof (falsy_key _ _ _ Hkeys Htruthy Hp) as Hnone.
    destruct (within_stored _ _ _ Hin) as [ -> | [e He] ]; [ | congruence ].
    cbn in Htruthy. destruct parentId; cbn in Hp; try done.
    injection Hp as ->. apply negb_false_iff, String.eqb_eq in Htruthy. done.
Qed.




(** In a forest the walk ends: it cannot pass more folders than are
    stored. *)
Lemma isDescendant_ends (db : DB) (dragged : string) :
  forest (folders db) →
  ∀ fuel (visited : gset Key) t,
    visited ⊆ dom (folders db) →
    (∀ tk v, toKey t = Some tk → v ∈ visited →
             ∃ q, parentOf (folders db) v = Some q ∧ within (folders db) tk q) →
    size (folders db) < fuel + size visited →
    isDescendant fuel dragged t db ≠ OutOfFuel.
Proof.
  intros Hforest. induction fuel as [ | fuel IH ]; intros visited t Hsub Hbelow Hsize.
  { apply subseteq_size in Hsub. rewrite size_dom in Hsub. lia. }
  cbn [isDescendant]. destruct (isString dragged t) eqn:Hsame; [ done | ].
  destruct (toKey t) as [ tk | ] eqn:Ht; [ | done ].
  destruct (folders db !! tk) as [ folder | ] eqn:Hfolder; [ | done ].
  destruct (folder !! "parentId") as [ parentId | ] eqn:Hparent; [ | done ].
  destruct (truthy parentId); [ | done ].
  assert (tk ∉ visited) as Hfresh.
  { intros Hin. destruct (Hbelow tk tk eq_refl Hin) as (q & Hq & Hwithin).
    exact (within_no_cycle _ q (Hforest q) tk Hq Hwithin). }
  apply (IH ({[ tk ]} ∪ visited)).
  - apply union_subseteq. split; [ | done ].
    apply singleton_subseteq_l, elem_of_dom. by eexists.
  - intros tk' v Htk' [ ->%elem_of_singleton | Hv ]%elem_of_union.
    + exists tk'. split; [ | apply within_root ].
      unfold parentOf. by rewrite Hfolder; cbn; rewrite Hparent.
    + destruct (Hbelow tk v eq_refl Hv) as (q & Hq & Hwithin).
      exists q. split; [ done | ].
      apply (within_trans _ _ tk); [ | done ].
      eapply within_child; [ | apply within_root ].
      unfold parentOf. by rewrite Hfolder; cbn; rewrite Hparent.
  - rewrite size_union by set_solver. rewrite size_singleton. lia.
Qed.

Lemma isDescendant_returns (db : DB) (dragged : string) t fuel :
  forest (folders db) → size (folders db) < fuel →
  isDescendant fuel dragged t db ≠ OutOfFuel.
Proof.
  intros Hforest Hfuel. apply (isDescendant_ends db dragged Hforest fuel ∅).
  - set_solver.
  - set_solver.
  - rewrite size_empty. lia.
Qed.

(** ** Filing a folder under another *)

Section Reparent.

Variables (s s' : gmap Key Entity) (d t : Key).

Hypothesis Hforest : forest s.
Hypothesis Hout : ¬ within s d t.
Hypothesis Hmoved : parentOf s' d = Some t.
Hypothesis Hrest : ∀ k, k ≠ d → parentOf s' k = parentOf s k.

Lemma reparent_children c k :
  isChildOf s' c k → (c = d ∧ k = t) ∨ (c ≠ d ∧ isChildOf s c k).
Proof.
  unfold isChildOf. intros Hc. destruct (decide (c = d)) as [ -> | Hne ].
  - left. split; [ done | ]. congruence.
  - right. split; [ done | ]. by rewrite <- Hrest.
Qed.

Lemma reparent_outside k : Acc (isChildOf s) k → ¬ within s k t → Acc (isChildOf s') k.
Proof.
  induction 1 as [ k _ IH ]. intros Hk. constructor. intros c Hc.
  destruct (reparent_children c k Hc) as [ [-> ->] | [Hne Hchild] ].
  - exfalso. apply Hk, within_root.
  - apply IH; [ done | ]. intros Hin. apply Hk.
    apply (within_trans _ _ c); [ | done ].
    eapply within_child; [ exact Hchild | apply within_root ].
Qed.

Lemma reparent_forest : forest s'.
Proof.
  intros k. induction (Hforest k) as [ k _ IH ]. constructor. intros c Hc.
  destruct (reparent_children c k Hc) as [ [-> ->] | [Hne Hchild] ].
  - by apply reparent_outside.
  - by apply IH.
Qed.

End Reparent.

(** ** [handleDrop] *)

(** What [updateFolder] stores when a folder is filed under [targetId]. *)
Lemma updateRecord_movedTo now (s : gmap Key Entity) dragged property targetId folder :
  wellKeyed s → s !! KStr dragged = Some folder → property ≠ "id" → property ≠ "updatedAt" →
  ∃ moved,
    updateRecord now (Some (JStr dragged)) (movedTo property targetId now) s
    = Done (<[KStr dragged := moved]> s) ∧
    moved !! property = Some (JStr targetId) ∧
    moved !! "id" = folder !! "id".
Proof.
  intros Hkeyed Hfolder Hid Hat.
  exists (<["updatedAt" := JStr (nowISO now)]> (movedTo property targetId now ∪ folder)).
  assert (movedTo property targetId now !! "id" = None) as Hnone.
  { unfold movedTo. rewrite lookup_insert_ne by done. by rewrite lookup_insert_ne. }
  assert ((<["updatedAt" := JStr (nowISO now)]> (movedTo property targetId now ∪ folder)
             : Entity) !! "id" = folder !! "id") as Hsame.
  { rewrite lookup_insert_ne by done. by apply lookup_union_r. }
  split; [ | split; [ | done ] ].
  - unfold updateRecord, put, putAt. cbn [toKey]. rewrite Hfolder, Hsame.
    by rewrite (Hkeyed _ _ Hfolder).
  - rewrite lookup_insert_ne by done. apply lookup_union_Some_l.
    unfold movedTo. apply lookup_insert_eq.
Qed.

Lemma updateRecord_missing now (s : gmap Key Entity) dragged updates :
  s !! KStr dragged = None →
  updateRecord now (Some (JStr dragged)) updates s = Throws NotFound.
Proof. intros Hnone. unfold updateRecord. cbn [toKey]. by rewrite Hnone. Qed.

Lemma wellKeyed_insert (s : gmap Key Entity) k e :
  wellKeyed s → toKey (e !! "id") = Some k → wellKeyed (<[k := e]> s).
Proof.
  intros Hkeyed He k' e'. destruct (decide (k' = k)) as [ -> | Hne ].
  - rewrite lookup_insert_eq. by intros [= <-].
  - rewrite lookup_insert_ne by done. apply Hkeyed.
Qed.

(** A folder dropped on a folder, when the walk answered [false]. *)
Lemma folder_moved now (db : DB) dragged targetId folder :
  wellKeyed (folders db) → truthyKeys (folders db) → forest (folders db) →
  dragged ≠ "" → folders db !! KStr dragged = Some folder →
  ¬ within (folders db) (KStr dragged) (KStr targetId) →
  ∃ db',
    updateFolder now (Some (JStr dragged)) (movedTo "parentId" targetId now) db = Done db' ∧
    wellKeyed (folders db') ∧ truthyKeys (folders db') ∧ forest (folders db') ∧
    parentOf (folders db') (KStr dragged) = Some (KStr targetId) ∧
    (∀ k, k ≠ KStr dragged → folders db' !! k = folders db !! k) ∧
    notebooks db' = notebooks db ∧ notes db' = notes db.
Proof.
  intros Hkeyed [Hstr Hnum] Hforest Hdragged Hfolder Hout.
  destruct (updateRecord_movedTo now (folders db) dragged "parentId" targetId folder)
    as (moved & Hrun & Hparent & Hid); [ done .. | ].
  eexists. unfold updateFolder. rewrite Hrun. cbn [inStore folders notebooks notes].
  split; [ done | ]. cbn [folders notebooks notes].
  assert (parentOf (<[KStr dragged := moved]> (folders db)) (KStr dragged)
          = Some (KStr targetId)) as Hmoved.
  { unfold parentOf. rewrite lookup_insert_eq. cbn. by rewrite Hparent. }
  assert (∀ k, k ≠ KStr dragged →
               <[KStr dragged := moved]> (folders db) !! k = folders db !! k) as Hrest.
  { intros k Hk. by rewrite lookup_insert_ne. }
  split; [ | split; [ | split; [ | done ] ] ].
  - apply wellKeyed_insert; [ done | ]. rewrite Hid. by apply Hkeyed.
  - split; rewrite lookup_insert_ne; try done. intros [= Hempty]. by apply Hdragged.
  - apply (reparent_forest (folders db) _ (KStr dragged) (KStr targetId)); try done.
    intros k Hk. unfold parentOf. by rewrite Hrest.
Qed.

(** X20.  Where the folders are filed under their ids, none under ['']
    or [0], and form a forest, [handleDrop] returns for every dragged
    item and every target, given fuel for more steps than there are
    folders, and the folders of the database it leaves are again filed
    under their ids, none under [''] or [0], and form a forest: no drop
    puts a folder into itself or into a folder below it. *)
Theorem drop_keeps_folders_a_forest now draggedItem draggedItemType target (db : DB) fuel :
  wellKeyed (folders db) → truthyKeys (folders db) → forest (folders db) →
  size (folders db) < fuel →
  ∃ db',
    handleDrop fuel now draggedItem draggedItemType target db = Done db' ∧
    wellKeyed (folders db') ∧ truthyKeys (folders db') ∧ forest (folders db').
Proof.
  intros Hkeyed Hkeys Hforest Hfuel.
  assert (∀ c updates,
            ∃ db', caught db (inStore c db (updateRecord now (Some (JStr
                     (default "" draggedItem))) updates
                     (match c with Folders => folders db | Notebooks => notebooks db
                                   | Notes => notes db end))) = Done db' ∧
                   (c ≠ Folders → folders db' = folders db)) as Hother.
  { intros c updates.
    destruct (updateRecord _ _ _ _) as [ s' | e | ] eqn:Hrun.
    - destruct c; eexists; (split; [ reflexivity | ]); done.
    - exists db. by split.
    - exfalso. unfold updateRecord, put, putAt in Hrun. cbn [toKey] in Hrun.
      repeat case_match; done. }
  unfold handleDrop.
  destruct target as [ [targetId targetType] | ]; [ | by exists db ].
  destruct draggedItem as [ dragged | ]; [ | by exists db ].
  cbn [default from_option id] in Hother.
  destruct (String.eqb dragged "") eqn:Hempty; [ by exists db | ].
  apply String.eqb_neq in Hempty.
  destruct (_ && _).
  { destruct (Hother Notes (movedTo "notebookId" targetId now)) as (db' & Hrun & Hsame).
    exists db'. split; [ exact Hrun | ]. by rewrite Hsame. }
  destruct (_ && _).
  { destruct (Hother Notebooks (movedTo "folderId" targetId now)) as (db' & Hrun & Hsame).
    exists db'. split; [ exact Hrun | ]. by rewrite Hsame. }
  destruct (_ && _); [ | by exists db ].
  pose proof (isDescendant_returns db dragged (Some (JStr targetId)) fuel Hforest Hfuel)
    as Hreturns.
  destruct (isDescendant fuel dragged (Some (JStr targetId)) db) as [ [ | ] | e | ] eqn:Hwalk;
    [ by exists db | | by exists db | done ].
  destruct (folders db !! KStr dragged) as [ folder | ] eqn:Hfolder.
  - destruct (folder_moved now db dragged targetId folder)
      as (db' & Hrun & Hkeyed' & Hkeys' & Hforest' & _); try done.
    { by apply (isDescendant_false db dragged Hkeys Hempty fuel (Some (JStr targetId))). }
    exists db'. unfold caught. by rewrite Hrun.
  - exists db. unfold updateFolder. by rewrite updateRecord_missing.
Qed.


(** ** Sample runs *)

Lemma sampleTree_forest : forest (folders sampleTree).
Proof.
  intros k. constructor. intros c [-> ->]%sampleTree_children.
  constructor. intros c' [_ [=]]%sampleTree_children.
Qed.

Lemma sampleTree_truthyKeys : truthyKeys (folders sampleTree).
Proof. split; reflexivity. Qed.


Lemma sampleTree_size : size (folders sampleTree) < 3.
Proof. apply Nat.ltb_lt. vm_compute. reflexivity. Qed.

Lemma drop_keeps_folders_a_forest_witness :
  wellKeyed (folders sampleTree) ∧ truthyKeys (folders sampleTree) ∧
  forest (folders sampleTree) ∧ size (folders sampleTree) < 3 ∧
  ∃ db',
    handleDrop 3 (sampleClock 0) (Some "F1") (Some "folder") (Some ("F2", "folder")) sampleTree
    = Done db' ∧
    wellKeyed (folders db') ∧ truthyKeys (folders db') ∧ forest (folders db').
Proof.
  destruct sampleTree_keyed as (Hkeyed & _ & _).
  split; [ exact Hkeyed | ]. split; [ exact sampleTree_truthyKeys | ].
  split; [ exact sampleTree_forest | ]. split; [ exact sampleTree_size | ].
  exact (drop_keeps_folders_a_forest (sampleClock 0) (Some "F1") (Some "folder")
           (Some ("F2", "folder")) sampleTree 3
           Hkeyed sampleTree_truthyKeys sampleTree_forest sampleTree_size).
Defined.


(** Dropped on the folder that lies in it, a folder stays where it is. *)
Example drop_on_own_child :
  handleDrop 3 (sampleClock 0) (Some "F1") (Some "folder") (Some ("F2", "folder")) sampleTree
  = Done sampleTree.
Proof. vm_compute. reflexivity. Qed.

End DirectoryTree.
